(** * CENSO utilities: a shallow embedding of [censo_qm/utilities.py]

    The development follows the source file function by function.  Each
    Python function is translated into an executable Rocq definition of the
    same name; exceptions become an explicit error result, [print] calls
    become a list of emitted messages, and objects that are shared between
    lists live in an explicit store.

    Numbers: counters and indices are [nat]/[Z]; the averaged ranks and the
    failure rate are rationals ([Q]); quantities that go through [math.exp]
    or [math.sqrt] are real numbers ([R]), so floating-point rounding is not
    part of the model. *)

From Stdlib Require Import ZArith QArith Qround Reals Qreals Lra Lia Ascii.
From stdpp Require Import base functions option list strings gmap pretty sorting.

(** ** Python results *)

(** The exceptions the modelled functions can raise. *)
Inductive exn :=
  | ZeroDivisionError
  | IndexError
  | ValueError
  | NameError
  | AttributeError
  | TypeError
  | OSError
  | SystemExit (code : Z).

(** A call either returns a value or raises. *)
Inductive result (A : Type) :=
  | Ok (a : A)
  | Raise (e : exn).
Arguments Ok {A} a.
Arguments Raise {A} e.

#[global] Instance result_ret : MRet result := λ A a, Ok a.
#[global] Instance result_bind : MBind result := λ A B k r,
  match r with
  | Ok a => k a
  | Raise e => Raise e
  end.

#[global] Instance result_fmap : FMap result := λ A B f r,
  match r with
  | Ok a => Ok (f a)
  | Raise e => Raise e
  end.

Definition is_ok {A} (r : result A) : bool :=
  match r with Ok _ => true | Raise _ => false end.

(** ** FailureTriage: [check_tasks] *)

Module FailureTriage.

(** A job result; only [item.job["success"]] is read. *)
Record task := { job_success : bool }.

(** What [check_tasks] prints. The percentage is kept as a number. *)
Inductive message :=
  | MsgTooManyFailed                (* "ERROR: Too many calculations failed! Going to exit!" *)
  | MsgErrorRate (percent : Q)      (* "ERROR: {fail_rate*100} % of the calculations failed! Going to exit!" *)
  | MsgWarnRate (percent : Q).      (* "WARNING: {fail_rate*100} % of the calculations failed!" *)

(** The counting loop:
    [for item in results: if not item.job["success"]: counter += 1]. *)
Definition count_failed (results : list task) : nat :=
  fold_left (fun counter item =>
               if negb (job_success item) then S counter else counter)
            results 0%nat.

(** [float(counter) / float(len(results))]. *)
Definition fail_rate_of (counter len : nat) : result Q :=
  if Nat.eqb len 0 then Raise ZeroDivisionError
  else Ok (inject_Z (Z.of_nat counter) / inject_Z (Z.of_nat len))%Q.

(** [check_tasks(results, check=False, thresh=0.25)].  The optional
    arguments are [None] when the caller leaves them out.  The result is
    the printed messages together with [Ok ()] for a normal return and
    [Raise (SystemExit 1)] for [sys.exit(1)]. *)
Definition check_tasks (results : list task)
    (check : option bool) (thresh : option Q) : list message * result unit :=
  let check := default false check in
  let thresh := default (25 # 100)%Q thresh in
  let counter := count_failed results in
  match fail_rate_of counter (length results) with
  | Raise _ => ([MsgTooManyFailed], Raise (SystemExit 1))
  | Ok fail_rate =>
      if Qle_bool thresh fail_rate && check then
        ([MsgErrorRate (fail_rate * 100)%Q], Raise (SystemExit 1))
      else if Qle_bool thresh fail_rate then
        ([MsgWarnRate (fail_rate * 100)%Q], Ok tt)
      else ([], Ok tt)
  end.

(** The rate the specification speaks of: failed results over all
    results. *)
Definition failRate (results : list task) : Q :=
  (inject_Z (Z.of_nat (length (filter (fun t => job_success t = false) results)))
   / inject_Z (Z.of_nat (length results)))%Q.

Definition task_ok := {| job_success := true |}.
Definition task_failed := {| job_success := false |}.

End FailureTriage.

(** ** Python's stable sort *)

(** [sorted(l, key=..., reverse=...)] and [list.sort(key=..., reverse=...)]
    are stable: elements whose keys compare equal keep their original
    order, also with [reverse=True].  Any stable sort computes the same
    list, so the model is the insertion sort that uses only the [<] test on
    keys, as Python's sort does. *)
Section py_sort.
Context {A K : Type} (ltb : K → K → bool) (key : A → K).

(** [x] comes from an earlier position than every element of the sorted
    list [l]; it is placed after the elements with a strictly smaller
    key only. *)
Fixpoint insert_stable (x : A) (l : list A) : list A :=
  match l with
  | [] => [x]
  | y :: l' =>
      if ltb (key y) (key x) then y :: insert_stable x l'
      else x :: y :: l'
  end.

Definition stable_sort (l : list A) : list A := foldr insert_stable [] l.
End py_sort.

Definition sorted {A K} (ltb : K → K → bool) (key : A → K)
    (reverse : bool) (l : list A) : list A :=
  stable_sort (if reverse then flip ltb else ltb) key l.

(** ** RankCorrelation: [rank_simple], [rankdata] *)

Module RankCorrelation.

(** The vectors hold Python numbers; they are modelled as rationals,
    compared with [<] (sorting) and [!=] (tie detection). *)
Definition Qltb (x y : Q) : bool := negb (Qle_bool y x).
Definition Qneb (x y : Q) : bool := negb (Qeq_bool x y).

(** [vector.__getitem__]: only called with indices of [range(len(vector))]. *)
Definition getitem (vector : list Q) (i : nat) : Q := nth i vector 0%Q.

(** [sorted(range(len(vector)), key=vector.__getitem__)]. *)
Definition rank_simple (vector : list Q) : list nat :=
  sorted Qltb (getitem vector) false (seq 0 (length vector)).

(** The loop state of [rankdata]. *)
Record rank_state := {
  sumranks : nat;
  dupcount : nat;
  newarray : list Q;
}.

(** [sumranks / float(dupcount) + 1]. *)
Definition averank_of (sumranks dupcount : nat) : Q :=
  (inject_Z (Z.of_nat sumranks) / inject_Z (Z.of_nat dupcount) + 1)%Q.

(** [for j in range(i - dupcount + 1, i + 1): newarray[ivec[j]] = averank].
    [dupcount <= i + 1] always holds, so the range starts at a natural
    number and has [dupcount] elements. *)
Definition write_slots (ivec : list nat) (averank : Q) (js : list nat)
    (newarray : list Q) : list Q :=
  fold_left (fun arr j => <[nth j ivec 0%nat := averank]> arr) js newarray.

Definition assign_ranks (ivec : list nat) (i dupcount : nat) (averank : Q)
    (newarray : list Q) : list Q :=
  write_slots ivec averank (seq (i + 1 - dupcount) dupcount) newarray.

(** One iteration of [for i in range(n)]. *)
Definition rank_step (n : nat) (ivec : list nat) (svec : list Q)
    (st : rank_state) (i : nat) : rank_state :=
  let sumranks := (sumranks st + i)%nat in
  let dupcount := (dupcount st + 1)%nat in
  if Nat.eqb i (n - 1) || Qneb (getitem svec i) (getitem svec (i + 1)) then
    let averank := averank_of sumranks dupcount in
    {| sumranks := 0; dupcount := 0;
       newarray := assign_ranks ivec i dupcount averank (newarray st) |}
  else
    {| sumranks := sumranks; dupcount := dupcount; newarray := newarray st |}.

Definition rank_loop (n : nat) (ivec : list nat) (svec : list Q)
    (st : rank_state) (idxs : list nat) : rank_state :=
  fold_left (rank_step n ivec svec) idxs st.

Definition rankdata (a : list Q) : list Q :=
  let n := length a in
  let ivec := rank_simple a in
  let svec := map (getitem a) ivec in
  let init := {| sumranks := 0; dupcount := 0; newarray := replicate n 0%Q |} in
  newarray (rank_loop n ivec svec init (seq 0 n)).

(** The average-rank convention, stated without reference to the loop:
    sort the values (stable, ascending); the tie group of [v] occupies
    the 1-based positions of the sorted list whose value equals [v]; the
    rank of [v] is the average of these positions. *)
Definition sorted_values (a : list Q) : list Q := sorted Qltb (fun x => x) false a.
Definition tie_positions (v : Q) (a : list Q) : list nat :=
  map S (List.filter (fun p => Qeq_bool (getitem (sorted_values a) p) v)
                     (seq 0 (length a))).
Definition sum_nat (l : list nat) : nat := fold_right Nat.add 0%nat l.
Definition average_rank (v : Q) (a : list Q) : Q :=
  (inject_Z (Z.of_nat (sum_nat (tie_positions v a)))
   / inject_Z (Z.of_nat (length (tie_positions v a))))%Q.

Definition Qsum (l : list Q) : Q := fold_right Qplus 0%Q l.

(** The loop invariant of [rankdata], after the iterations [0 .. m-1]:
    [m - dupcount] is the start of the tie group that is still open;
    every position of the sorted order before it has its final rank, and
    these ranks add up to the sum of the positions (counted from 1). *)
Definition rank_inv (a : list Q) (m : nat) (st : rank_state) : Prop :=
  let n := length a in
  let ivec := rank_simple a in
  let svec := map (getitem a) ivec in
  let d := dupcount st in
  let s := (m - d)%nat in
  (d ≤ m)%nat
  ∧ sumranks st = sum_nat (seq s d)
  ∧ length (newarray st) = n
  ∧ (∀ p, (p < s)%nat →
       (nth (nth p ivec 0%nat) (newarray st) 0
        == average_rank (getitem svec p) a)%Q)
  ∧ (Qsum (map (fun p => nth (nth p ivec 0%nat) (newarray st) 0%Q) (seq 0 s))
     == inject_Z (Z.of_nat (sum_nat (seq 1 s))))%Q
  ∧ ((0 < d)%nat →
       (m < n)%nat
       ∧ ∀ p, (s ≤ p < m)%nat → (getitem svec p == getitem svec (p + 1))%Q)
  ∧ ((0 < s)%nat → (s < n)%nat →
       Qneb (getitem svec (s - 1)) (getitem svec s) = true).

End RankCorrelation.

(** ** Python operations on real numbers *)

(** [x / y] on floats raises [ZeroDivisionError] for [y == 0]. *)
Definition py_div (x y : R) : result R :=
  if Req_dec_T y 0 then Raise ZeroDivisionError else Ok (x / y)%R.

(** [l[i]] raises [IndexError] outside the list. *)
Definition py_getitem {A} (l : list A) (i : nat) : result A :=
  match l !! i with
  | Some x => Ok x
  | None => Raise IndexError
  end.

(** [sum(l)]. *)
Definition Rsum (l : list R) : R := fold_right Rplus 0%R l.

(** ** RankCorrelation: [pearson] *)

Module Correlation.
Local Open Scope R_scope.

(** [[A[i] * B[i] for i in range(int(n))]]. *)
Fixpoint products (A B : list R) (idxs : list nat) : result (list R) :=
  match idxs with
  | [] => Ok []
  | i :: idxs' =>
      a ← py_getitem A i;
      b ← py_getitem B i;
      rest ← products A B idxs';
      Ok (a * b :: rest)
  end.

Definition msg_unequal : string :=
  "ERROR in PEARSON lists are not of equal length!".
Definition msg_zero_division : string :=
  "WARNING:  float division by zero".

(** The statements before the [try]: the means and the sample standard
    deviations.  [1 / (n - 1)] is evaluated once for each of them. *)
Definition pearson_moments (A B : list R) : result (R * R * R * R) :=
  let n := INR (length A) in
  muA ← py_div (Rsum A) n;
  muB ← py_div (Rsum B) n;
  let diffA := map (fun x => x - muA) A in
  let diffB := map (fun x => x - muB) B in
  qA ← py_div 1 (n - 1);
  let stdA := sqrt (qA * Rsum (map (fun d => d * d) diffA)) in
  qB ← py_div 1 (n - 1);
  let stdB := sqrt (qB * Rsum (map (fun d => d * d) diffB)) in
  Ok (muA, muB, stdA, stdB).

(** The expression of the [return] statement. *)
Definition pearson_quotient (A B : list R) (muA muB stdA stdB : R) : result R :=
  let n := INR (length A) in
  prods ← products A B (seq 0 (length A));
  py_div (Rsum prods - n * muA * muB) ((n - 1) * stdA * stdB).

(** [pearson(A, B)]: the printed lines and the outcome.  Only a
    [ZeroDivisionError] of the [return] expression is caught. *)
Definition pearson (A B : list R) : list string * result R :=
  let msgs :=
    if decide (length A = length B) then [] else [msg_unequal] in
  match pearson_moments A B with
  | Raise e => (msgs, Raise e)
  | Ok (muA, muB, stdA, stdB) =>
      match pearson_quotient A B muA muB stdA stdB with
      | Ok r => (msgs, Ok r)
      | Raise ZeroDivisionError => (msgs ++ [msg_zero_division], Ok 0)
      | Raise e => (msgs, Raise e)
      end
  end.


End Correlation.

(** ** RankCorrelation: [spearman] *)

(** [spearman(A, B)] is [pearson(rankdata(A), rankdata(B))]: the ranks,
    which are rational numbers, are the numbers [pearson] works on. *)
Definition spearman (A B : list Q) : list string * result R :=
  Correlation.pearson (map Q2R (RankCorrelation.rankdata A))
                      (map Q2R (RankCorrelation.rankdata B)).

(** ** BoltzmannWeighting: [calc_boltzmannweights] *)

Module Boltzmann.
Local Open Scope R_scope.

(** Attribute values: a float, or [None]. *)
Inductive pyval :=
  | PyNone
  | PyFloat (x : R).

(** A conformer object is its attribute dictionary. *)
Abbreviation conformer := (gmap string pyval).

(** [getattr(o, name, default)]. *)
Definition getattr_default (o : conformer) (name : string) (dflt : pyval) : pyval :=
  default dflt (o !! name).

(** [o.name]. *)
Definition getattr (o : conformer) (name : string) : result pyval :=
  match o !! name with
  | Some v => Ok v
  | None => Raise AttributeError
  end.

(** Arithmetic on [None] raises [TypeError]. *)
Definition as_float (v : pyval) : result R :=
  match v with
  | PyFloat x => Ok x
  | PyNone => Raise TypeError
  end.

(** [min([getattr(conf, property, None) for conf in confs
          if getattr(conf, property, None) is not None])];
    [None] when [min] raises [ValueError] and [minfree] stays unbound. *)
Definition set_values (confs : list conformer) (property : string) : list R :=
  omap (fun conf =>
          match getattr_default conf property PyNone with
          | PyFloat x => Some x
          | PyNone => None
          end) confs.

Definition py_min (l : list R) : option R :=
  match l with
  | [] => None
  | x :: l' => Some (fold_left Rmin l' x)
  end.

Section constants.
(** [AU2J] and [KB] are imported from [cfg.py]. *)
Variables AU2J KB : R.

(** [getattr(item, "gi", 1.0)
      * math.exp(-((item.free_energy - minfree) * AU2J) / (KB * T))]. *)
Definition boltzmann_term (minfree : option R) (T : R) (item : conformer) : result R :=
  let gi := getattr_default item "gi" (PyFloat 1) in
  fe ← getattr item "free_energy";
  mf ← match minfree with Some m => Ok m | None => Raise NameError end;
  e ← as_float fe;
  q ← py_div (- ((e - mf) * AU2J)) (KB * T);
  g ← as_float gi;
  Ok (g * exp q).

(** [for item in confs: bsum += ...]. *)
Fixpoint sum_terms (minfree : option R) (T : R) (confs : list conformer)
    (bsum : R) : result R :=
  match confs with
  | [] => Ok bsum
  | item :: confs' =>
      t ← boltzmann_term minfree T item;
      sum_terms minfree T confs' (bsum + t)
  end.

(** [for item in confs: item.bm_weight = ... / bsum]. *)
Fixpoint assign_weights (minfree : option R) (T bsum : R)
    (confs : list conformer) : result (list conformer) :=
  match confs with
  | [] => Ok []
  | item :: confs' =>
      t ← boltzmann_term minfree T item;
      w ← py_div t bsum;
      rest ← assign_weights minfree T bsum confs';
      Ok (<["bm_weight" := PyFloat w]> item :: rest)
  end.

Definition msg_temperature : string :=
  "Temperature can not be converted and is therfore set to T = 298.15 K.".
Definition msg_no_weight : string :=
  "ERROR: Boltzmann weight can not be calculated!".

(** [calc_boltzmannweights(confs, property, T)].  [T] is [None] for a
    value that [float] rejects with [ValueError]. *)
Definition calc_boltzmannweights (confs : list conformer) (property : string)
    (T : option R) : list string * result (list conformer) :=
  match confs with
  | [c] => ([], Ok [<["bm_weight" := PyFloat 1]> c])
  | _ =>
      let '(T, msgs1) :=
        match T with
        | Some t => (t, [])
        | None => (298.15, [msg_temperature])
        end in
      let T := if Req_dec_T T 0 then T + 0.00001 else T in
      let minfree := py_min (set_values confs property) in
      let msgs2 :=
        match minfree with Some _ => [] | None => [msg_no_weight] end in
      (msgs1 ++ msgs2,
       bsum ← sum_terms minfree T confs 0;
       assign_weights minfree T bsum confs)
  end.

(** The weights as the specification gives them: every energy,
    [E_i] as well as [E_min], is the value of the chosen property. *)
Definition spec_energy (property : string) (c : conformer) : R :=
  match c !! property with
  | Some (PyFloat e) => e
  | _ => 0
  end.
Definition spec_gi (c : conformer) : R :=
  match c !! "gi" with
  | Some (PyFloat g) => g
  | _ => 1
  end.
Definition spec_term (property : string) (Emin T : R) (c : conformer) : R :=
  spec_gi c * exp (- ((spec_energy property c - Emin) * AU2J) / (KB * T)).
Definition spec_weights (confs : list conformer) (property : string)
    (T : R) : list R :=
  let Emin := default 0 (py_min (set_values confs property)) in
  let total := Rsum (map (spec_term property Emin T) confs) in
  map (fun c => spec_term property Emin T c / total) confs.
End constants.

(** The temperature the loops use: 298.15 K for an unconvertible
    argument, and a small positive value instead of zero. *)
Definition effective_T (T : option R) : R :=
  let t := default 298.15 T in
  if Req_dec_T t 0 then t + 0.00001 else t.

(** No degeneracy factor is negative. *)
Definition gi_nonneg (c : conformer) : Prop :=
  ∀ g, c !! "gi" = Some (PyFloat g) → 0 <= g.

(** The weight stored on a conformer. *)
Definition bm_weight (c : conformer) : option R :=
  match c !! "bm_weight" with
  | Some (PyFloat w) => Some w
  | _ => None
  end.

(** Modelled from the spec: the constants [AU2J] (hartree to joule) and
    [KB] (Boltzmann constant, J/K) of [cfg.py], which is not among the
    sources; the specification names them without giving values, so the
    SI values are taken.  The functions above take the constants as
    parameters; these values only serve to evaluate them on concrete
    inputs, and the evaluations below only use that both are positive. *)
Definition AU2J_value : R := 4.3597482e-18.
Definition KB_value : R := 1.3806485279e-23.

(** Conformers for concrete evaluations: a free energy of -10.5
    together with an [xtb_energy], and a free energy of 0.0 together
    with a degeneracy factor. *)
Definition conf_xtb (xtb : R) : conformer :=
  <["free_energy" := PyFloat (-10.5)]> (<["xtb_energy" := PyFloat xtb]> ∅).
Definition conf_gi (g : R) : conformer :=
  <["free_energy" := PyFloat 0]> (<["gi" := PyFloat g]> ∅).

End Boltzmann.

(** ** Python strings *)

(** [needle in hay]: [needle] occurs in [hay] as a contiguous substring. *)
Fixpoint str_in (needle hay : string) : bool :=
  String.prefix needle hay
  || match hay with
     | EmptyString => false
     | String _ hay' => str_in needle hay'
     end.

(** [s.rsplit(".", 1)]: split once, at the last dot. *)
Fixpoint rsplit_dot (s : string) : option (string * string) :=
  match s with
  | EmptyString => None
  | String c s' =>
      match rsplit_dot s' with
      | Some (a, b) => Some (String c a, b)
      | None => if Ascii.eqb c "."%char then Some (EmptyString, s') else None
      end
  end.

Definition rsplit1 (s : string) : list string :=
  match rsplit_dot s with
  | Some (a, b) => [a; b]
  | None => [s]
  end.

(** Strings are sequences of characters with code points 0 to 255, one
    [ascii] each. *)

(** [int(s)]: whitespace at both ends is skipped, then comes an
    optional sign, then decimal digits, with single underscores allowed
    between digits; every other string raises [ValueError].  The
    whitespace that [int] skips is tab, line feed, vertical tab, form
    feed, carriage return, space, and the code points 0x85 and 0xA0. *)
Definition is_int_space (c : ascii) : bool :=
  let n := nat_of_ascii c in
  (Nat.leb 9 n && Nat.leb n 13) || Nat.eqb n 32 || Nat.eqb n 133 || Nat.eqb n 160.

Fixpoint all_int_space (s : string) : bool :=
  match s with
  | EmptyString => true
  | String c s' => is_int_space c && all_int_space s'
  end.

Fixpoint lstrip_int_space (s : string) : string :=
  match s with
  | EmptyString => EmptyString
  | String c s' => if is_int_space c then lstrip_int_space s' else s
  end.

Definition digit_of (c : ascii) : option Z :=
  let n := Z.of_nat (nat_of_ascii c) in
  if (48 <=? n)%Z && (n <=? 57)%Z then Some (n - 48)%Z else None.

(** The rest of a numeral, after a digit: more digits, an underscore
    followed by a digit, or whitespace up to the end. *)
Fixpoint parse_digits (s : string) (acc : Z) : option Z :=
  match s with
  | EmptyString => Some acc
  | String c s' =>
      match digit_of c with
      | Some d => parse_digits s' (10 * acc + d)%Z
      | None =>
          if Ascii.eqb c "_"%char then
            match s' with
            | EmptyString => None
            | String c' s'' =>
                match digit_of c' with
                | Some d => parse_digits s'' (10 * acc + d)%Z
                | None => None
                end
            end
          else if all_int_space s then Some acc
          else None
      end
  end.

(** A numeral starts with a digit. *)
Definition parse_numeral (s : string) : option Z :=
  match s with
  | EmptyString => None
  | String c s' =>
      match digit_of c with
      | Some d => parse_digits s' d
      | None => None
      end
  end.

Definition py_int (s : string) : result Z :=
  let signed :=
    match lstrip_int_space s with
    | String "-"%char ds => Z.opp <$> parse_numeral ds
    | String "+"%char ds => parse_numeral ds
    | ds => parse_numeral ds
    end in
  match signed with
  | Some n => Ok n
  | None => Raise ValueError
  end.

(** ** PerConformerStore: [splitting], [move_recursively] *)

Module Backup.

(** [splitting(item)]: the sort key. *)
Definition splitting (item : string) : result Z :=
  suffix ← py_getitem (rsplit1 item) 1;
  match py_int suffix with
  | Ok n => Ok n
  | Raise ValueError => Ok 0%Z
  | Raise e => Raise e
  end.

(** The regular files of the directory [path], by name. *)
Abbreviation directory := (gmap string string).

(** One [shutil.move]: source, target, and whether the target existed. *)
Record move_event := {
  mv_from : string;
  mv_to : string;
  mv_overwrites : bool;
}.

Record fs_state := {
  dir : directory;
  moves : list move_event;
  printed : list string;
}.

(** [shutil.move(os.path.join(path, src), os.path.join(path, dst))] for
    regular files: a rename, which replaces an existing target. *)
Definition shutil_move (src dst : string) (st : fs_state) : result fs_state :=
  match dir st !! src with
  | None => Raise OSError
  | Some data =>
      Ok {| dir := <[dst := data]> (delete src (dir st));
            moves := moves st ++ [{| mv_from := src; mv_to := dst;
                                     mv_overwrites := bool_decide (is_Some (dir st !! dst)) |}];
            printed := printed st |}
  end.

(** [for item in newfiles: ...]. *)
Fixpoint move_numbered (newfiles : list string) (st : fs_state) : result fs_state :=
  match newfiles with
  | [] => Ok st
  | item :: newfiles' =>
      let data := rsplit1 item in
      suffix ← py_getitem data 1;
      match py_int suffix with
      | Raise ValueError => move_numbered newfiles' st
      | Raise e => Raise e
      | Ok n =>
          stem ← py_getitem data 0;
          st' ← shutil_move item (stem +:+ "." +:+ pretty (n + 1)%Z) st;
          move_numbered newfiles' st'
      end
  end.

Definition key_of (item : string) : Z :=
  match splitting item with
  | Ok n => n
  | Raise _ => 0%Z
  end.

(** [move_recursively(path, filename)].  [files] is the listing of the
    regular files of [path] in the order [os.listdir] returns them. *)
Definition move_recursively (files : list string) (filename : string)
    (d : directory) : result fs_state :=
  let newfiles :=
    filter (fun item => str_in (filename +:+ ".") item = true) files in
  _ ← mapM splitting newfiles;
  let newfiles := sorted Z.ltb key_of true newfiles in
  st ← move_numbered newfiles {| dir := d; moves := []; printed := [] |};
  if decide (filename ∈ files) then
    shutil_move filename (filename +:+ ".1")
      {| dir := dir st; moves := moves st;
         printed := printed st ++ ["Backing up " +:+ filename +:+ " to "
                                   +:+ filename +:+ ".1" +:+ "."] |}
  else Ok st.

End Backup.

(** [s.split()]: the maximal runs of non-whitespace characters.  The
    whitespace of [str.split] and [str.strip] among the code points 0 to
    255: 9 to 13, 28 to 31, space, 0x85 and 0xA0. *)
Definition is_space (c : ascii) : bool :=
  let n := nat_of_ascii c in
  Nat.eqb n 32 || (Nat.leb 9 n && Nat.leb n 13) || (Nat.leb 28 n && Nat.leb n 31)
  || Nat.eqb n 133 || Nat.eqb n 160.

Fixpoint py_split_go (s : string) (cur : option string) : list string :=
  match s with
  | EmptyString =>
      match cur with
      | Some w => [w]
      | None => []
      end
  | String c s' =>
      if is_space c then
        match cur with
        | Some w => w :: py_split_go s' None
        | None => py_split_go s' None
        end
      else py_split_go s' (Some (default EmptyString cur +:+ String c EmptyString))
  end.

Definition py_split (s : string) : list string := py_split_go s None.

(** [s[1:]]. *)
Definition drop_first_char (s : string) : string :=
  match s with
  | EmptyString => EmptyString
  | String _ s' => s'
  end.

Definition newline : string := String (ascii_of_nat 10) EmptyString.

(** [l.index(x)]: the first position holding [x]. *)
Fixpoint py_index {A} `{EqDecision A} (l : list A) (x : A) : result nat :=
  match l with
  | [] => Raise ValueError
  | y :: l' => if decide (y = x) then Ok 0%nat else S <$> py_index l' x
  end.

(** ** Paths: [os.path] on POSIX, [last_folders], [check_for_folder] *)

Module Paths.

Definition sep : ascii := "/"%char.

(** [p[:i]] and [p[i:]] for [i = p.rfind("/") + 1]. *)
Fixpoint cut_last_sep (p : string) : string * string :=
  match p with
  | EmptyString => (EmptyString, EmptyString)
  | String c p' =>
      let '(head, tail) := cut_last_sep p' in
      match head with
      | String _ _ => (String c head, tail)
      | EmptyString =>
          if Ascii.eqb c sep then (String c EmptyString, tail)
          else (EmptyString, String c tail)
      end
  end.

(** [s.rstrip("/")]. *)
Fixpoint rstrip_sep (s : string) : string :=
  match s with
  | EmptyString => EmptyString
  | String c s' =>
      match rstrip_sep s' with
      | EmptyString => if Ascii.eqb c sep then EmptyString else String c EmptyString
      | String c' r => String c (String c' r)
      end
  end.

(** [s == "/" * len(s)]. *)
Fixpoint all_sep (s : string) : bool :=
  match s with
  | EmptyString => true
  | String c s' => Ascii.eqb c sep && all_sep s'
  end.

Definition is_empty (s : string) : bool :=
  match s with
  | EmptyString => true
  | String _ _ => false
  end.

(** [os.path.split(p)]; [os.path.dirname] and [os.path.basename] are its
    two components. *)
Definition os_path_split (p : string) : string * string :=
  let '(head, tail) := cut_last_sep p in
  let head :=
    if negb (is_empty head) && negb (all_sep head) then rstrip_sep head
    else head in
  (head, tail).

Definition basename (p : string) : string := (os_path_split p).2.
Definition dirname (p : string) : string := (os_path_split p).1.

Definition starts_with_sep (s : string) : bool :=
  match s with
  | EmptyString => false
  | String c _ => Ascii.eqb c sep
  end.

Fixpoint ends_with_sep (s : string) : bool :=
  match s with
  | EmptyString => false
  | String c EmptyString => Ascii.eqb c sep
  | String _ s' => ends_with_sep s'
  end.

(** [os.path.join(a, *p)]. *)
Definition join_step (path b : string) : string :=
  if starts_with_sep b then b
  else if is_empty path || ends_with_sep path then path +:+ b
  else path +:+ "/" +:+ b.

Definition os_path_join (a : string) (p : list string) : string :=
  fold_left join_step p a.

(** [last_folders(path, number)].  After the first statement [number]
    is 1, 2 or 3, so exactly one of the three [if] statements assigns
    [folder]. *)
Definition last_folders (path : string) (number : Z) : string :=
  let number := if bool_decide (number ∈ [1; 2; 3]%Z) then number else 1%Z in
  if (number =? 1)%Z then basename path
  else if (number =? 2)%Z then
    os_path_join (basename (dirname path)) [basename path]
  else
    let basename_ := basename path in
    let dirname_ := basename (dirname path) in
    let predirname := basename (os_path_split (os_path_split path).1).1 in
    os_path_join predirname [dirname_; basename_].

(** A name without a separator. *)
Fixpoint no_sep (s : string) : bool :=
  match s with
  | EmptyString => true
  | String c s' => negb (Ascii.eqb c sep) && no_sep s'
  end.

(** The state of the loop of [check_for_folder]. *)
Record check_state := {
  cf_printed : list string;
  error_logical : bool;
}.

Definition msg_missing (tmp_dir : string) : string :=
  "ERROR: directory of " +:+ last_folders tmp_dir 2
  +:+ " does not exist, although it was calculated before!".

(** [check_for_folder(path, conflist, foldername, debug)] on the
    directories that exist; [conflist] holds conformer ids. *)
Definition check_for_folder (path : string) (conflist : list nat)
    (foldername : string) (debug : bool) (ds : gset string)
    : list string * bool :=
  let st :=
    fold_left
      (fun st i =>
         let tmp_dir :=
           os_path_join path ["CONF" +:+ pretty i; foldername] in
         if decide (tmp_dir ∈ ds) then st
         else {| cf_printed := cf_printed st ++ [msg_missing tmp_dir];
                 error_logical := true |})
      conflist {| cf_printed := []; error_logical := false |} in
  (cf_printed st
   ++ (if error_logical st && negb debug
       then ["One or multiple directories are missing." +:+ newline]
       else []),
   error_logical st).

End Paths.

(** ** PerConformerStore and DuplicateDetector: [mkdir_p], [new_folders],
    [crest_routine] *)

Module Conformers.

(** Conformer objects are shared between the lists, so the lists hold
    references; [loc] is the identity of an object and the heap gives
    its attributes.  Objects compare by identity ([list.index]). *)
Abbreviation loc := nat.

Record conformer := {
  id : nat;
  energy : Q;            (* optimization_info["energy"] *)
  info : string;         (* optimization_info["info"] *)
  cregen_sort : string;  (* optimization_info["cregen_sort"] *)
}.

Record state := {
  heap : loc → conformer;
  conformers : list loc;
  prev_calculated : list loc;
  store_confs : list loc;
  save_errors : list string;
  dirs : gset string;    (* the directories that exist *)
}.

Definition tag_of (c : conformer) : string := "CONF" +:+ pretty (id c).

(** *** Folders *)

(** Two names with one separator between them. *)
Definition join (a b : string) : string := a +:+ "/" +:+ b.

(** [os.makedirs(path)]: fails when the directory exists, or when the
    file system refuses to create it. *)
Definition makedirs (refuses : string → bool) (path : string)
    (ds : gset string) : result (gset string) :=
  if decide (path ∈ ds) then Raise OSError
  else if refuses path then Raise OSError
  else Ok ({[path]} ∪ ds).

(** [mkdir_p(path)]. *)
Definition mkdir_p (refuses : string → bool) (path : string)
    (ds : gset string) : result (gset string) :=
  match makedirs refuses path ds with
  | Ok ds' => Ok ds'
  | Raise e => if decide (path ∈ ds) then Ok ds else Raise e
  end.

(** The state of the loop of [new_folders]. *)
Record folders_state := {
  conflist : list loc;
  nf_store_confs : list loc;
  nf_save_errors : list string;
  nf_dirs : gset string;
  nf_printed : list string;
}.

(** The body of [for conf in conflist]. *)
Definition new_folders_body (refuses : string → bool) (h : loc → conformer)
    (cwd foldername : string) (conf : loc) (st : folders_state)
    : result folders_state :=
  let tmp_dir := Paths.os_path_join cwd [tag_of (h conf); foldername] in
  match mkdir_p refuses tmp_dir (nf_dirs st) with
  | Ok ds =>
      Ok {| conflist := conflist st; nf_store_confs := nf_store_confs st;
            nf_save_errors := nf_save_errors st; nf_dirs := ds;
            nf_printed := nf_printed st |}
  | Raise e =>
      if decide (tmp_dir ∈ nf_dirs st) then
        Ok {| conflist := conflist st; nf_store_confs := nf_store_confs st;
              nf_save_errors := nf_save_errors st; nf_dirs := nf_dirs st;
              nf_printed := nf_printed st ++ ["OSError"] |}
      else
        k ← py_index (conflist st) conf;
        popped ← py_getitem (conflist st) k;
        Ok {| conflist := delete k (conflist st);
              nf_store_confs := nf_store_confs st ++ [popped];
              nf_save_errors :=
                nf_save_errors st
                ++ [tag_of (h conf) +:+ " was removed, because IO failed!"];
              nf_dirs := nf_dirs st;
              nf_printed :=
                nf_printed st
                ++ ["OSError";
                    "ERROR: Could not create folder for " +:+ tag_of (h conf) +:+ "!";
                    tag_of (h conf) +:+ " is removed, because IO failed!"] |}
  end.

(** [for conf in conflist]: the list iterator keeps a position [i] and
    reads the list as it is at each step, so a [pop] inside the body is
    seen by the iteration.  [None] when the fuel runs out. *)
Fixpoint new_folders_loop (fuel : nat) (refuses : string → bool)
    (h : loc → conformer) (cwd foldername : string) (i : nat)
    (st : folders_state) : option (result folders_state) :=
  match conflist st !! i with
  | None => Some (Ok st)
  | Some conf =>
      match fuel with
      | O => None
      | S fuel' =>
          match new_folders_body refuses h cwd foldername conf st with
          | Ok st' => new_folders_loop fuel' refuses h cwd foldername (S i) st'
          | Raise e => Some (Raise e)
          end
      end
  end.

(** [new_folders(cwd, conflist, foldername, save_errors, store_confs,
    silent)] on the active list of the state. *)
Definition new_folders (refuses : string → bool) (cwd foldername : string)
    (silent : bool) (st : state) : option (result (list string * state)) :=
  let st0 := {| conflist := conformers st; nf_store_confs := store_confs st;
                nf_save_errors := save_errors st; nf_dirs := dirs st;
                nf_printed := [] |} in
  r ← new_folders_loop (length (conformers st)) refuses (heap st)
                       cwd foldername 0 st0;
  Some (st' ← r;
        Ok (nf_printed st' ++ (if silent then [] else ["Constructed folders!"]),
            {| heap := heap st; conformers := conflist st';
               prev_calculated := prev_calculated st;
               store_confs := nf_store_confs st';
               save_errors := nf_save_errors st'; dirs := nf_dirs st' |})).

(** *** Duplicate detection *)

(** The scratch directory is taken to be ready (the [mkdir_p] and
    [os.remove] calls at the start of [crest_routine] are not modelled),
    and both trajectory loops read the same folders, so [t2x] is a
    function of the conformer id.

    What [crest_routine] finds outside the program: the result of [t2x]
    on the folder of a conformer (by id), whether the seed [coord] file
    can be copied, whether the tool can be started, and the lines of
    [enso.tags] ([None] when the file cannot be opened). *)
Record world := {
  w_t2x : nat → result (list string * nat);
  w_copy_ok : bool;
  w_launch_ok : bool;
  w_tags : option (list string);
  w_crestcheck : bool;   (* config.crestcheck *)
}.

Section format.
(** ["{:20.8f}".format(energy)]. *)
Variable format_20_8f : Q → string.

(** The lines written for one candidate: the number of atoms, the
    energy with the tag, and the coordinates. *)
Definition block_of (conf_xyz : list string) (nat : nat) (c : conformer)
    : list string :=
  ["  " +:+ pretty nat +:+ newline;
   format_20_8f (energy c) +:+ "        !" +:+ tag_of c +:+ newline]
  ++ map (fun line => line +:+ newline) conf_xyz.

(** One [for conf in allconfs] loop over the open file: what the file
    holds afterwards, and whether [t2x] raised. *)
Fixpoint write_pass (w : world) (allconfs : list conformer)
    (out : list string) : list string * result unit :=
  match allconfs with
  | [] => (out, Ok tt)
  | conf :: allconfs' =>
      match w_t2x w (id conf) with
      | Ok (conf_xyz, nat) =>
          write_pass w allconfs' (out ++ block_of conf_xyz nat conf)
      | Raise e => (out, Raise e)
      end
  end.

(** The block of a candidate whose folder [t2x] can read. *)
Definition candidate_block (w : world) (c : conformer) : list string :=
  match w_t2x w (id c) with
  | Ok (conf_xyz, nat) => block_of conf_xyz nat c
  | Raise _ => []
  end.

Definition msg_checking : string :=
  "Checking for identical structures in ensemble with CREGEN!".
Definition msg_no_tags : string :=
  "ERROR: output file (enso.tags) of CREST routine does not exist!".
Definition msg_removing (c : conformer) : string :=
  "!!!! Removing " +:+ tag_of c +:+ " because it is sorted out by CREGEN.".

(** [keep.append(line.split()[1][1:])] for every line. *)
Fixpoint read_keep (store : list string) (keep : list string)
    : list string * result unit :=
  match store with
  | [] => (keep, Ok tt)
  | line :: store' =>
      match py_getitem (py_split line) 1 with
      | Ok token => read_keep store' (keep ++ [drop_first_char token])
      | Raise e => (keep, Raise e)
      end
  end.

(** The two source lists of the removal step. *)
Inductive source := Active | Previous.

Definition source_list (src : source) (st : state) : list loc :=
  match src with
  | Active => conformers st
  | Previous => prev_calculated st
  end.

Definition set_source_list (src : source) (l : list loc) (st : state) : state :=
  match src with
  | Active =>
      {| heap := heap st; conformers := l;
         prev_calculated := prev_calculated st;
         store_confs := store_confs st; save_errors := save_errors st;
         dirs := dirs st |}
  | Previous =>
      {| heap := heap st; conformers := conformers st;
         prev_calculated := l;
         store_confs := store_confs st; save_errors := save_errors st;
         dirs := dirs st |}
  end.

(** [conf.optimization_info["info"] = "calculated"] and
    [conf.optimization_info["cregen_sort"] = "removed"]. *)
Definition mark_removed (conf : loc) (st : state) : state :=
  let c := heap st conf in
  {| heap := <[conf := {| id := id c; energy := energy c;
                          info := "calculated"; cregen_sort := "removed" |}]>
               (heap st);
     conformers := conformers st; prev_calculated := prev_calculated st;
     store_confs := store_confs st; save_errors := save_errors st;
     dirs := dirs st |}.

Definition append_store (conf : loc) (st : state) : state :=
  {| heap := heap st; conformers := conformers st;
     prev_calculated := prev_calculated st;
     store_confs := store_confs st ++ [conf];
     save_errors := save_errors st; dirs := dirs st |}.

(** [for conf in list(source): if tag not in keep: ...] over the
    snapshot taken before the loop.  An exception ends the loop and
    leaves the lists as they are at that point. *)
Fixpoint remove_loop (src : source) (keep : list string)
    (snapshot : list loc) (st : state) (printed : list string)
    : state * list string * result unit :=
  match snapshot with
  | [] => (st, printed, Ok tt)
  | conf :: snapshot' =>
      if decide (tag_of (heap st conf) ∈ keep) then
        remove_loop src keep snapshot' st printed
      else
        let st1 := mark_removed conf st in
        let printed1 := printed ++ [msg_removing (heap st1 conf)] in
        match py_index (source_list src st1) conf with
        | Raise e => (st1, printed1, Raise e)
        | Ok k =>
            match py_getitem (source_list src st1) k with
            | Raise e => (st1, printed1, Raise e)
            | Ok popped =>
                remove_loop src keep snapshot'
                  (append_store popped
                     (set_source_list src (delete k (source_list src st1)) st1))
                  printed1
            end
        end
  end.

(** The body of [if config.crestcheck: try: ... except ...]. *)
Definition removal_step (w : world) (st : state) (printed : list string)
    : state * list string :=
  match w_tags w with
  | None => (st, printed ++ ["ERROR: NameError"])
  | Some store =>
      match read_keep store [] with
      | (_, Raise e) => (st, printed ++ ["ERROR: exception"])
      | (keep, Ok _) =>
          match remove_loop Active keep (conformers st) st printed with
          | (st1, printed1, Raise e) => (st1, printed1 ++ ["ERROR: exception"])
          | (st1, printed1, Ok _) =>
              match remove_loop Previous keep (prev_calculated st1) st1 printed1 with
              | (st2, printed2, Raise e) => (st2, printed2 ++ ["ERROR: exception"])
              | (st2, printed2, Ok _) => (st2, printed2)
              end
          end
      end
  end.

(** [allconfs]: copies of the candidates of both lists, sorted by the
    energy of the optimisation. *)
Definition merged_candidates (st : state) : list conformer :=
  sorted RankCorrelation.Qltb energy false
         (map (heap st) (conformers st ++ prev_calculated st)).

(** [crest_routine(config, conformers, func, store_confs,
    prev_calculated)]: the printed lines, the lines written to
    [conformers.xyz], and either the exception that ends the call or
    the state that is returned. *)
Definition crest_routine (w : world) (st : state)
    : list string * list string * result state :=
  let printed := [msg_checking] in
  let allconfs := merged_candidates st in
  let printed :=
    if w_copy_ok w && negb (bool_decide (allconfs = []))
    then printed else printed ++ ["ERROR: exception"] in
  match write_pass w allconfs [] with
  | (out1, Raise e) => (printed, out1, Raise e)
  | (out1, Ok _) =>
      match write_pass w allconfs out1 with
      | (xyz, Raise e) => (printed, xyz, Raise e)
      | (xyz, Ok _) =>
          if negb (w_launch_ok w) then (printed, xyz, Raise OSError)
          else
            let printed :=
              match w_tags w with
              | Some _ => printed
              | None => printed ++ ["ERROR: OSError"; msg_no_tags]
              end in
            if w_crestcheck w then
              let '(st', printed') := removal_step w st printed in
              (printed', xyz, Ok st')
            else (printed, xyz, Ok st)
      end
  end.

(** The state after the call, whether it returned or raised. *)
Definition after_crest (w : world) (st : state) : state :=
  match crest_routine w st with
  | (_, _, Ok st') => st'
  | (_, _, Raise _) => st
  end.
End format.

(** *** Sequences of operations *)

Inductive operation :=
  | OpCrest (w : world)
  | OpNewFolders (refuses : string → bool) (cwd foldername : string)
                 (silent : bool).

(** One operation of the pipeline on the lists. *)
Inductive step (format_20_8f : Q → string) : state → operation → state → Prop :=
  | step_crest w st :
      step format_20_8f st (OpCrest w) (after_crest format_20_8f w st)
  | step_new_folders refuses cwd foldername silent st printed st' :
      new_folders refuses cwd foldername silent st = Some (Ok (printed, st')) →
      step format_20_8f st (OpNewFolders refuses cwd foldername silent) st'.

Inductive run (format_20_8f : Q → string) : state → list operation → state → Prop :=
  | run_nil st : run format_20_8f st [] st
  | run_cons st op st1 ops st2 :
      step format_20_8f st op st1 →
      run format_20_8f st1 ops st2 →
      run format_20_8f st (op :: ops) st2.

(** The ids held by a list, and all conformers the state knows. *)
Definition ids_of (st : state) (l : list loc) : list nat :=
  map (fun x => id (heap st x)) l.
Definition known (st : state) : list loc :=
  conformers st ++ prev_calculated st ++ store_confs st.

(** [st'] holds the conformers of [st]: no object changed its id, and
    the three lists together hold the same references. *)
Definition preserves (st st' : state) : Prop :=
  (∀ l, id (heap st' l) = id (heap st l))
  ∧ known st' ≡ₚ known st
  ∧ (prev_calculated st = [] → prev_calculated st' = []).

(** Concrete inputs for evaluation: three conformers with ids 1, 2, 3,
    a tool run that leaves no [enso.tags], and one whose [enso.tags]
    names the conformers 1 and 3. *)
Definition example_heap (l : loc) : conformer :=
  {| id := S l; energy := inject_Z (- Z.of_nat l); info := "";
     cregen_sort := "" |}.
Definition example_state : state :=
  {| heap := example_heap; conformers := [0; 1]%nat;
     prev_calculated := [2%nat]; store_confs := [];
     save_errors := []; dirs := ∅ |}.
Definition example_world (tags : option (list string)) : world :=
  {| w_t2x := fun _ => Ok (["H  0.0000000000   0.0000000000   0.0000000000"], 1%nat);
     w_copy_ok := true; w_launch_ok := true; w_tags := tags;
     w_crestcheck := true |}.
Definition example_tags : list string := ["1 !CONF1 x"; "2 !CONF3 y"].
Definition example_format (e : Q) : string := "energy".

End Conformers.

(** * Further functions of the module *)

(** ** Statistics: [isclose], [calc_std_dev], [calc_weighted_std_dev] *)

(** Numbers are real numbers here: rounding, the infinities, NaN and the
    [OverflowError] of [** 2] are outside the model. *)
Module Statistics.
Local Open Scope R_scope.

(** [math.sqrt] raises [ValueError] on a negative number. *)
Definition math_sqrt (x : R) : result R :=
  if Rlt_dec x 0 then Raise ValueError else Ok (sqrt x).

(** [isclose(value_a, value_b, rel_tol, abs_tol)]. *)
Definition isclose (value_a value_b rel_tol abs_tol : R) : bool :=
  if Rle_dec (Rabs (value_a - value_b))
             (Rmax (rel_tol * Rmax (Rabs value_a) (Rabs value_b)) abs_tol)
  then true else false.

(** The default arguments [rel_tol=1e-9, abs_tol=0.0]. *)
Definition default_rel_tol : R := 1e-9.
Definition default_abs_tol : R := 0.

(** [calc_std_dev(data)]. *)
Definition calc_std_dev (data : list R) : result R :=
  let n := INR (length data) in
  mean ← py_div (Rsum data) n;
  variance ← py_div (Rsum (map (fun x => (x - mean) ^ 2) data)) (n - 1);
  math_sqrt variance.

(** [[weights[i] * (data[i] - w_mean) ** 2 for i in range(n)]]. *)
Fixpoint weighted_squares (data weights : list R) (w_mean : R)
    (idxs : list nat) : result (list R) :=
  match idxs with
  | [] => Ok []
  | i :: idxs' =>
      w ← py_getitem weights i;
      d ← py_getitem data i;
      rest ← weighted_squares data weights w_mean idxs';
      Ok (w * (d - w_mean) ^ 2 :: rest)
  end.

(** The loop [for i in weights: if i != 0.0: m += 1]. *)
Definition count_nonzero (weights : list R) : nat :=
  fold_left (fun m i => if Req_dec_T i 0 then m else (m + 1)%nat) weights 0%nat.

(** [calc_weighted_std_dev(data, weights)]; the default [weights=[]] is
    the empty list.  The comprehension [[data[i] * weights[i] for i in
    range(n)]] is the one of [pearson]. *)
Definition calc_weighted_std_dev (data weights : list R) : result R :=
  let n := length data in
  if (n =? 0)%nat then Ok 0
  else
    let weights :=
      if bool_decide (weights = []) || (length weights <? n)%nat
      then replicate n 1 else weights in
    vals ← Correlation.products data weights (seq 0 n);
    w_mean ← py_div (Rsum vals) (Rsum weights);
    let m := count_nonzero weights in
    sqs ← weighted_squares data weights w_mean (seq 0 n);
    den ← py_div ((INR m - 1) * Rsum weights) (INR m);
    variance ← py_div (Rsum sqs) den;
    math_sqrt variance.

End Statistics.

(** ** Positions of a list *)

(** The elements at the positions 0, 2, 4, ... of a list, and those at
    the positions 1, 3, 5, ...; they describe what an iteration that
    loses its place after every removal visits and what it misses. *)
Fixpoint even_positions {A} (l : list A) : list A :=
  match l with
  | [] => []
  | [x] => [x]
  | x :: _ :: l' => x :: even_positions l'
  end.

Fixpoint odd_positions {A} (l : list A) : list A :=
  match l with
  | [] => []
  | [_] => []
  | _ :: y :: l' => y :: odd_positions l'
  end.

(** ** The two lists of the duplicate check *)

(** The list that a removal loop of [crest_routine] does not work on. *)
Definition other_list (src : Conformers.source) (st : Conformers.state)
    : list Conformers.loc :=
  match src with
  | Conformers.Active => Conformers.prev_calculated st
  | Conformers.Previous => Conformers.conformers st
  end.

(** ** Negative subscripts *)

(** [l[i]] for an integer [i]: a negative subscript counts from the end
    of the list. *)
Definition py_getitem_Z {A} (l : list A) (i : Z) : result A :=
  let i' := if (i <? 0)%Z then (i + Z.of_nat (length l))%Z else i in
  if (i' <? 0)%Z then Raise IndexError else py_getitem l (Z.to_nat i').

(** [s.strip()]. *)
Fixpoint py_lstrip (s : string) : string :=
  match s with
  | EmptyString => EmptyString
  | String c s' => if is_space c then py_lstrip s' else s
  end.

Fixpoint py_rstrip (s : string) : string :=
  match s with
  | EmptyString => EmptyString
  | String c s' =>
      match py_rstrip s' with
      | EmptyString => if is_space c then EmptyString else String c EmptyString
      | String c' r => String c (String c' r)
      end
  end.

Definition py_strip (s : string) : string := py_rstrip (py_lstrip s).

(** ** EnsembleEnergies: [check_for_float], [get_energy_from_ensemble] *)

Module Ensemble.
Local Open Scope R_scope.

(** The attributes of a conformer that the function reads and writes;
    [None] is Python's [None].  A conformer object is modelled by its
    attributes, a list of conformers by the list of these records: the
    list is taken to hold every object once. *)
Record conformer := {
  id : nat;
  xtb_energy : option R;
  rel_xtb_energy : option R;
}.

(** [config.maxconf], [config.nat] and [config.nconf]. *)
Record config := {
  maxconf : nat;
  cfg_nat : nat;
  nconf : nat;
}.

(** A dict with integer keys, in insertion order. *)
Abbreviation dict := (list (nat * option R)).

(** [e[k] = v]: a key that is present keeps its place. *)
Fixpoint dict_set (k : nat) (v : option R) (e : dict) : dict :=
  match e with
  | [] => [(k, v)]
  | (k', v') :: e' =>
      if (k =? k')%nat then (k, v) :: e' else (k', v') :: dict_set k v e'
  end.

(** [e.get(k)]. *)
Fixpoint dict_get (k : nat) (e : dict) : option (option R) :=
  match e with
  | [] => None
  | (k', v') :: e' => if (k =? k')%nat then Some v' else dict_get k e'
  end.

Section parse.
(** [float(element)]: [None] stands for the [ValueError]. *)
Variable float_of : string → option R.
(** [AU2KCAL] is imported from [cfg.py]. *)
Variable AU2KCAL : R.

(** The loop of [check_for_float] over the words of the line. *)
Fixpoint first_float (elements : list string) : option R :=
  match elements with
  | [] => None
  | element :: elements' =>
      match float_of element with
      | Some value => Some value
      | None => first_float elements'
      end
  end.

(** [check_for_float(line)]. *)
Definition check_for_float (line : string) : option R :=
  first_float (py_split (py_strip line)).

Definition msg_wrong_counts (c : config) : string :=
  "ERROR: Either the number of conformers (" +:+ pretty (nconf c)
  +:+ ") or the number of atoms (" +:+ pretty (cfg_nat c) +:+ ") is wrong!".
Definition msg_no_rel : string := "WARNING: Can't calculate rel_xtb_energy!".
(** What [print(e)] shows for the [TypeError] of [None - lowest]. *)
Definition msg_type_error : string :=
  "unsupported operand type(s) for -: 'NoneType' and 'float'".

(** [(conf.id - 1) * (config.nat + 2) + 1]. *)
Definition line_index (c : config) (conf_id : nat) : Z :=
  ((Z.of_nat conf_id - 1) * (Z.of_nat (cfg_nat c) + 2) + 1)%Z.

(** [check_for_float(data[(conf.id - 1) * (config.nat + 2) + 1])]. *)
Definition energy_of_line (c : config) (data : list string) (conf_id : nat)
    : result (option R) :=
  line ← py_getitem_Z data (line_index c conf_id);
  Ok (check_for_float line).

(** [for conf in conformers: e[conf.id] = ...]. *)
Fixpoint read_energies (c : config) (data : list string)
    (confs : list conformer) (e : dict) : result dict :=
  match confs with
  | [] => Ok e
  | conf :: confs' =>
      value ← energy_of_line c data (id conf);
      read_energies c data confs' (dict_set (id conf) value e)
  end.

(** [min([i for i in e.values() if i is not None])]; [None] stands for
    the [ValueError] of [min] on an empty list. *)
Definition lowest_of (e : dict) : option R :=
  Boltzmann.py_min (omap snd e).

(** The second loop.  The dict is [None] once a handler [except ... as e]
    has run: at its end Python unbinds the name [e], which is also the
    name of the dict, and the next [e[conf.id]] raises
    [UnboundLocalError], a [NameError] that the handler does not catch.
    [seen] holds the conformers the loop is through with.  Every id was
    entered into the dict by the first loop. *)
Fixpoint assign_energies (lowest : R) (confs : list conformer)
    (e : option dict) (seen : list conformer) (printed : list string)
    : list conformer * list string * result unit :=
  match confs with
  | [] => (seen, printed, Ok tt)
  | conf :: confs' =>
      match e with
      | None => (seen ++ conf :: confs', printed, Raise NameError)
      | Some d =>
          let value := default None (dict_get (id conf) d) in
          match value with
          | None =>
              assign_energies lowest confs' None
                (seen ++ [{| id := id conf; xtb_energy := None;
                             rel_xtb_energy := rel_xtb_energy conf |}])
                (printed ++ [msg_type_error])
          | Some x =>
              assign_energies lowest confs' (Some d)
                (seen ++ [{| id := id conf; xtb_energy := Some x;
                             rel_xtb_energy := Some ((x - lowest) * AU2KCAL) |}])
                printed
          end
      end
  end.

(** [get_energy_from_ensemble(path, config, conformers)] on the lines
    [data] of the file: the list [conformers] after the call (it is
    sorted in place, and its conformers are written to), the printed
    lines, and the outcome: the exception, or the returned value, which
    is [None] or the list. *)
Definition get_energy_from_ensemble (c : config) (data : list string)
    (conformers : list conformer)
    : list conformer * list string * result (option (list conformer)) :=
  let printed :=
    if (length data <? maxconf c * (cfg_nat c + 2))%nat
    then [msg_wrong_counts c] else [] in
  let conformers := sorted Nat.ltb id false conformers in
  match read_energies c data conformers [] with
  | Raise ex => (conformers, printed, Raise ex)
  | Ok e =>
      match lowest_of e with
      | None => (conformers, printed ++ [msg_no_rel], Ok None)
      | Some lowest =>
          let '(conformers', printed', r) :=
            assign_energies lowest conformers (Some e) [] printed in
          (conformers', printed', _ ← r; Ok (Some conformers'))
      end
  end.
End parse.

(** The dict holds, for the ids [ks] and for no other key, the values
    [val] that their lines give. *)
Definition dict_holds (val : nat → option R) (ks : list nat) (e : dict) : Prop :=
  (∀ k v, In (k, v) e → v = val k ∧ In k ks)
  ∧ (∀ k, In k ks → dict_get k e = Some (val k)).

(** Concrete inputs for evaluation: the lines of an ensemble file of
    three conformers with one atom each, whose second energy line is a
    parameter, and [float] on the words of this file. *)
Definition example_float_of (s : string) : option R :=
  if String.eqb s "-1.5" then Some (-1.5)
  else if String.eqb s "-2.5" then Some (-2.5)
  else if String.eqb s "0.0" then Some 0
  else if String.eqb s "1" then Some 1
  else None.
Definition example_config : config :=
  {| maxconf := 3; cfg_nat := 1; nconf := 3 |}.
Definition example_data (second : string) : list string :=
  map (fun line => line +:+ String (ascii_of_nat 10) EmptyString)
    ["  1"; "   -1.5   !CONF1"; "H 0.0 0.0 0.0";
     "  1"; second; "H 0.0 0.0 0.0";
     "  1"; "   -2.5   !CONF3"; "H 0.0 0.0 0.0"].
Definition example_conformer (i : nat) : conformer :=
  {| id := i; xtb_energy := None; rel_xtb_energy := None |}.

End Ensemble.

(** * Proofs *)

(** ** Facts about the stable sort *)

Section py_sort_facts.
Context {A K : Type} (ltb : K → K → bool) (key : A → K).

Lemma insert_stable_Permutation (x : A) (l : list A) :
  insert_stable ltb key x l ≡ₚ x :: l.
Proof.
  induction l as [|y l IH]; simpl; [done|].
  destruct (ltb (key y) (key x)); [|done].
  rewrite IH. apply perm_swap.
Qed.

Lemma stable_sort_Permutation (l : list A) : stable_sort ltb key l ≡ₚ l.
Proof.
  induction l as [|x l IH]; simpl; [done|].
  rewrite insert_stable_Permutation. by rewrite IH.
Qed.

Lemma stable_sort_length (l : list A) :
  length (stable_sort ltb key l) = length l.
Proof. apply Permutation_length, stable_sort_Permutation. Qed.

(** Sorting the elements by key and reading the keys is sorting the keys. *)
Lemma insert_stable_map_key (x : A) (l : list A) :
  map key (insert_stable ltb key x l)
  = insert_stable ltb (fun k => k) (key x) (map key l).
Proof.
  induction l as [|y l IH]; simpl; [done|].
  destruct (ltb (key y) (key x)); simpl; by rewrite ?IH.
Qed.

Lemma stable_sort_map_key (l : list A) :
  map key (stable_sort ltb key l) = stable_sort ltb (fun k => k) (map key l).
Proof.
  induction l as [|x l IH]; simpl; [done|].
  by rewrite insert_stable_map_key, IH.
Qed.

(** [x] is not after [y]: the key of [y] is not smaller. *)
Definition key_le (x y : A) : Prop := ltb (key y) (key x) = false.

Hypothesis ltb_asym : ∀ a b, ltb a b = true → ltb b a = false.
Hypothesis ltb_negtrans :
  ∀ a b c, ltb b a = false → ltb c b = false → ltb c a = false.

Lemma insert_stable_sorted (x : A) (l : list A) :
  StronglySorted key_le l → StronglySorted key_le (insert_stable ltb key x l).
Proof.
  induction 1 as [|y l Hl IH Hy]; simpl.
  - repeat constructor.
  - destruct (ltb (key y) (key x)) eqn:Hyx.
    + constructor; [done|].
      rewrite insert_stable_Permutation. constructor; [|done].
      by apply ltb_asym.
    + constructor; [by constructor|].
      constructor; [done|].
      eapply Forall_impl; [exact Hy|].
      intros z Hz. by eapply ltb_negtrans.
Qed.

Lemma stable_sort_sorted (l : list A) :
  StronglySorted key_le (stable_sort ltb key l).
Proof.
  induction l as [|x l IH]; simpl; [constructor|].
  by apply insert_stable_sorted.
Qed.
End py_sort_facts.

Section rank_correlation.
(** ** Facts about rational comparisons *)

Import RankCorrelation.

Lemma Qltb_lt (x y : Q) : Qltb x y = true ↔ (x < y)%Q.
Proof.
  unfold Qltb. rewrite negb_true_iff. split.
  - intros H. apply Qnot_le_lt. intros Hle.
    apply Qle_bool_iff in Hle. congruence.
  - intros H. destruct (Qle_bool y x) eqn:E; [|done].
    apply Qle_bool_iff in E. exfalso. by apply (Qlt_not_le x y).
Qed.

Lemma Qltb_ge (x y : Q) : Qltb y x = false ↔ (x <= y)%Q.
Proof.
  unfold Qltb. rewrite negb_false_iff. apply Qle_bool_iff.
Qed.

Lemma Qltb_asym (a b : Q) : Qltb a b = true → Qltb b a = false.
Proof. rewrite Qltb_lt, Qltb_ge. apply Qlt_le_weak. Qed.

Lemma Qltb_negtrans (a b c : Q) :
  Qltb b a = false → Qltb c b = false → Qltb c a = false.
Proof. rewrite !Qltb_ge. apply Qle_trans. Qed.

Lemma Qneb_true (x y : Q) : Qneb x y = true ↔ ¬ (x == y)%Q.
Proof.
  unfold Qneb. rewrite negb_true_iff. split.
  - intros H He. apply Qeq_bool_iff in He. congruence.
  - intros H. destruct (Qeq_bool x y) eqn:E; [|done].
    by apply Qeq_bool_iff in E.
Qed.

Lemma Qneb_false (x y : Q) : Qneb x y = false ↔ (x == y)%Q.
Proof.
  unfold Qneb. rewrite negb_false_iff. apply Qeq_bool_iff.
Qed.

(** ** Lists read by position *)

Lemma map_nth_seq {A} (d : A) (l : list A) :
  map (fun i => nth i l d) (seq 0 (length l)) = l.
Proof.
  induction l as [|x l IH]; simpl; [done|].
  f_equal. rewrite <- seq_shift, map_map. exact IH.
Qed.

Lemma StronglySorted_nth {A} (R : relation A) (d : A) (l : list A) (p q : nat) :
  StronglySorted R l → (p < q < length l)%nat → R (nth p l d) (nth q l d).
Proof.
  intros Hs. revert p q.
  induction Hs as [|x l Hl IH Hx]; intros p q [Hpq Hq]; simpl in *; [lia|].
  destruct q as [|q]; [lia|]. destruct p as [|p].
  - rewrite Forall_forall in Hx. apply Hx, list_elem_of_In, nth_In. lia.
  - apply IH. lia.
Qed.

Lemma filter_none {A} (f : A → bool) (l : list A) :
  (∀ x, In x l → f x = false) → List.filter f l = [].
Proof.
  induction l as [|x l IH]; simpl; intros H; [done|].
  rewrite (H x) by auto. apply IH. auto.
Qed.

Lemma filter_all {A} (f : A → bool) (l : list A) :
  (∀ x, In x l → f x = true) → List.filter f l = l.
Proof.
  induction l as [|x l IH]; simpl; intros H; [done|].
  rewrite (H x) by auto. f_equal. apply IH. auto.
Qed.

(** A predicate on positions that holds exactly on an interval selects the
    interval. *)
Lemma filter_seq_interval (f : nat → bool) (n s k : nat) :
  (s + k ≤ n)%nat →
  (∀ p, (p < n)%nat → f p = true ↔ (s ≤ p < s + k)%nat) →
  List.filter f (seq 0 n) = seq s k.
Proof.
  intros Hle Hf.
  replace n with (s + (k + (n - s - k)))%nat at 1 by lia.
  rewrite !seq_app, !List.filter_app. simpl.
  rewrite (filter_none f (seq 0 s)), (filter_all f (seq s k)),
    (filter_none f (seq (s + k) _)); [by rewrite app_nil_r|..].
  - intros p [Hp1 Hp2]%in_seq. destruct (f p) eqn:E; [|done].
    apply Hf in E; lia.
  - intros p [Hp1 Hp2]%in_seq. apply Hf; lia.
  - intros p [Hp1 Hp2]%in_seq. destruct (f p) eqn:E; [|done].
    apply Hf in E; lia.
Qed.

Lemma sum_nat_app (l1 l2 : list nat) :
  sum_nat (l1 ++ l2) = (sum_nat l1 + sum_nat l2)%nat.
Proof. induction l1; simpl; lia. Qed.

Lemma sum_nat_seq_snoc (s k : nat) :
  sum_nat (seq s (S k)) = (sum_nat (seq s k) + (s + k))%nat.
Proof. rewrite seq_S, sum_nat_app. simpl. lia. Qed.

Lemma sum_nat_seq_shift (s k : nat) :
  sum_nat (seq (S s) k) = (sum_nat (seq s k) + k)%nat.
Proof.
  revert s. induction k as [|k IH]; intros s; simpl; [done|].
  rewrite IH. lia.
Qed.

Lemma sum_nat_seq_1 (n : nat) : (2 * sum_nat (seq 1 n) = n * (n + 1))%nat.
Proof.
  induction n as [|n IH]; [done|].
  rewrite sum_nat_seq_snoc. lia.
Qed.

(** ** The index vector of [rank_simple] *)

Lemma rank_simple_Permutation (a : list Q) :
  rank_simple a ≡ₚ seq 0 (length a).
Proof. apply stable_sort_Permutation. Qed.

Lemma rank_simple_length (a : list Q) : length (rank_simple a) = length a.
Proof. by rewrite rank_simple_Permutation, length_seq. Qed.

Lemma rank_simple_NoDup (a : list Q) : NoDup (rank_simple a).
Proof. rewrite rank_simple_Permutation. apply NoDup_seq. Qed.

Lemma rank_simple_bound (a : list Q) (p : nat) :
  (p < length a)%nat → (nth p (rank_simple a) 0%nat < length a)%nat.
Proof.
  intros Hp.
  assert (Hin : nth p (rank_simple a) 0%nat ∈ rank_simple a).
  { apply list_elem_of_In, nth_In. by rewrite rank_simple_length. }
  eapply elem_of_Permutation_proper in Hin; [|symmetry; apply rank_simple_Permutation].
  apply elem_of_seq in Hin. lia.
Qed.

(** The values read through the index vector are the sorted values. *)
Lemma svec_sorted_values (a : list Q) :
  map (getitem a) (rank_simple a) = sorted_values a.
Proof.
  unfold rank_simple, sorted, sorted_values.
  rewrite stable_sort_map_key. f_equal. apply map_nth_seq.
Qed.

Lemma sorted_values_Permutation (a : list Q) : sorted_values a ≡ₚ a.
Proof. apply stable_sort_Permutation. Qed.

Lemma sorted_values_length (a : list Q) : length (sorted_values a) = length a.
Proof. apply stable_sort_length. Qed.

Lemma sorted_values_sorted (a : list Q) : StronglySorted Qle (sorted_values a).
Proof.
  pose proof (stable_sort_sorted Qltb (fun x : Q => x) Qltb_asym Qltb_negtrans a) as H.
  unfold sorted_values, sorted.
  induction H as [|x l Hl IH Hx]; constructor; [done|].
  eapply Forall_impl; [exact Hx|]. intros y Hy. by apply Qltb_ge.
Qed.

Lemma sorted_values_le (a : list Q) (p q : nat) :
  (p ≤ q < length a)%nat →
  (getitem (sorted_values a) p <= getitem (sorted_values a) q)%Q.
Proof.
  intros [Hpq Hq]. destruct (decide (p = q)) as [->|Hne]; [apply Qle_refl|].
  unfold getitem. apply StronglySorted_nth; [apply sorted_values_sorted|].
  rewrite sorted_values_length. lia.
Qed.

(** ** Sums of rationals *)

Lemma Qsum_app (l1 l2 : list Q) : (Qsum (l1 ++ l2) == Qsum l1 + Qsum l2)%Q.
Proof.
  induction l1 as [|x l1 IH]; simpl; [ring|]. rewrite IH. ring.
Qed.

Lemma Qsum_const {A} (r : Q) (l : list A) :
  (Qsum (map (fun _ => r) l) == inject_Z (Z.of_nat (length l)) * r)%Q.
Proof.
  induction l as [|x l IH]; [simpl; ring|].
  cbn [map Qsum fold_right length]. fold (Qsum (map (fun _ => r) l)).
  rewrite IH, Nat2Z.inj_succ. unfold Z.succ. rewrite inject_Z_plus. ring.
Qed.

Lemma Qsum_Permutation (l1 l2 : list Q) : l1 ≡ₚ l2 → (Qsum l1 == Qsum l2)%Q.
Proof.
  induction 1 as [|x l1 l2 _ IH|x y l|l1 l2 l3 _ IH1 _ IH2]; simpl.
  - reflexivity.
  - by rewrite IH.
  - ring.
  - by rewrite IH1.
Qed.

Lemma inject_nat_plus (x y : nat) :
  (inject_Z (Z.of_nat (x + y)) == inject_Z (Z.of_nat x) + inject_Z (Z.of_nat y))%Q.
Proof. by rewrite Nat2Z.inj_add, inject_Z_plus. Qed.

Lemma inject_nat_nonzero (d : nat) : (0 < d)%nat → ¬ (inject_Z (Z.of_nat d) == 0)%Q.
Proof.
  intros Hd He. assert (Z.of_nat d = 0%Z); [|lia].
  by apply (inject_Z_injective (Z.of_nat d) 0).
Qed.

(** The rank written for a closed tie group is the average of its 1-based
    positions. *)
Lemma averank_of_run (s k : nat) :
  (0 < k)%nat →
  (averank_of (sum_nat (seq s k)) k
   == inject_Z (Z.of_nat (sum_nat (seq (s + 1) k))) / inject_Z (Z.of_nat k))%Q.
Proof.
  intros Hk. unfold averank_of.
  rewrite Nat.add_1_r, sum_nat_seq_shift, inject_nat_plus.
  field. by apply inject_nat_nonzero.
Qed.

(** ** Writing one rank into several slots *)

Lemma nth_insert_ne {A} (l : list A) (i j : nat) (v d : A) :
  i ≠ j → nth j (<[i:=v]> l) d = nth j l d.
Proof. intros H. by rewrite !nth_lookup, list_lookup_insert_ne. Qed.

Lemma nth_insert_eq {A} (l : list A) (i : nat) (v d : A) :
  (i < length l)%nat → nth i (<[i:=v]> l) d = v.
Proof. intros H. by rewrite nth_lookup, list_lookup_insert_eq. Qed.

Lemma write_slots_length ivec r js arr :
  length (write_slots ivec r js arr) = length arr.
Proof.
  revert arr. induction js as [|j js IH]; intros arr; simpl; [done|].
  by rewrite IH, length_insert.
Qed.

Lemma write_slots_snoc ivec r js j arr :
  write_slots ivec r (js ++ [j]) arr
  = <[nth j ivec 0%nat := r]> (write_slots ivec r js arr).
Proof. unfold write_slots. by rewrite fold_left_app. Qed.

Lemma write_slots_miss ivec r js arr x :
  (∀ j, In j js → nth j ivec 0%nat ≠ x) →
  nth x (write_slots ivec r js arr) 0%Q = nth x arr 0%Q.
Proof.
  induction js as [|j js IH] using rev_ind; intros H; [done|].
  rewrite write_slots_snoc, nth_insert_ne.
  - apply IH. intros j' Hj'. apply H, in_or_app. by left.
  - apply H, in_or_app. right. by left.
Qed.

Lemma write_slots_hit ivec r js arr j :
  In j js → (nth j ivec 0 < length arr)%nat →
  nth (nth j ivec 0%nat) (write_slots ivec r js arr) 0%Q = r.
Proof.
  induction js as [|j' js IH] using rev_ind; intros Hin Hlt; [done|].
  rewrite write_slots_snoc.
  destruct (decide (nth j' ivec 0%nat = nth j ivec 0%nat)) as [Heq|Hne].
  - rewrite Heq, nth_insert_eq; [done|]. by rewrite write_slots_length.
  - rewrite nth_insert_ne by done.
    apply IH; [|done]. apply in_app_or in Hin as [?|[->|[]]]; [done|congruence].
Qed.

(** ** The loop of [rankdata] *)

Section rankdata_loop.
Variable a : list Q.

Local Abbreviation n := (length a).
Local Abbreviation ivec := (rank_simple a).
Local Abbreviation svec := (map (getitem a) (rank_simple a)).
Local Abbreviation sv p := (getitem svec p).
Local Abbreviation iv p := (nth p ivec 0%nat).

Lemma sv_le (p q : nat) : (p ≤ q < n)%nat → (sv p <= sv q)%Q.
Proof. rewrite svec_sorted_values. apply sorted_values_le. Qed.

Lemma sv_getitem (p : nat) : (p < n)%nat → sv p = getitem a (iv p).
Proof.
  intros Hp. unfold getitem at 1.
  rewrite (nth_indep _ 0%Q (getitem a 0%nat)) by (by rewrite length_map, rank_simple_length).
  apply map_nth.
Qed.

Lemma iv_inj (p q : nat) : (p < n)%nat → (q < n)%nat → iv p = iv q → p = q.
Proof.
  intros Hp Hq. apply NoDup_nth; [apply NoDup_ListNoDup, rank_simple_NoDup|..];
    by rewrite rank_simple_length.
Qed.

(** A maximal run [s..i] of equal neighbours in the sorted vector is the
    tie group of each of its values. *)
Lemma tie_run (s i : nat) :
  (s ≤ i < n)%nat →
  (s = 0%nat ∨ Qneb (sv (s - 1)) (sv s) = true) →
  (i = (n - 1)%nat ∨ Qneb (sv i) (sv (i + 1)) = true) →
  (∀ p, (s ≤ p < i)%nat → (sv p == sv (p + 1))%Q) →
  ∀ p, (s ≤ p ≤ i)%nat → tie_positions (sv p) a = seq (s + 1) (i + 1 - s).
Proof.
  intros Hsi Hleft Hright Hin.
  assert (Hrun : ∀ k p, (i - p = k)%nat → (s ≤ p ≤ i)%nat → (sv p == sv i)%Q).
  { induction k as [|k IH]; intros p Hk Hp.
    - replace p with i by lia. reflexivity.
    - rewrite (Hin p) by lia. apply IH; lia. }
  intros p Hp. unfold tie_positions.
  rewrite <- svec_sorted_values, Nat.add_1_r, <- seq_shift. f_equal.
  apply filter_seq_interval; [lia|].
  intros q Hq. rewrite Qeq_bool_iff, (Hrun _ p eq_refl Hp). split.
  - intros Heq. destruct (decide (q < s)%nat) as [Hlt|Hge].
    + exfalso. destruct Hleft as [->|Hne]; [lia|].
      apply Qneb_true in Hne. apply Hne.
      apply Qle_antisym; [apply sv_le; lia|].
      rewrite (Hrun _ s eq_refl) by lia. rewrite <- Heq. apply sv_le. lia.
    + destruct (decide (i < q)%nat) as [Hgt|Hle]; [|lia].
      exfalso. destruct Hright as [->|Hne]; [lia|].
      apply Qneb_true in Hne. apply Hne.
      apply Qle_antisym; [apply sv_le; lia|].
      rewrite <- Heq. apply sv_le. lia.
  - intros Hq'. apply (Hrun _ q eq_refl). lia.
Qed.

Local Abbreviation rank_init :=
  {| sumranks := 0; dupcount := 0; newarray := replicate n 0%Q |}.

Lemma rank_inv_init : rank_inv a 0 rank_init.
Proof.
  unfold rank_inv; simpl. rewrite length_replicate.
  repeat split; lia.
Qed.

Lemma rank_inv_step (m : nat) (st : rank_state) :
  (m < n)%nat → rank_inv a m st → rank_inv a (S m) (rank_step n ivec svec st m).
Proof.
  intros Hm (Hd & Hsum & Hlen & Hrank & Htot & Hopen & Hleft).
  set (d := dupcount st) in *. set (s := (m - d)%nat) in *.
  assert (Hsum' : (sumranks st + m)%nat = sum_nat (seq s (d + 1))).
  { rewrite Nat.add_1_r, sum_nat_seq_snoc, Hsum. unfold s. lia. }
  assert (Hinside : ∀ p, (s ≤ p < m)%nat → (sv p == sv (p + 1))%Q).
  { intros p Hp. apply Hopen; [unfold s in *; lia|done]. }
  unfold rank_step. fold d.
  destruct (Nat.eqb m (n - 1) || Qneb (sv m) (sv (m + 1))) eqn:Hclose.
  - (* the tie group [s..m] is closed *)
    assert (Hright : m = (n - 1)%nat ∨ Qneb (sv m) (sv (m + 1)) = true).
    { apply orb_true_iff in Hclose as [H%Nat.eqb_eq|H]; auto. }
    assert (Hleft' : s = 0%nat ∨ Qneb (sv (s - 1)) (sv s) = true).
    { destruct (decide (s = 0%nat)); [by left|right].
      apply Hleft; unfold s in *; lia. }
    assert (Hties : ∀ p, (s ≤ p ≤ m)%nat →
              tie_positions (sv p) a = seq (s + 1) (d + 1)).
    { intros p Hp. rewrite (tie_run s m); [f_equal; unfold s; lia|..]; try done.
      unfold s; lia. }
    set (r := averank_of (sumranks st + m) (d + 1)).
    assert (Hold : ∀ p, (p < s)%nat →
              nth (iv p) (assign_ranks ivec m (d + 1) r (newarray st)) 0%Q
              = nth (iv p) (newarray st) 0%Q).
    { intros p Hp. apply write_slots_miss.
      intros j [Hj1 Hj2]%in_seq Heq.
      apply iv_inj in Heq; unfold s in *; lia. }
    assert (Hnew : ∀ p, (s ≤ p ≤ m)%nat →
              nth (iv p) (assign_ranks ivec m (d + 1) r (newarray st)) 0%Q = r).
    { intros p Hp. apply write_slots_hit.
      - apply in_seq. unfold s in *. lia.
      - rewrite Hlen. apply rank_simple_bound. lia. }
    unfold rank_inv; cbn [dupcount sumranks newarray].
    rewrite Nat.sub_0_r.
    split; [lia|]. split; [done|].
    split; [unfold assign_ranks; by rewrite write_slots_length|].
    split; [|split; [|split; [lia|]]].
    + intros p Hp. destruct (decide (p < s)%nat) as [Hlt|Hge].
      * rewrite Hold by done. by apply Hrank.
      * rewrite Hnew by lia. unfold r, average_rank.
        rewrite Hties, length_seq, Hsum' by lia.
        apply averank_of_run. lia.
    + replace (S m) with (s + (d + 1))%nat by (unfold s; lia).
      rewrite (seq_app s (d + 1) 0), (seq_app s (d + 1) 1).
      rewrite map_app, Qsum_app, sum_nat_app, inject_nat_plus.
      rewrite (map_ext_in _ (fun p => nth (iv p) (newarray st) 0%Q) (seq 0 s)),
        (map_ext_in _ (fun _ => r) (seq (0 + s) (d + 1))).
      * rewrite Htot, Qsum_const, length_seq. unfold r.
        rewrite Hsum', averank_of_run by lia.
        replace (1 + s)%nat with (s + 1)%nat by lia.
        apply Qplus_comp; [reflexivity|].
        field. apply inject_nat_nonzero. lia.
      * intros p [Hp1 Hp2]%in_seq. apply Hnew. unfold s in *. lia.
      * intros p [Hp1 Hp2]%in_seq. apply Hold. lia.
    + intros _ Hlt. destruct Hright as [->|Hne]; [lia|].
      replace (S m - 1)%nat with m by lia. by rewrite <- Nat.add_1_r.
  - (* the tie group stays open *)
    apply orb_false_iff in Hclose as [Hlast%Nat.eqb_neq Heq%Qneb_false].
    unfold rank_inv; cbn [dupcount sumranks newarray]. fold d.
    replace (S m - (d + 1))%nat with s by (unfold s; lia).
    split; [lia|]. split; [done|]. split; [done|].
    split; [done|]. split; [done|]. split; [|done].
    intros _. split; [lia|]. intros p Hp.
    destruct (decide (p = m)) as [->|Hne]; [done|]. apply Hinside. lia.
Qed.

Lemma rank_loop_inv (m : nat) :
  (m ≤ n)%nat → rank_inv a m (rank_loop n ivec svec rank_init (seq 0 m)).
Proof.
  induction m as [|m IH]; intros Hm; [apply rank_inv_init|].
  rewrite seq_S. unfold rank_loop. rewrite fold_left_app. simpl.
  apply rank_inv_step; [lia|]. apply IH. lia.
Qed.

(** At the end no tie group is open. *)
Lemma rankdata_inv :
  length (rankdata a) = n
  ∧ (∀ p, (p < n)%nat →
       (nth (iv p) (rankdata a) 0 == average_rank (sv p) a)%Q)
  ∧ (Qsum (map (fun p => nth (iv p) (rankdata a) 0%Q) (seq 0 n))
     == inject_Z (Z.of_nat (sum_nat (seq 1 n))))%Q.
Proof.
  destruct (rank_loop_inv n (Nat.le_refl _))
    as (Hd & _ & Hlen & Hrank & Htot & Hopen & _).
  fold (rankdata a) in *.
  change (newarray (rank_loop n ivec svec rank_init (seq 0 n)))
    with (rankdata a) in *.
  set (st := rank_loop n ivec svec rank_init (seq 0 n)) in *.
  assert (Hd0 : dupcount st = 0%nat).
  { destruct (dupcount st) as [|d] eqn:E; [done|].
    destruct Hopen as [Hlt _]; lia. }
  rewrite Hd0, Nat.sub_0_r in *. done.
Qed.

Lemma rankdata_nth (k : nat) :
  (k < n)%nat → (nth k (rankdata a) 0 == average_rank (getitem a k) a)%Q.
Proof.
  intros Hk. destruct rankdata_inv as (_ & Hrank & _).
  assert (Hin : In k ivec).
  { apply list_elem_of_In.
    eapply elem_of_Permutation_proper; [apply rank_simple_Permutation|].
    apply elem_of_seq. lia. }
  destruct (In_nth _ _ 0%nat Hin) as (p & Hp & Hpk).
  rewrite rank_simple_length in Hp.
  rewrite <- Hpk, <- sv_getitem by done. by apply Hrank.
Qed.

Lemma rankdata_Qsum :
  (Qsum (rankdata a) == inject_Z (Z.of_nat (sum_nat (seq 1 n))))%Q.
Proof.
  destruct rankdata_inv as (Hlen & _ & Htot).
  rewrite <- Htot.
  rewrite <- (map_nth_seq 0%Q (rankdata a)) at 1. rewrite Hlen.
  rewrite <- (map_map (fun p => iv p) (fun k => nth k (rankdata a) 0%Q)).
  apply Qsum_Permutation, Permutation_map.
  rewrite <- rank_simple_length at 2.
  rewrite map_nth_seq. symmetry. apply rank_simple_Permutation.
Qed.
End rankdata_loop.

Lemma Forall2_nth_intro {A B} (R : A → B → Prop) (d1 : A) (d2 : B)
    (l1 : list A) (l2 : list B) :
  length l1 = length l2 →
  (∀ k, (k < length l1)%nat → R (nth k l1 d1) (nth k l2 d2)) →
  Forall2 R l1 l2.
Proof.
  revert l2. induction l1 as [|x l1 IH]; intros [|y l2] Hlen H;
    simpl in *; try lia; constructor.
  - apply (H 0%nat). lia.
  - apply IH; [lia|]. intros k Hk. apply (H (S k)). lia.
Qed.

(** C4: [rankdata] follows the average-rank convention with ranks counted
    from 1: the rank written at every position is the average of the
    1-based positions that the tie group of the value at that position
    occupies in the stable ascending sort of the input; and
    [rankdata([3, 1, 2, 2])] is [[4, 1, 2.5, 2.5]]. *)
Theorem rankdata_average_rank :
  (∀ a : list Q,
      Forall2 Qeq (rankdata a) (map (fun v => average_rank v a) a))
  ∧ rankdata [3; 1; 2; 2]%Q = [4; 1; 5 # 2; 5 # 2]%Q.
Proof.
  split; [|reflexivity].
  intros a.
  apply (Forall2_nth_intro _ 0%Q (average_rank 0%Q a)).
  - destruct (rankdata_inv a) as (Hlen & _). by rewrite Hlen, length_map.
  - intros k Hk. destruct (rankdata_inv a) as (Hlen & _). rewrite Hlen in Hk.
    rewrite (map_nth (fun v => average_rank v a)).
    by apply rankdata_nth.
Qed.

(** C10: for an input of length [n], [rankdata] returns a list of length
    [n] whose entries add up to [n * (n + 1) / 2], whatever the values
    are; so the mean rank of a non-empty input is [(n + 1) / 2]. *)
Theorem rankdata_sum (a : list Q) :
  let n := inject_Z (Z.of_nat (length a)) in
  length (rankdata a) = length a
  ∧ (Qsum (rankdata a) == n * (n + 1) / 2)%Q
  ∧ (a ≠ [] → (Qsum (rankdata a) / n == (n + 1) / 2)%Q).
Proof.
  intros n.
  assert (Hsum : (Qsum (rankdata a) == n * (n + 1) / 2)%Q).
  { rewrite rankdata_Qsum. unfold n.
    apply (Qmult_inj_r _ _ 2); [done|].
    change 2%Q with (inject_Z (Z.of_nat 2)) at 1.
    rewrite <- inject_Z_mult, <- Nat2Z.inj_mul, Nat.mul_comm, sum_nat_seq_1.
    rewrite Nat2Z.inj_mul, inject_Z_mult, inject_nat_plus. simpl. field. }
  split; [apply rankdata_inv|]. split; [done|].
  intros Hne. rewrite Hsum. field.
  apply inject_nat_nonzero. destruct a; [done|simpl; lia].
Qed.

Lemma rankdata_sum_witness :
  [3; 1; 2; 2]%Q ≠ [] ∧ (Qsum (rankdata [3; 1; 2; 2]%Q) / 4 == 5 / 2)%Q.
Proof.
  split; [done|].
  exact (proj2 (proj2 (rankdata_sum [3; 1; 2; 2]%Q)) ltac:(done)).
Defined.
End rank_correlation.

Section failure_triage.
(** ** FailureTriage *)

Import FailureTriage.

Lemma count_failed_from (results : list task) (k : nat) :
  fold_left (fun counter item =>
               if negb (job_success item) then S counter else counter)
            results k
  = (k + length (filter (fun t => job_success t = false) results))%nat.
Proof.
  revert k. induction results as [|t results IH]; intros k; [simpl; lia|].
  cbn [fold_left]. rewrite IH. destruct t as [[]]; cbn [negb job_success].
  - rewrite filter_cons_False by (simpl; congruence). lia.
  - rewrite filter_cons_True by done. cbn [length]. lia.
Qed.

Lemma count_failed_filter (results : list task) :
  count_failed results
  = length (filter (fun t => job_success t = false) results).
Proof. unfold count_failed. by rewrite count_failed_from. Qed.

Lemma fail_rate_of_nonempty (results : list task) :
  results ≠ [] →
  fail_rate_of (count_failed results) (length results) = Ok (failRate results).
Proof.
  intros Hne. unfold fail_rate_of, failRate.
  destruct results as [|t results]; [done|]. simpl Nat.eqb. cbv iota.
  by rewrite count_failed_filter.
Qed.

(** C9: [check_tasks] compares [failRate = countFailed / countTotal] with
    the threshold (0.25 unless given).  Without results it prints an error
    and exits with status 1; with [failRate >= thresh] it exits with
    status 1 when [check] is set and only prints a warning otherwise; below
    the threshold it prints nothing and returns. *)
Theorem check_tasks_spec (results : list task) (check : option bool)
    (thresh : option Q) :
  let ck := default false check in
  let th := default (25 # 100)%Q thresh in
  (results = [] →
     check_tasks results check thresh
     = ([MsgTooManyFailed], Raise (SystemExit 1)))
  ∧ (results ≠ [] → (th <= failRate results)%Q → ck = true →
     check_tasks results check thresh
     = ([MsgErrorRate (failRate results * 100)%Q], Raise (SystemExit 1)))
  ∧ (results ≠ [] → (th <= failRate results)%Q → ck = false →
     check_tasks results check thresh
     = ([MsgWarnRate (failRate results * 100)%Q], Ok tt))
  ∧ (results ≠ [] → (failRate results < th)%Q →
     check_tasks results check thresh = ([], Ok tt)).
Proof.
  intros ck th. split; [by intros ->|].
  unfold check_tasks. fold ck th.
  repeat split; intros Hne; rewrite (fail_rate_of_nonempty _ Hne).
  - intros Hle ->. apply Qle_bool_iff in Hle. by rewrite Hle.
  - intros Hle ->. apply Qle_bool_iff in Hle. by rewrite Hle.
  - intros Hlt. destruct (Qle_bool th (failRate results)) eqn:E; [|done].
    apply Qle_bool_iff in E. exfalso. by apply (Qlt_not_le _ _ Hlt).
Qed.

(** Five results: with two failures (0.4 >= 0.25) and [check=True] the
    process exits; with one failure (0.2 < 0.25) it returns silently. *)
Lemma check_tasks_spec_witness :
  check_tasks [task_failed; task_failed; task_ok; task_ok; task_ok]
              (Some true) (Some (25 # 100)%Q)
  = ([MsgErrorRate (failRate [task_failed; task_failed; task_ok; task_ok; task_ok] * 100)%Q],
     Raise (SystemExit 1))
  ∧ check_tasks [task_failed; task_ok; task_ok; task_ok; task_ok]
                (Some true) (Some (25 # 100)%Q)
    = ([], Ok tt).
Proof.
  split.
  - apply (check_tasks_spec _ (Some true) (Some (25 # 100)%Q));
      [done|by vm_compute|done].
  - apply (check_tasks_spec _ (Some true) (Some (25 # 100)%Q));
      [done|by vm_compute].
Defined.
End failure_triage.

Section pearson_correlation.
(** ** Pearson correlation *)

Import Correlation.

Lemma py_div_ok (x y : R) : y ≠ 0%R → py_div x y = Ok (x / y)%R.
Proof. intros H. unfold py_div. by destruct (Req_dec_T y 0). Qed.

Lemma py_div_zero (x y : R) : y = 0%R → py_div x y = Raise ZeroDivisionError.
Proof. intros H. unfold py_div. by destruct (Req_dec_T y 0). Qed.

Lemma products_shift (a b : R) (A B : list R) (idxs : list nat) :
  products (a :: A) (b :: B) (map S idxs) = products A B idxs.
Proof.
  induction idxs as [|i idxs IH]; [done|].
  cbn [map products]. by rewrite IH.
Qed.

(** With [B] at least as long as [A], every subscript is in range. *)
Lemma products_ok (A B : list R) :
  (length A ≤ length B)%nat →
  products A B (seq 0 (length A)) = Ok (zip_with Rmult A B).
Proof.
  revert B. induction A as [|a A IH]; intros [|b B] Hlen;
    simpl in Hlen; try lia; [done..|].
  cbn [length seq]. rewrite <- seq_shift.
  cbn [products]. rewrite products_shift, IH by lia. done.
Qed.

(** With [B] shorter than [A], [B[len(B)]] raises. *)
Lemma products_short (A B : list R) :
  (length B < length A)%nat →
  products A B (seq 0 (length A)) = Raise IndexError.
Proof.
  revert B. induction A as [|a A IH]; intros [|b B] Hlen;
    simpl in Hlen; try lia; [done|].
  cbn [length seq]. rewrite <- seq_shift.
  cbn [products]. rewrite products_shift, IH by lia. done.
Qed.

Lemma pearson_moments_ok (A B : list R) :
  (2 ≤ length A)%nat →
  let n := INR (length A) in
  let muA := (Rsum A / n)%R in
  let muB := (Rsum B / n)%R in
  pearson_moments A B
  = Ok (muA, muB,
        sqrt (1 / (n - 1) * Rsum (map (fun d => d * d) (map (fun x => x - muA) A))),
        sqrt (1 / (n - 1) * Rsum (map (fun d => d * d) (map (fun x => x - muB) B))))%R.
Proof.
  intros Hlen n muA muB.
  assert (Hn : (2 <= n)%R) by (apply (le_INR 2); lia).
  unfold pearson_moments. fold n.
  rewrite !(py_div_ok _ n) by lra. cbn [mbind result_bind].
  rewrite !(py_div_ok _ (n - 1)%R) by lra. done.
Qed.


(** Whenever [B] is the shorter list the call ends in an exception. *)
Lemma pearson_shorter_B_raises (A B : list R) :
  (length B < length A)%nat → ∃ e, (pearson A B).2 = Raise e.
Proof.
  intros Hlen. unfold pearson.
  destruct (pearson_moments A B) as [[[[muA muB] stdA] stdB]|e] eqn:Hm;
    [|by exists e].
  unfold pearson_quotient. rewrite products_short by done.
  by exists IndexError.
Qed.



End pearson_correlation.

Section boltzmann_weights.
(** ** Boltzmann weights *)

Import Boltzmann.

Section boltzmann_facts.
Variables AU2J KB : R.
Local Open Scope R_scope.

Local Abbreviation term := (boltzmann_term AU2J KB).

(** A conformer whose [free_energy] is a float and whose [gi], if set,
    is a float as well: the term is the closed expression, always with
    [free_energy] as the energy. *)
Lemma boltzmann_term_ok (mf T : R) (item : conformer) :
  (∃ e, item !! "free_energy" = Some (PyFloat e)) →
  item !! "gi" ≠ Some PyNone →
  KB * T ≠ 0 →
  term (Some mf) T item = Ok (spec_term AU2J KB "free_energy" mf T item).
Proof.
  intros [e He] Hgi HT.
  unfold boltzmann_term, getattr, getattr_default, spec_term, spec_gi, spec_energy.
  rewrite He. cbn [mbind result_bind as_float].
  rewrite py_div_ok by done. cbn [mbind result_bind].
  destruct (item !! "gi") as [[|g]|]; done.
Qed.

Local Abbreviation set_weight bsum :=
  (fun (c : conformer) (t : R) => <["bm_weight" := PyFloat (t / bsum)]> c).

(** The first loop adds up the terms of the conformers. *)
Lemma sum_terms_intro minfree (T : R) confs ts (b0 : R) :
  Forall2 (fun c t => term minfree T c = Ok t) confs ts →
  sum_terms AU2J KB minfree T confs b0 = Ok (b0 + Rsum ts).
Proof.
  intros H. revert b0. induction H as [|c t confs ts Hc _ IH]; intros b0.
  - simpl. f_equal. lra.
  - cbn [sum_terms]. rewrite Hc. cbn [mbind result_bind].
    rewrite IH. f_equal. simpl. lra.
Qed.

Lemma sum_terms_inv minfree (T : R) confs (b0 b : R) :
  sum_terms AU2J KB minfree T confs b0 = Ok b →
  ∃ ts, Forall2 (fun c t => term minfree T c = Ok t) confs ts
        ∧ b = b0 + Rsum ts.
Proof.
  revert b0. induction confs as [|c confs IH]; intros b0 H.
  - exists []. split; [constructor|]. simpl in *. injection H as <-. lra.
  - cbn [sum_terms] in H.
    destruct (term minfree T c) as [t|e] eqn:Hc; [|done].
    cbn [mbind result_bind] in H.
    destruct (IH _ H) as (ts & Hts & ->).
    exists (t :: ts). split; [by constructor|]. simpl. lra.
Qed.

(** The second loop divides every term by the sum. *)
Lemma assign_weights_intro minfree (T bsum : R) confs ts :
  Forall2 (fun c t => term minfree T c = Ok t) confs ts →
  bsum ≠ 0 →
  assign_weights AU2J KB minfree T bsum confs
  = Ok (zip_with (set_weight bsum) confs ts).
Proof.
  intros H Hb. induction H as [|c t confs ts Hc _ IH]; [done|].
  cbn [assign_weights]. rewrite Hc. cbn [mbind result_bind].
  rewrite py_div_ok by done. cbn [mbind result_bind]. by rewrite IH.
Qed.

Lemma assign_weights_inv minfree (T bsum : R) confs confs' :
  assign_weights AU2J KB minfree T bsum confs = Ok confs' →
  ∃ ts, Forall2 (fun c t => term minfree T c = Ok t) confs ts
        ∧ confs' = zip_with (set_weight bsum) confs ts
        ∧ (confs ≠ [] → bsum ≠ 0).
Proof.
  revert confs'. induction confs as [|c confs IH]; intros confs' H.
  - exists []. simpl in H. injection H as <-. by repeat split.
  - cbn [assign_weights] in H.
    destruct (term minfree T c) as [t|e] eqn:Hc; [|done].
    cbn [mbind result_bind] in H. unfold py_div in H.
    destruct (Req_dec_T bsum 0) as [|Hb]; [done|].
    cbn [mbind result_bind] in H.
    destruct (assign_weights AU2J KB minfree T bsum confs) as [rest|e] eqn:Hr;
      [|done].
    cbn [mbind result_bind] in H. injection H as <-.
    destruct (IH _ eq_refl) as (ts & Hts & -> & _).
    exists (t :: ts). by repeat split; [constructor|..].
Qed.

Lemma term_deterministic minfree (T : R) confs ts1 ts2 :
  Forall2 (fun c t => term minfree T c = Ok t) confs ts1 →
  Forall2 (fun c t => term minfree T c = Ok t) confs ts2 →
  ts1 = ts2.
Proof.
  intros H. revert ts2. induction H as [|c t confs ts Hc _ IH];
    intros ts2 H2; inversion H2; subst; [done|].
  f_equal; [congruence|]. by apply IH.
Qed.

Lemma term_nonneg minfree (T : R) (c : conformer) (t : R) :
  gi_nonneg c → term minfree T c = Ok t → 0 <= t.
Proof.
  intros Hg. unfold boltzmann_term, getattr, getattr_default.
  destruct (c !! "free_energy") as [fe|]; [|done].
  destruct minfree as [mf|]; [|done]. cbn [mbind result_bind].
  destruct fe as [|e]; [done|]. cbn [as_float mbind result_bind].
  unfold py_div. destruct (Req_dec_T _ 0); [done|].
  cbn [mbind result_bind].
  destruct (c !! "gi") as [[|g]|] eqn:Hgi; cbn; [done|..]; intros [= <-].
  - apply Rmult_le_pos; [by apply Hg|]. left. apply exp_pos.
  - apply Rmult_le_pos; [lra|]. left. apply exp_pos.
Qed.

Lemma terms_nonneg minfree (T : R) confs ts :
  Forall gi_nonneg confs →
  Forall2 (fun c t => term minfree T c = Ok t) confs ts →
  Forall (fun t => 0 <= t) ts.
Proof.
  intros Hg H. induction H as [|c t confs ts Hc _ IH]; [constructor|].
  inversion Hg; subst. constructor; [by eapply term_nonneg|by apply IH].
Qed.

Lemma Rsum_nonneg (ts : list R) : Forall (fun t => 0 <= t) ts → 0 <= Rsum ts.
Proof. induction 1; simpl; lra. Qed.

Lemma Rsum_bound (ts : list R) :
  Forall (fun t => 0 <= t) ts → Forall (fun t => t <= Rsum ts) ts.
Proof.
  induction 1 as [|t ts Ht Hts IH]; constructor; simpl.
  - pose proof (Rsum_nonneg ts Hts). lra.
  - eapply Forall_impl; [exact IH|]. simpl. intros; lra.
Qed.

Lemma Rsum_scale (ts : list R) (b : R) :
  Rsum (map (fun t => t / b) ts) = Rsum ts / b.
Proof. induction ts as [|t ts IH]; simpl; [lra|]. rewrite IH. lra. Qed.

Lemma zip_weights minfree (T bsum : R) confs ts :
  Forall2 (fun c t => term minfree T c = Ok t) confs ts →
  Forall2 (fun c' w => bm_weight c' = Some w)
          (zip_with (set_weight bsum) confs ts)
          (map (fun t => t / bsum) ts).
Proof.
  induction 1; simpl; constructor; [|done].
  unfold bm_weight. by rewrite lookup_insert_eq.
Qed.

(** Lists that are not singletons go through the two loops. *)
Lemma calc_boltzmannweights_loops confs property T :
  length confs ≠ 1%nat →
  (calc_boltzmannweights AU2J KB confs property T).2
  = (let minfree := py_min (set_values confs property) in
     bsum ← sum_terms AU2J KB minfree (effective_T T) confs 0;
     assign_weights AU2J KB minfree (effective_T T) bsum confs).
Proof.
  intros Hlen. unfold calc_boltzmannweights, effective_T.
  destruct confs as [|c [|c2 confs]]; [|done|]; by destruct T.
Qed.

Lemma calc_boltzmannweights_single (c : conformer) property T :
  calc_boltzmannweights AU2J KB [c] property T
  = ([], Ok [<["bm_weight" := PyFloat 1]> c]).
Proof. done. Qed.

Lemma zip_with_weights (b : R) (confs : list conformer) (ts : list R) :
  zip_with (set_weight b) confs ts
  = zip_with (fun c w => <["bm_weight" := PyFloat w]> c) confs
             (map (fun t => t / b) ts).
Proof.
  revert ts. induction confs as [|c confs IH]; intros [|t ts]; try done.
  cbn [zip_with map]. by rewrite IH.
Qed.

(** A run that completes on a non-empty list stores one weight on
    every conformer of the list, in the order of the list, and the
    weights add up to 1; without a negative degeneracy factor they lie
    between 0 and 1. *)
Lemma calc_boltzmannweights_weights confs property T confs' :
  confs ≠ [] →
  (calc_boltzmannweights AU2J KB confs property T).2 = Ok confs' →
  ∃ ws, length ws = length confs
        ∧ confs' = zip_with (fun c w => <["bm_weight" := PyFloat w]> c) confs ws
        ∧ Forall2 (fun c' w => bm_weight c' = Some w) confs' ws
        ∧ Rsum ws = 1
        ∧ (Forall gi_nonneg confs → Forall (fun w => 0 <= w <= 1) ws).
Proof.
  intros Hne Hrun.
  destruct (decide (length confs = 1%nat)) as [Hone|Hmany].
  - destruct confs as [|c [|? ?]]; try done.
    rewrite calc_boltzmannweights_single in Hrun. injection Hrun as <-.
    exists [1]. split; [done|]. split; [done|]. split; [|split].
    + constructor; [|constructor]. unfold bm_weight. by rewrite lookup_insert_eq.
    + simpl. lra.
    + intros _. constructor; [lra|constructor].
  - rewrite calc_boltzmannweights_loops in Hrun by done. cbv zeta in Hrun.
    set (minfree := py_min (set_values confs property)) in *.
    destruct (sum_terms AU2J KB minfree (effective_T T) confs 0)
      as [bsum|e] eqn:Hsum; [|done].
    cbn [mbind result_bind] in Hrun.
    apply sum_terms_inv in Hsum as (ts & Hts & Hbsum).
    apply assign_weights_inv in Hrun as (ts' & Hts' & -> & Hb).
    rewrite (term_deterministic _ _ _ _ _ Hts' Hts).
    specialize (Hb Hne).
    assert (Hbs : bsum = Rsum ts) by lra. rewrite Hbs in *. clear Hbs Hbsum.
    exists (map (fun t => t / Rsum ts) ts).
    split; [rewrite length_map; symmetry; by eapply Forall2_length|].
    split; [|split; [|split]].
    + apply zip_with_weights.
    + by eapply zip_weights.
    + rewrite Rsum_scale. by apply Rinv_r.
    + intros Hg.
      pose proof (terms_nonneg _ _ _ _ Hg Hts) as Hpos.
      pose proof (Rsum_nonneg _ Hpos) as Hsumpos.
      pose proof (Rsum_bound _ Hpos) as Hbound.
      apply Forall_fmap. rewrite Forall_forall in Hpos, Hbound.
      apply Forall_forall. intros t Ht. simpl.
      specialize (Hpos t Ht). specialize (Hbound t Ht). simpl in Hbound.
      split.
      * apply Rmult_le_pos; [done|]. left. apply Rinv_0_lt_compat. lra.
      * apply (Rmult_le_reg_r (Rsum ts)); [lra|].
        unfold Rdiv. rewrite Rmult_assoc, Rinv_l by done. lra.
Qed.

(** The closed form of a completed run: every term is taken at
    [free_energy], whatever [property] is; [property] only selects the
    reference energy [mf]. *)
Lemma calc_boltzmannweights_ok confs property T (mf : R) :
  length confs ≠ 1%nat →
  Forall (fun c => (∃ e, c !! "free_energy" = Some (PyFloat e))
                   ∧ c !! "gi" ≠ Some PyNone) confs →
  KB * effective_T T ≠ 0 →
  py_min (set_values confs property) = Some mf →
  let t := spec_term AU2J KB "free_energy" mf (effective_T T) in
  Rsum (map t confs) ≠ 0 →
  (calc_boltzmannweights AU2J KB confs property T).2
  = Ok (map (fun c => <["bm_weight" := PyFloat (t c / Rsum (map t confs))]> c)
            confs).
Proof.
  intros Hlen Hwf HT Hmin t Hsum.
  rewrite calc_boltzmannweights_loops by done. cbv zeta. rewrite Hmin.
  assert (Hts : Forall2 (fun c x => term (Some mf) (effective_T T) c = Ok x)
                        confs (map t confs)).
  { clear -Hwf HT. induction Hwf as [|c confs [He Hg] _ IH]; simpl;
      constructor; [|done].
    by apply boltzmann_term_ok. }
  rewrite (sum_terms_intro _ _ _ _ _ Hts). cbn [mbind result_bind].
  rewrite Rplus_0_l, (assign_weights_intro _ _ _ _ _ Hts Hsum).
  f_equal. generalize (Rsum (map t confs)). intros b.
  clear. induction confs as [|c confs IH]; simpl; [done|].
  by rewrite IH.
Qed.
End boltzmann_facts.

Lemma effective_T_room : effective_T (Some 298.15%R) = 298.15%R.
Proof.
  unfold effective_T. simpl. destruct (Req_dec_T 298.15 0); [lra|done].
Qed.

Lemma KB_room_nonzero : (KB_value * effective_T (Some 298.15) ≠ 0)%R.
Proof. rewrite effective_T_room. unfold KB_value. lra. Qed.

(** The run of the code on two conformers with [xtb_energy] -10.0 and
    -10.5 and [free_energy] -10.5, weighted by [xtb_energy]. *)
Lemma calc_boltzmannweights_xtb_pair :
  (calc_boltzmannweights AU2J_value KB_value
     [conf_xtb (-10); conf_xtb (-10.5)] "xtb_energy" (Some 298.15%R)).2
  = Ok [<["bm_weight" := PyFloat (1 / 2)]> (conf_xtb (-10));
        <["bm_weight" := PyFloat (1 / 2)]> (conf_xtb (-10.5))].
Proof.
  assert (Hmin : py_min (set_values [conf_xtb (-10); conf_xtb (-10.5)] "xtb_energy")
                 = Some (-10.5)%R).
  { change (Some (Rmin (-10) (-10.5)) = Some (-10.5)%R).
    f_equal. apply Rmin_right. lra. }
  rewrite (calc_boltzmannweights_ok _ _ _ _ _ (-10.5)%R); try done.
  + cbn [map]. unfold spec_term, spec_gi, spec_energy.
    change (conf_xtb (-10) !! "gi") with (@None pyval).
    change (conf_xtb (-10.5) !! "gi") with (@None pyval).
    change (conf_xtb (-10) !! "free_energy") with (Some (PyFloat (-10.5))).
    change (conf_xtb (-10.5) !! "free_energy") with (Some (PyFloat (-10.5))).
    cbv beta iota.
    set (E := exp _). assert (HE : (0 < E)%R) by apply exp_pos.
    simpl Rsum.
    replace (1 * E / (1 * E + (1 * E + 0)))%R with (1 / 2)%R by (field; lra).
    done.
  + repeat constructor; by eauto.
  + apply KB_room_nonzero.
  + cbn [map]. unfold spec_term, spec_gi, spec_energy.
    change (conf_xtb (-10) !! "gi") with (@None pyval).
    change (conf_xtb (-10.5) !! "gi") with (@None pyval).
    change (conf_xtb (-10) !! "free_energy") with (Some (PyFloat (-10.5))).
    change (conf_xtb (-10.5) !! "free_energy") with (Some (PyFloat (-10.5))).
    cbv beta iota.
    set (E := exp _). assert (HE : (0 < E)%R) by apply exp_pos.
    simpl Rsum. lra.
Qed.

(** C2 evaluated on the code: two conformers whose [xtb_energy] differs
    (-10.0 and -10.5) and whose [free_energy] is -10.5, weighted by
    [xtb_energy].  The code stores 1/2 on both, because its exponent reads
    [free_energy]; the weights of the specification, with [E_i] the chosen
    property, are not 1/2 each. *)
Theorem calc_boltzmannweights_ignores_property :
  (calc_boltzmannweights AU2J_value KB_value
     [conf_xtb (-10); conf_xtb (-10.5)] "xtb_energy" (Some 298.15%R)).2
  = Ok [<["bm_weight" := PyFloat (1 / 2)]> (conf_xtb (-10));
        <["bm_weight" := PyFloat (1 / 2)]> (conf_xtb (-10.5))]
  ∧ spec_weights AU2J_value KB_value
      [conf_xtb (-10); conf_xtb (-10.5)] "xtb_energy" 298.15%R
    ≠ [1 / 2; 1 / 2]%R.
Proof.
  split; [apply calc_boltzmannweights_xtb_pair|].
  - unfold spec_weights.
    change (py_min _) with (Some (Rmin (-10) (-10.5))).
    rewrite Rmin_right by lra. cbn [default map].
    unfold spec_term, spec_gi, spec_energy.
    change (conf_xtb (-10) !! "gi") with (@None pyval).
    change (conf_xtb (-10.5) !! "gi") with (@None pyval).
    change (conf_xtb (-10) !! "xtb_energy") with (Some (PyFloat (-10))).
    change (conf_xtb (-10.5) !! "xtb_energy") with (Some (PyFloat (-10.5))).
    cbv beta iota. unfold Datatypes.id. simpl Rsum.
    replace (- ((-10.5 - -10.5) * AU2J_value) / (KB_value * 298.15))%R with 0%R
      by (unfold KB_value; field; lra).
    rewrite exp_0.
    set (x := (- ((-10 - -10.5) * AU2J_value) / (KB_value * 298.15))%R).
    assert (Hx : (x < 0)%R).
    { unfold x, AU2J_value, KB_value.
      apply Ropp_lt_cancel. rewrite Ropp_0.
      unfold Rdiv. rewrite <- Ropp_mult_distr_l, Ropp_involutive.
      apply Rdiv_lt_0_compat; lra. }
    pose proof (exp_pos x) as Hpos.
    pose proof (exp_increasing _ _ Hx) as Hlt. rewrite exp_0 in Hlt.
    intros [= H1 H2].
    assert (Hq : (1 * 1 / (1 * exp x + (1 * 1 + 0)) * (1 * exp x + (1 * 1 + 0))
                  = 1 * 1)%R) by (field; lra).
    rewrite H2 in Hq. lra.
Qed.

(** C3, as stated, fails: a negative degeneracy factor gives a completed
    run that stores the weights -1 and 2. *)
Lemma calc_boltzmannweights_negative_gi :
  (calc_boltzmannweights AU2J_value KB_value
     [conf_gi (-1); conf_gi 2] "free_energy" (Some 298.15%R)).2
  = Ok [<["bm_weight" := PyFloat (-1)]> (conf_gi (-1));
        <["bm_weight" := PyFloat 2]> (conf_gi 2)]
  ∧ ¬ (0 <= -1 <= 1)%R.
Proof.
  split; [|lra].
  assert (Hmin : py_min (set_values [conf_gi (-1); conf_gi 2] "free_energy")
                 = Some 0%R).
  { change (Some (Rmin 0 0) = Some 0%R). f_equal. apply Rmin_left. lra. }
  assert (HE : (- ((0 - 0) * AU2J_value) / (KB_value * effective_T (Some 298.15)) = 0)%R).
  { rewrite effective_T_room. unfold KB_value. field. lra. }
  rewrite (calc_boltzmannweights_ok _ _ _ _ _ 0%R); try done.
  - cbn [map]. unfold spec_term, spec_gi, spec_energy.
    change (conf_gi (-1) !! "gi") with (Some (PyFloat (-1))).
    change (conf_gi 2 !! "gi") with (Some (PyFloat 2)).
    change (conf_gi (-1) !! "free_energy") with (Some (PyFloat 0)).
    change (conf_gi 2 !! "free_energy") with (Some (PyFloat 0)).
    cbv beta iota. rewrite HE, exp_0. simpl Rsum.
    replace (-1 * 1 / (-1 * 1 + (2 * 1 + 0)))%R with (-1)%R by (field; lra).
    replace (2 * 1 / (-1 * 1 + (2 * 1 + 0)))%R with 2%R by (field; lra).
    done.
  - repeat constructor; by eauto.
  - apply KB_room_nonzero.
  - cbn [map]. unfold spec_term, spec_gi, spec_energy.
    change (conf_gi (-1) !! "gi") with (Some (PyFloat (-1))).
    change (conf_gi 2 !! "gi") with (Some (PyFloat 2)).
    change (conf_gi (-1) !! "free_energy") with (Some (PyFloat 0)).
    change (conf_gi 2 !! "free_energy") with (Some (PyFloat 0)).
    cbv beta iota. rewrite HE, exp_0. simpl Rsum. lra.
Qed.

(** C3, amended: a singleton list gets the weight 1.0 whatever its
    energy, the property and the temperature are.  On every non-empty
    list on which [calc_boltzmannweights] completes, the result is the
    list itself with one weight stored on every conformer, and the
    weights add up to 1; the weights lie in [0, 1] when no conformer has
    a negative degeneracy factor. *)
Theorem calc_boltzmannweights_normalised (AU2J KB : R) (property : string)
    (T : option R) :
  (∀ c,
      calc_boltzmannweights AU2J KB [c] property T
      = ([], Ok [<["bm_weight" := PyFloat 1]> c])
      ∧ bm_weight (<["bm_weight" := PyFloat 1]> c) = Some 1%R)
  ∧ (∀ confs confs',
      confs ≠ [] →
      (calc_boltzmannweights AU2J KB confs property T).2 = Ok confs' →
      ∃ ws, length ws = length confs
            ∧ confs' = zip_with (fun c w => <["bm_weight" := PyFloat w]> c)
                                confs ws
            ∧ Forall2 (fun c' w => bm_weight c' = Some w) confs' ws
            ∧ Rsum ws = 1%R
            ∧ (Forall gi_nonneg confs → Forall (fun w => 0 <= w <= 1)%R ws)).
Proof.
  split.
  - intros c. split; [apply calc_boltzmannweights_single|].
    unfold bm_weight. by rewrite lookup_insert_eq.
  - intros confs confs'. apply calc_boltzmannweights_weights.
Qed.

Lemma calc_boltzmannweights_normalised_witness :
  ∃ ws, length ws = 2%nat
        ∧ Forall2 (fun c' w => bm_weight c' = Some w)
            [<["bm_weight" := PyFloat (1 / 2)]> (conf_xtb (-10));
             <["bm_weight" := PyFloat (1 / 2)]> (conf_xtb (-10.5))] ws
        ∧ Rsum ws = 1%R
        ∧ Forall (fun w => 0 <= w <= 1)%R ws.
Proof.
  destruct (proj2 (calc_boltzmannweights_normalised AU2J_value KB_value
                     "xtb_energy" (Some 298.15%R))
                  [conf_xtb (-10); conf_xtb (-10.5)]
                  [<["bm_weight" := PyFloat (1 / 2)]> (conf_xtb (-10));
                   <["bm_weight" := PyFloat (1 / 2)]> (conf_xtb (-10.5))])
    as (ws & Hlen & _ & Hw & Hsum & Hbound).
  - done.
  - apply calc_boltzmannweights_xtb_pair.
  - exists ws. split; [exact Hlen|]. split; [exact Hw|]. split; [exact Hsum|].
    apply Hbound.
    constructor; [|constructor; [|constructor]]; intros g Hg; discriminate Hg.
Defined.
End boltzmann_weights.

(** ** Strings *)

Lemma prefix_append (a b : string) : String.prefix a (a +:+ b) = true.
Proof.
  induction a as [|c a IH]; simpl; [by destruct b|].
  destruct (ascii_dec c c); [exact IH|done].
Qed.

Lemma prefix_length (a b : string) :
  String.prefix a b = true → (String.length a ≤ String.length b)%nat.
Proof.
  revert b. induction a as [|c a IH]; intros [|c' b]; simpl; try done; try lia.
  destruct (ascii_dec c c'); [|done]. intros H%IH. lia.
Qed.

Lemma str_in_length (needle hay : string) :
  str_in needle hay = true → (String.length needle ≤ String.length hay)%nat.
Proof.
  induction hay as [|c hay IH]; cbn [str_in].
  - rewrite orb_false_r. intros H%prefix_length. exact H.
  - intros [H%prefix_length|H%IH]%orb_true_iff; simpl in *; lia.
Qed.

Lemma str_in_prefix (needle hay : string) :
  String.prefix needle hay = true → str_in needle hay = true.
Proof. intros H. destruct hay; cbn [str_in]; by rewrite H. Qed.

Lemma length_append (a b : string) :
  String.length (a +:+ b) = (String.length a + String.length b)%nat.
Proof.
  induction a as [|c a IH]; [done|].
  simpl. by rewrite IH.
Qed.

Lemma append_assoc (a b c : string) : (a +:+ b) +:+ c = a +:+ (b +:+ c).
Proof.
  induction a as [|x a IH]; [done|].
  change (String x ((a +:+ b) +:+ c) = String x (a +:+ b +:+ c)). by f_equal.
Qed.

(** A name is found in each of its dotted extensions, but not in itself. *)
Lemma str_in_extension (f t : string) : str_in (f +:+ ".") (f +:+ "." +:+ t) = true.
Proof. apply str_in_prefix. rewrite <- append_assoc. apply prefix_append. Qed.

Lemma str_in_self (f : string) : str_in (f +:+ ".") f = false.
Proof.
  destruct (str_in (f +:+ ".") f) eqn:E; [|done].
  apply str_in_length in E. rewrite length_append in E. simpl in E. lia.
Qed.

(** Splitting at the last dot recovers the stem and a dot-free suffix. *)
Lemma rsplit_dot_extension (f t : string) :
  rsplit_dot t = None → rsplit_dot (f +:+ "." +:+ t) = Some (f, t).
Proof.
  intros Ht. induction f as [|c f IH].
  - change ("" +:+ "." +:+ t) with (String "."%char t).
    cbn [rsplit_dot]. by rewrite Ht.
  - change (String c f +:+ "." +:+ t) with (String c (f +:+ "." +:+ t)).
    cbn [rsplit_dot]. by rewrite IH.
Qed.

Lemma rsplit1_extension (f t : string) :
  rsplit_dot t = None → rsplit1 (f +:+ "." +:+ t) = [f; t].
Proof. intros Ht. unfold rsplit1. by rewrite rsplit_dot_extension. Qed.

Lemma append_ne_self (f t : string) : t ≠ "" → f +:+ t ≠ f.
Proof.
  intros Ht H. apply (f_equal String.length) in H.
  rewrite length_append in H. destruct t; [done|simpl in H; lia].
Qed.

Lemma append_inj_r (f t1 t2 : string) : f +:+ t1 = f +:+ t2 → t1 = t2.
Proof. apply (inj (String.append f)). Qed.

(** ** Sorting listings whose keys are all different *)

Lemma stable_sort_listing_order {A} (ltb : Z → Z → bool) (key : A → Z)
    (l1 l2 : list A) :
  (∀ a b, ltb a b = true → ltb b a = false) →
  (∀ a b c, ltb b a = false → ltb c b = false → ltb c a = false) →
  (∀ x y, x ∈ l1 → y ∈ l1 →
     ltb (key x) (key y) = false → ltb (key y) (key x) = false → x = y) →
  l1 ≡ₚ l2 →
  stable_sort ltb key l1 = stable_sort ltb key l2.
Proof.
  intros Hasym Htrans Hinj Hperm.
  apply (StronglySorted_unique_strong (key_le ltb key)).
  - intros x y Hx Hy Hxy Hyx.
    apply Hinj; [| |exact Hyx|exact Hxy].
    + by rewrite stable_sort_Permutation in Hx.
    + by rewrite stable_sort_Permutation, <- Hperm in Hy.
  - by apply stable_sort_sorted.
  - by apply stable_sort_sorted.
  - by rewrite !stable_sort_Permutation.
Qed.

Lemma mapM_result_ok {A B} (f : A → result B) (l : list A) :
  Forall (fun x => ∃ y, f x = Ok y) l → ∃ ys, mapM f l = Ok ys.
Proof.
  induction 1 as [|x l [y Hy] _ [ys IH]]; [by exists []|].
  exists (y :: ys). simpl. by rewrite Hy, IH.
Qed.

Section backup_rotation.
(** ** Backup rotation *)

Import Backup.

Lemma splitting_extension (f t : string) :
  rsplit_dot t = None →
  splitting (f +:+ "." +:+ t)
  = match py_int t with
    | Ok n => Ok n
    | Raise ValueError => Ok 0%Z
    | Raise e => Raise e
    end.
Proof. intros Ht. unfold splitting. by rewrite rsplit1_extension. Qed.

Lemma move_numbered_numeric (f t data : string) (n : Z) (rest : list string)
    (st : fs_state) :
  rsplit_dot t = None →
  py_int t = Ok n →
  dir st !! (f +:+ "." +:+ t) = Some data →
  move_numbered ((f +:+ "." +:+ t) :: rest) st
  = move_numbered rest
      {| dir := <[f +:+ "." +:+ pretty (n + 1)%Z := data]>
                  (delete (f +:+ "." +:+ t) (dir st));
         moves := moves st
                  ++ [{| mv_from := f +:+ "." +:+ t;
                         mv_to := f +:+ "." +:+ pretty (n + 1)%Z;
                         mv_overwrites :=
                           bool_decide (is_Some (dir st !! (f +:+ "." +:+ pretty (n + 1)%Z))) |}];
         printed := printed st |}.
Proof.
  intros Ht Hn Hd. cbn [move_numbered].
  rewrite rsplit1_extension by done. cbn [py_getitem lookup list_lookup mbind result_bind].
  rewrite Hn. cbn [mbind result_bind]. unfold shutil_move. by rewrite Hd.
Qed.

Lemma move_numbered_skip (f t : string) (rest : list string) (st : fs_state) :
  rsplit_dot t = None →
  py_int t = Raise ValueError →
  move_numbered ((f +:+ "." +:+ t) :: rest) st = move_numbered rest st.
Proof.
  intros Ht Hn. cbn [move_numbered].
  rewrite rsplit1_extension by done. cbn [py_getitem lookup list_lookup mbind result_bind].
  by rewrite Hn.
Qed.

Lemma extension_form (f t : string) :
  f +:+ String "."%char t = f +:+ "." +:+ t.
Proof. done. Qed.

Lemma extension_ne (f a b : string) : a ≠ b → f +:+ a ≠ f +:+ b.
Proof. intros Hne H. by apply append_inj_r in H. Qed.

Lemma suffix_differs (f t u : string) :
  py_int t ≠ py_int u → f +:+ "." +:+ t ≠ f +:+ String "."%char u.
Proof.
  intros Hne H. rewrite extension_form in H.
  apply append_inj_r in H. apply (append_inj_r ".") in H. by subst.
Qed.

Lemma extension_ne_stem (f t : string) : f +:+ "." +:+ t ≠ f.
Proof.
  intros H. apply (f_equal String.length) in H.
  rewrite length_append in H. simpl in H. lia.
Qed.

(** A descending stable sort puts an element whose key is above all
    others first. *)
Lemma sorted_head {A} `{EqDecision A} (key : A → Z) (l others : list A) (x : A) :
  StronglySorted (key_le (flip Z.ltb) key) l →
  l ≡ₚ x :: others →
  (∀ y, y ∈ others → (key y < key x)%Z) →
  ∃ l', l = x :: l' ∧ l' ≡ₚ others
        ∧ StronglySorted (key_le (flip Z.ltb) key) l'.
Proof.
  intros Hs Hperm Hkeys. destruct l as [|h l'].
  { by apply Permutation_nil_cons in Hperm. }
  apply StronglySorted_inv in Hs as [Hs' Hh].
  destruct (decide (h = x)) as [->|Hne].
  - exists l'. split; [done|]. split; [|done].
    by eapply Permutation_cons_inv.
  - exfalso.
    assert (Hhin : h ∈ others).
    { assert (Hh' : h ∈ x :: others) by (rewrite <- Hperm; by left).
      apply elem_of_cons in Hh' as [->|Hh']; done. }
    assert (Hxin : x ∈ l').
    { assert (Hx' : x ∈ h :: l') by (rewrite Hperm; by left).
      apply elem_of_cons in Hx' as [->|Hx']; done. }
    rewrite Forall_forall in Hh. specialize (Hh x Hxin).
    unfold key_le, flip in Hh. apply Z.ltb_ge in Hh.
    specialize (Hkeys h Hhin). lia.
Qed.

Lemma filter_others (f : string) (l : list string) :
  filter (fun item => str_in (f +:+ ".") item = true)
         (map (fun t => f +:+ "." +:+ t) l)
  = map (fun t => f +:+ "." +:+ t) l.
Proof.
  induction l as [|t l IH]; [done|]. cbn [map].
  rewrite filter_cons_True by apply str_in_extension. by rewrite IH.
Qed.

Section rotate.
Variables (f : string) (ts : list string).
Hypothesis ts_plain :
  ∀ t, t ∈ ts → rsplit_dot t = None ∧ py_int t = Raise ValueError.

Local Abbreviation ext := (fun t : string => f +:+ "." +:+ t).

Lemma key_of_1 : key_of (f +:+ ".1") = 1%Z.
Proof. unfold key_of. by rewrite (extension_form f "1"), splitting_extension. Qed.
Lemma key_of_3 : key_of (f +:+ ".3") = 3%Z.
Proof. unfold key_of. by rewrite (extension_form f "3"), splitting_extension. Qed.
Lemma key_of_other (t : string) : t ∈ ts → key_of (ext t) = 0%Z.
Proof.
  intros [Hdot Hint]%ts_plain. unfold key_of.
  by rewrite splitting_extension, Hint.
Qed.

Lemma key_of_others (item : string) : item ∈ map ext ts → key_of item = 0%Z.
Proof.
  intros (t & <- & Ht%list_elem_of_In)%list_elem_of_In%in_map_iff.
  by apply key_of_other.
Qed.

Lemma newfiles_rotate (files : list string) :
  files ≡ₚ [f; f +:+ ".1"; f +:+ ".3"] ++ map ext ts →
  filter (fun item => str_in (f +:+ ".") item = true) files
  ≡ₚ (f +:+ ".3") :: (f +:+ ".1") :: map ext ts.
Proof.
  intros ->. cbn [app].
  rewrite filter_cons_False by (by rewrite str_in_self).
  rewrite !filter_cons_True by (rewrite ?extension_form; apply str_in_extension).
  rewrite filter_others. apply perm_swap.
Qed.

Lemma sorted_rotate (newfiles : list string) :
  newfiles ≡ₚ (f +:+ ".3") :: (f +:+ ".1") :: map ext ts →
  ∃ es, sorted Z.ltb key_of true newfiles = (f +:+ ".3") :: (f +:+ ".1") :: es
        ∧ es ≡ₚ map ext ts.
Proof.
  intros Hperm. unfold sorted.
  assert (Hsorted : StronglySorted (key_le (flip Z.ltb) key_of)
                      (stable_sort (flip Z.ltb) key_of newfiles)).
  { apply stable_sort_sorted.
    - intros a b. unfold flip. rewrite Z.ltb_lt, Z.ltb_ge. lia.
    - intros a b c. unfold flip. rewrite !Z.ltb_ge. lia. }
  destruct (sorted_head key_of _ ((f +:+ ".1") :: map ext ts) (f +:+ ".3") Hsorted)
    as (l1 & -> & Hp1 & Hs1).
  { by rewrite stable_sort_Permutation. }
  { intros y [->|Hy]%elem_of_cons; rewrite key_of_3;
      [rewrite key_of_1|rewrite (key_of_others y Hy)]; lia. }
  destruct (sorted_head key_of _ (map ext ts) (f +:+ ".1") Hs1 Hp1)
    as (es & -> & Hp2 & _).
  { intros y Hy. rewrite key_of_1, (key_of_others y Hy). lia. }
  by exists es.
Qed.

Lemma splitting_rotate (newfiles : list string) :
  newfiles ≡ₚ (f +:+ ".3") :: (f +:+ ".1") :: map ext ts →
  ∃ keys, mapM splitting newfiles = Ok keys.
Proof.
  intros Hperm. apply mapM_result_ok. rewrite Hperm.
  constructor; [|constructor].
  - exists 3%Z. by rewrite (extension_form f "3"), splitting_extension.
  - exists 1%Z. by rewrite (extension_form f "1"), splitting_extension.
  - apply Forall_forall. intros item Hitem.
    apply list_elem_of_In, in_map_iff in Hitem as (t & <- & Ht%list_elem_of_In).
    destruct (ts_plain t Ht) as [Hdot Hint].
    exists 0%Z. by rewrite splitting_extension, Hint.
Qed.

(** The loop passes over every file whose suffix is not a number. *)
Lemma move_numbered_others (es : list string) (st : fs_state) :
  (∀ item, item ∈ es → item ∈ map ext ts) →
  move_numbered es st = Ok st.
Proof.
  induction es as [|item es IH]; intros Hes; [done|].
  assert (Hitem : item ∈ map ext ts) by (apply Hes; by left).
  apply list_elem_of_In, in_map_iff in Hitem as (t & <- & Ht%list_elem_of_In).
  destruct (ts_plain t Ht) as [Hdot Hint].
  rewrite (move_numbered_skip f t) by done.
  apply IH. intros y Hy. apply Hes. by right.
Qed.

(** The names of the files that stay: none of them is [f] or [f.n]
    for a number [n]. *)
Lemma others_not_stem (rest : directory) :
  (∀ name, is_Some (rest !! name) → name ∈ map ext ts) →
  rest !! f = None.
Proof.
  intros Hdom. destruct (rest !! f) as [data|] eqn:E; [|done]. exfalso.
  assert (Hin : f ∈ map ext ts) by (apply Hdom; by eexists).
  apply list_elem_of_In, in_map_iff in Hin as (t & Heq & _).
  by apply extension_ne_stem in Heq.
Qed.

Lemma others_not_numbered (rest : directory) (u : string) (n : Z) :
  (∀ name, is_Some (rest !! name) → name ∈ map ext ts) →
  py_int u = Ok n →
  rest !! (f +:+ String "."%char u) = None.
Proof.
  intros Hdom Hint.
  destruct (rest !! (f +:+ String "."%char u)) as [data|] eqn:E; [|done].
  exfalso.
  assert (Hin : f +:+ String "."%char u ∈ map ext ts) by (apply Hdom; by eexists).
  apply list_elem_of_In, in_map_iff in Hin as (t & Heq & Ht%list_elem_of_In).
  destruct (ts_plain t Ht) as [_ Hno].
  rewrite extension_form in Heq. apply append_inj_r in Heq.
  apply (append_inj_r ".") in Heq. subst t. congruence.
Qed.
End rotate.

Lemma pretty_Z_2 : pretty (1 + 1)%Z = "2".
Proof. by vm_compute. Qed.
Lemma pretty_Z_4 : pretty (3 + 1)%Z = "4".
Proof. by vm_compute. Qed.

Ltac names_differ :=
  first [ apply extension_ne; discriminate
        | apply append_ne_self; discriminate
        | apply not_eq_sym, append_ne_self; discriminate
        | apply extension_ne_stem
        | apply not_eq_sym, extension_ne_stem ].

Ltac names_clash :=
  exfalso;
  match goal with
  | H : ?f +:+ "." +:+ _ = ?f |- _ => by apply extension_ne_stem in H
  | H : ?f = ?f +:+ "." +:+ _ |- _ => symmetry in H; by apply extension_ne_stem in H
  | H : ?f +:+ _ = ?f |- _ => by apply append_ne_self in H
  | H : ?f = ?f +:+ _ |- _ => symmetry in H; by apply append_ne_self in H
  | H : ?f +:+ _ = ?f +:+ _ |- _ => apply append_inj_r in H; discriminate H
  end.

(** C8: in a directory that holds [f], [f.1], [f.3] and, besides them,
    any number of files [f.t] whose suffix [t] after the last dot is not
    a number for [int] (such as [f.save]; there may be none), whatever
    the order in which the directory is listed, [move_recursively]
    renames [f.3] to [f.4], then [f.1] to [f.2], then [f] to [f.1]; no
    rename replaces an existing file; the files [f.t] keep their names
    and contents. *)
Theorem move_recursively_rotates (f c0 c1 c3 : string) (ts : list string)
    (rest : directory) (files : list string) :
  (∀ t, t ∈ ts → rsplit_dot t = None ∧ py_int t = Raise ValueError) →
  (∀ name, is_Some (rest !! name) ↔ name ∈ map (fun t => f +:+ "." +:+ t) ts) →
  files ≡ₚ [f; f +:+ ".1"; f +:+ ".3"] ++ map (fun t => f +:+ "." +:+ t) ts →
  move_recursively files f
    (<[f := c0]> (<[f +:+ ".1" := c1]> (<[f +:+ ".3" := c3]> rest)))
  = Ok {| dir := <[f +:+ ".1" := c0]> (<[f +:+ ".2" := c1]>
                   (<[f +:+ ".4" := c3]> rest));
          moves := [ {| mv_from := f +:+ ".3"; mv_to := f +:+ ".4";
                        mv_overwrites := false |};
                     {| mv_from := f +:+ ".1"; mv_to := f +:+ ".2";
                        mv_overwrites := false |};
                     {| mv_from := f; mv_to := f +:+ ".1";
                        mv_overwrites := false |} ];
          printed := ["Backing up " +:+ f +:+ " to " +:+ f +:+ ".1" +:+ "."] |}.
Proof.
  intros Hts Hdom' Hperm. unfold move_recursively.
  assert (Hdom : ∀ name, is_Some (rest !! name)
                         → name ∈ map (fun t => f +:+ "." +:+ t) ts)
    by (intros name; apply Hdom').
  pose proof (newfiles_rotate f ts files Hperm) as Hnew.
  destruct (splitting_rotate f ts Hts _ Hnew) as [keys ->].
  cbn [mbind result_bind].
  destruct (sorted_rotate f ts Hts _ Hnew) as (es & -> & Hes).
  pose proof (others_not_stem f ts rest Hdom) as Hr0.
  pose proof (others_not_numbered f ts Hts rest "1" 1 Hdom eq_refl) as Hr1.
  pose proof (others_not_numbered f ts Hts rest "2" 2 Hdom eq_refl) as Hr2.
  pose proof (others_not_numbered f ts Hts rest "3" 3 Hdom eq_refl) as Hr3.
  pose proof (others_not_numbered f ts Hts rest "4" 4 Hdom eq_refl) as Hr4.
  (* f.3 -> f.4 *)
  rewrite (extension_form f "3") at 1.
  rewrite (move_numbered_numeric f "3" c3 3); [|done|done|]; cycle 1.
  { cbn [dir]. rewrite <- extension_form.
    rewrite !lookup_insert_ne by names_differ. apply lookup_insert_eq. }
  rewrite pretty_Z_4, <- !extension_form. cbn [dir moves printed app].
  rewrite bool_decide_eq_false_2; cycle 1.
  { rewrite !lookup_insert_ne by names_differ. rewrite Hr4.
    by intros [? ?]. }
  (* f.1 -> f.2 *)
  rewrite (extension_form f "1") at 1.
  rewrite (move_numbered_numeric f "1" c1 1); [|done|done|]; cycle 1.
  { cbn [dir]. rewrite <- extension_form.
    rewrite lookup_insert_ne, lookup_delete_ne by names_differ.
    rewrite lookup_insert_ne by names_differ. apply lookup_insert_eq. }
  rewrite pretty_Z_2, <- !extension_form. cbn [dir moves printed app].
  rewrite bool_decide_eq_false_2; cycle 1.
  { rewrite lookup_insert_ne, lookup_delete_ne by names_differ.
    rewrite !lookup_insert_ne by names_differ. rewrite Hr2.
    by intros [? ?]. }
  (* the files f.t are passed over *)
  rewrite (move_numbered_others f ts Hts es) by (intros item; by rewrite Hes).
  cbn [mbind result_bind dir moves printed app].
  (* f -> f.1 *)
  rewrite decide_True by (rewrite Hperm; by left).
  unfold shutil_move. cbn [dir moves printed app].
  rewrite lookup_insert_ne, lookup_delete_ne by names_differ.
  rewrite lookup_insert_ne, lookup_delete_ne by names_differ.
  rewrite lookup_insert_eq.
  rewrite bool_decide_eq_false_2; cycle 1.
  { rewrite lookup_insert_ne by names_differ. rewrite lookup_delete_eq.
    by intros [? ?]. }
  f_equal. f_equal.
  apply map_eq. intros k.
  repeat (rewrite lookup_insert || rewrite lookup_delete).
  repeat case_decide; subst; rewrite ?Hr0, ?Hr1, ?Hr2, ?Hr3, ?Hr4;
    try done; names_clash.
Qed.

Lemma move_recursively_rotates_witness :
  (∃ st,
     move_recursively ["coord.1"; "coord"; "coord.3"] "coord"
       (<["coord" := "new"]> (<["coord.1" := "old"]> (<["coord.3" := "older"]> ∅)))
     = Ok st
     ∧ map mv_from (moves st) = ["coord.3"; "coord.1"; "coord"]
     ∧ map mv_to (moves st) = ["coord.4"; "coord.2"; "coord.1"])
  ∧ (∃ st,
       move_recursively ["coord.1"; "coord.save"; "coord"; "coord.3"] "coord"
         (<["coord" := "new"]> (<["coord.1" := "old"]> (<["coord.3" := "older"]>
            (<["coord.save" := "kept"]> ∅))))
       = Ok st
       ∧ dir st !! "coord.save" = Some "kept"
       ∧ map mv_from (moves st) = ["coord.3"; "coord.1"; "coord"]).
Proof.
  split.
  - eexists. split; [|split].
    + apply (move_recursively_rotates "coord" "new" "old" "older" [] ∅).
      * by intros t ?%elem_of_nil.
      * intros name. split; [|by intros ?%elem_of_nil].
        intros [data Hdata]. by rewrite lookup_empty in Hdata.
      * by apply (bool_decide_unpack _).
    + done.
    + done.
  - eexists. split; [|split].
    + apply (move_recursively_rotates "coord" "new" "old" "older" ["save"]
               (<["coord.save" := "kept"]> ∅)).
      * intros t ->%list_elem_of_singleton. done.
      * intros name. split.
        -- intros [data Hdata].
           destruct (decide (name = "coord.save")) as [->|Hne]; [by left|].
           by rewrite lookup_insert_ne, lookup_empty in Hdata.
        -- intros ->%list_elem_of_singleton. by eexists.
      * by apply (bool_decide_unpack _).
    + done.
    + done.
Defined.
End backup_rotation.

Section conformer_lists.
(** ** Conformer lists *)

Import Conformers.

Lemma py_index_found {A} `{EqDecision A} (l : list A) (x : A) :
  x ∈ l → ∃ k, py_index l x = Ok k ∧ l !! k = Some x.
Proof.
  induction l as [|y l IH]; [by intros ?%elem_of_nil|].
  intros Hin. cbn [py_index]. destruct (decide (y = x)) as [->|Hne].
  - by exists 0%nat.
  - apply elem_of_cons in Hin as [->|Hin]; [done|].
    destruct (IH Hin) as (k & -> & Hk). by exists (S k).
Qed.

Lemma py_index_lookup {A} `{EqDecision A} (l : list A) (x : A) (k : nat) :
  py_index l x = Ok k → l !! k = Some x.
Proof.
  revert k. induction l as [|y l IH]; intros k; cbn [py_index]; [done|].
  destruct (decide (y = x)) as [->|Hne]; [by intros [= <-]|].
  destruct (py_index l x) as [k'|e] eqn:E; [|done].
  intros [= <-]. by apply IH.
Qed.

Lemma py_getitem_lookup {A} (l : list A) (k : nat) (x : A) :
  py_getitem l k = Ok x ↔ l !! k = Some x.
Proof. unfold py_getitem. destruct (l !! k); naive_solver. Qed.

(** Popping an element and appending it to another list moves it. *)
Lemma pop_append_Permutation {A} (l store : list A) (k : nat) (x : A) :
  l !! k = Some x → delete k l ++ (store ++ [x]) ≡ₚ l ++ store.
Proof.
  intros Hk. pose proof (delete_Permutation l k x Hk) as Hd.
  set (l' := delete k l) in *. rewrite Hd. solve_Permutation.
Qed.

(** *** [new_folders] *)

Section folders.
Variables (refuses : string → bool) (h : loc → conformer)
          (cwd foldername : string).

Local Abbreviation body := (new_folders_body refuses h cwd foldername).
Local Abbreviation loop fuel := (new_folders_loop fuel refuses h cwd foldername).

Lemma new_folders_body_ok (conf : loc) (st : folders_state) :
  conf ∈ conflist st →
  ∃ st', body conf st = Ok st'
         ∧ (length (conflist st') ≤ length (conflist st))%nat
         ∧ conflist st' ++ nf_store_confs st'
           ≡ₚ conflist st ++ nf_store_confs st.
Proof.
  intros Hin. unfold new_folders_body.
  destruct (mkdir_p _ _ _) as [ds|e]; [by eexists|].
  destruct (decide (_ ∈ nf_dirs st)); [by eexists|].
  destruct (py_index_found _ _ Hin) as (k & -> & Hk).
  cbn [mbind result_bind]. unfold py_getitem. rewrite Hk.
  cbn [mbind result_bind]. eexists. split; [done|]. cbn. split.
  - rewrite length_delete by eauto. lia.
  - by apply pop_append_Permutation.
Qed.

(** The iteration ends before the fuel does, and every eviction moves
    one conformer from the list to the store. *)
Lemma new_folders_loop_ok (fuel i : nat) (st : folders_state) :
  (length (conflist st) ≤ i + fuel)%nat →
  ∃ st', loop fuel i st = Some (Ok st')
         ∧ conflist st' ++ nf_store_confs st'
           ≡ₚ conflist st ++ nf_store_confs st.
Proof.
  revert i st. induction fuel as [|fuel IH]; intros i st Hlen.
  - cbn [new_folders_loop].
    rewrite (lookup_ge_None_2 (conflist st) i) by lia. by eexists.
  - cbn [new_folders_loop].
    destruct (conflist st !! i) as [conf|] eqn:Hi; [|by eexists].
    destruct (new_folders_body_ok conf st) as (st1 & -> & Hl & Hp).
    { by eapply list_elem_of_lookup_2. }
    destruct (IH (S i) st1) as (st' & -> & Hp'); [lia|].
    exists st'. split; [done|]. by rewrite Hp'.
Qed.
End folders.

Lemma new_folders_ok refuses cwd foldername silent (st : state) :
  ∃ printed st',
    new_folders refuses cwd foldername silent st = Some (Ok (printed, st'))
    ∧ heap st' = heap st
    ∧ prev_calculated st' = prev_calculated st
    ∧ conformers st' ++ store_confs st' ≡ₚ conformers st ++ store_confs st.
Proof.
  unfold new_folders.
  edestruct (new_folders_loop_ok refuses (heap st) cwd foldername
               (length (conformers st)) 0) as (st' & -> & Hp); [simpl; lia|].
  cbn [mbind option_bind result_bind]. eauto 10.
Qed.

(** *** Preservation of the conformers *)

Lemma preserves_refl (st : state) : preserves st st.
Proof. by repeat split. Qed.

Lemma preserves_trans (st1 st2 st3 : state) :
  preserves st1 st2 → preserves st2 st3 → preserves st1 st3.
Proof.
  intros (Hid1 & Hk1 & Hp1) (Hid2 & Hk2 & Hp2). repeat split.
  - intros l. by rewrite Hid2, Hid1.
  - by rewrite Hk2, Hk1.
  - auto.
Qed.

Lemma mark_removed_id (conf : loc) (st : state) (l : loc) :
  id (heap (mark_removed conf st) l) = id (heap st l).
Proof.
  unfold mark_removed. cbn [heap].
  destruct (decide (conf = l)) as [->|Hne].
  - by rewrite fn_lookup_insert.
  - by rewrite fn_lookup_insert_ne.
Qed.

(** Moving the object at position [k] of a source list to the store. *)
Lemma move_to_store_preserves (src : source) (st : state) (k : nat) (x : loc) :
  source_list src st !! k = Some x →
  preserves st
    (append_store x (set_source_list src (delete k (source_list src st)) st)).
Proof.
  intros Hk. split; [|split].
  - by destruct src.
  - pose proof (delete_Permutation _ _ _ Hk) as Hd.
    unfold known. destruct src; cbn in *;
      set (l' := delete k _) in *; rewrite Hd; solve_Permutation.
  - destruct src; cbn in *; [done|]. intros Hnil. by rewrite Hnil in Hk.
Qed.

Lemma remove_loop_preserves (src : source) (keep : list string)
    (snapshot : list loc) (st : state) (printed : list string) :
  preserves st (remove_loop src keep snapshot st printed).1.1.
Proof.
  revert st printed. induction snapshot as [|conf snapshot IH];
    intros st printed; cbn [remove_loop]; [apply preserves_refl|].
  destruct (decide (_ ∈ keep)); [apply IH|].
  assert (Hmark : preserves st (mark_removed conf st)).
  { split; [|by split]. apply mark_removed_id. }
  destruct (py_index _ conf) as [k|e] eqn:Hidx; [|exact Hmark].
  apply py_index_lookup in Hidx.
  unfold py_getitem. rewrite Hidx.
  eapply preserves_trans; [exact Hmark|].
  eapply preserves_trans; [|apply IH].
  by apply move_to_store_preserves.
Qed.

Section crest_facts.
Variable format_20_8f : Q → string.

Local Abbreviation crest := (crest_routine format_20_8f).

Lemma removal_step_preserves (w : world) (st : state) (printed : list string) :
  preserves st (removal_step w st printed).1.
Proof.
  unfold removal_step. destruct (w_tags w) as [store|]; [|apply preserves_refl].
  destruct (read_keep store []) as [keep [[]|e]]; [|apply preserves_refl].
  pose proof (remove_loop_preserves Active keep (conformers st) st printed) as H1.
  destruct (remove_loop Active keep (conformers st) st printed)
    as [[st1 printed1] [[]|e]]; [|exact H1].
  pose proof (remove_loop_preserves Previous keep (prev_calculated st1) st1 printed1) as H2.
  destruct (remove_loop Previous keep (prev_calculated st1) st1 printed1)
    as [[st2 printed2] [[]|e]]; by eapply preserves_trans.
Qed.

Lemma after_crest_preserves (w : world) (st : state) :
  preserves st (after_crest format_20_8f w st).
Proof.
  unfold after_crest, crest_routine.
  destruct (write_pass _ w _ []) as [out1 [[]|e]]; [|apply preserves_refl].
  destruct (write_pass _ w _ out1) as [xyz [[]|e]]; [|apply preserves_refl].
  destruct (negb (w_launch_ok w)); [apply preserves_refl|].
  destruct (w_crestcheck w); [|apply preserves_refl].
  pose proof (removal_step_preserves w st
    (match w_tags w with
     | Some _ =>
         if w_copy_ok w && negb (bool_decide (merged_candidates st = []))
         then [msg_checking] else [msg_checking] ++ ["ERROR: exception"]
     | None =>
         (if w_copy_ok w && negb (bool_decide (merged_candidates st = []))
          then [msg_checking] else [msg_checking] ++ ["ERROR: exception"])
         ++ ["ERROR: OSError"; msg_no_tags]
     end)) as H.
  by destruct (removal_step _ _ _) as [st' printed'].
Qed.

Lemma new_folders_preserves refuses cwd foldername silent st printed st' :
  new_folders refuses cwd foldername silent st = Some (Ok (printed, st')) →
  preserves st st'.
Proof.
  intros Hrun.
  destruct (new_folders_ok refuses cwd foldername silent st)
    as (printed1 & st1 & Hrun1 & Hheap & Hprev & Hperm).
  rewrite Hrun in Hrun1. injection Hrun1 as -> ->.
  split; [|split].
  - intros l. by rewrite Hheap.
  - unfold known. rewrite Hprev.
    transitivity (prev_calculated st ++ (conformers st1 ++ store_confs st1));
      [solve_Permutation|].
    rewrite Hperm. solve_Permutation.
  - by rewrite Hprev.
Qed.

Lemma step_preserves st op st' : step format_20_8f st op st' → preserves st st'.
Proof.
  destruct 1 as [w st|refuses cwd foldername silent st printed st' Hrun].
  - apply after_crest_preserves.
  - by eapply new_folders_preserves.
Qed.

Lemma run_preserves st ops st' : run format_20_8f st ops st' → preserves st st'.
Proof.
  induction 1 as [st|st op st1 ops st2 Hstep _ IH]; [apply preserves_refl|].
  eapply preserves_trans; [|exact IH]. by eapply step_preserves.
Qed.

(** Every operation runs to its end in every state. *)
Lemma step_total st op : ∃ st', step format_20_8f st op st'.
Proof.
  destruct op as [w|refuses cwd foldername silent].
  - eexists. constructor.
  - destruct (new_folders_ok refuses cwd foldername silent st)
      as (printed & st' & Hrun & _).
    exists st'. by econstructor.
Qed.

Lemma preserves_ids st st' (l : list loc) :
  preserves st st' → ids_of st' l = ids_of st l.
Proof. intros (Hid & _). unfold ids_of. apply map_ext. intros x. apply Hid. Qed.
End crest_facts.

Section crest_claims.
Variable format_20_8f : Q → string.

Lemma write_pass_ok (w : world) (allconfs : list conformer) (out : list string) :
  (∀ c, c ∈ allconfs → is_ok (w_t2x w (id c)) = true) →
  write_pass format_20_8f w allconfs out
  = (out ++ concat (map (candidate_block format_20_8f w) allconfs), Ok tt).
Proof.
  revert out. induction allconfs as [|c allconfs IH]; intros out Hok.
  - simpl. by rewrite app_nil_r.
  - cbn [write_pass map concat]. unfold candidate_block at 1.
    pose proof (Hok c ltac:(left)) as Hc.
    destruct (w_t2x w (id c)) as [[conf_xyz n]|e]; [|done].
    rewrite IH by (intros c' Hc'; apply Hok; by right).
    by rewrite <- app_assoc.
Qed.

Lemma merged_candidates_Permutation (st : state) :
  merged_candidates st ≡ₚ map (heap st) (conformers st ++ prev_calculated st).
Proof. apply stable_sort_Permutation. Qed.

(** What [crest_routine] has written when every folder can be read. *)
Lemma crest_routine_xyz (w : world) (st : state) :
  (∀ c, c ∈ merged_candidates st → is_ok (w_t2x w (id c)) = true) →
  (crest_routine format_20_8f w st).1.2
  = concat (map (candidate_block format_20_8f w) (merged_candidates st)
            ++ map (candidate_block format_20_8f w) (merged_candidates st)).
Proof.
  intros Hok. unfold crest_routine.
  rewrite !write_pass_ok by done. rewrite app_nil_l, concat_app.
  destruct (negb (w_launch_ok w)); [done|].
  destruct (w_crestcheck w); [|done].
  by destruct (removal_step _ _ _).
Qed.

(** C6: when the folders of all candidates can be read, the file
    [conformers.xyz] holds the blocks of the [N] merged candidates (atom
    count line, energy line with the tag, coordinate lines), in the order
    of their energies, followed by the same [N] blocks once more: [2N]
    blocks, every candidate once in each pass. *)
Theorem crest_routine_writes_twice (w : world) (st : state) :
  (∀ c, c ∈ merged_candidates st → is_ok (w_t2x w (id c)) = true) →
  let blocks := map (candidate_block format_20_8f w) (merged_candidates st) in
  (crest_routine format_20_8f w st).1.2 = concat (blocks ++ blocks)
  ∧ length (blocks ++ blocks)
    = (2 * (length (conformers st) + length (prev_calculated st)))%nat
  ∧ merged_candidates st ≡ₚ map (heap st) (conformers st ++ prev_calculated st)
  ∧ Forall (fun c => ∃ conf_xyz n,
              w_t2x w (id c) = Ok (conf_xyz, n)
              ∧ candidate_block format_20_8f w c
                = ["  " +:+ pretty n +:+ newline;
                   format_20_8f (energy c) +:+ "        !" +:+ "CONF"
                   +:+ pretty (id c) +:+ newline]
                  ++ map (fun line => line +:+ newline) conf_xyz)
           (merged_candidates st).
Proof.
  intros Hok blocks. split; [by apply crest_routine_xyz|]. split; [|split].
  - unfold blocks.
    rewrite length_app, !length_map, merged_candidates_Permutation.
    rewrite length_map, length_app. lia.
  - apply merged_candidates_Permutation.
  - apply Forall_forall. intros c Hc. specialize (Hok c Hc).
    unfold candidate_block.
    destruct (w_t2x w (id c)) as [[conf_xyz n]|e]; [|done].
    by exists conf_xyz, n.
Qed.

(** C7: without a readable [enso.tags] no list and no conformer changes,
    also with [crestcheck] set; and when the steps before it succeed the
    call returns, with the error line printed. *)
Theorem crest_routine_missing_tags (w : world) (st : state) :
  w_tags w = None →
  after_crest format_20_8f w st = st
  ∧ ((∀ c, c ∈ merged_candidates st → is_ok (w_t2x w (id c)) = true) →
     w_launch_ok w = true →
     ∃ printed xyz,
       crest_routine format_20_8f w st = (printed, xyz, Ok st)
       ∧ msg_no_tags ∈ printed).
Proof.
  intros Htags. split.
  - unfold after_crest, crest_routine, removal_step. rewrite Htags.
    destruct (write_pass _ w _ []) as [out1 [[]|e]]; [|done].
    destruct (write_pass _ w _ out1) as [xyz [[]|e]]; [|done].
    destruct (negb (w_launch_ok w)); [done|].
    by destruct (w_crestcheck w).
  - intros Hok Hlaunch. unfold crest_routine, removal_step.
    rewrite !write_pass_ok by done. rewrite Htags, Hlaunch. cbn [negb].
    destruct (w_crestcheck w); do 2 eexists; (split; [done|]); set_solver.
Qed.

(** C1, amended: after any sequence of [crest_routine] and
    [new_folders] calls the ids held by the three lists (active,
    previously calculated, stored) are the ids held at the start, each
    as often as at the start; so with pairwise different ids at the
    start no id is held twice, the stored list shares no id with the
    active list or with the previously calculated list; when there is
    no previously calculated list, the active and the stored list
    together hold exactly the initial ids; and every further call runs
    to its end. *)
Theorem lists_partition (st0 : state) (ops : list operation) (st : state) :
  run format_20_8f st0 ops st →
  ids_of st (known st) ≡ₚ ids_of st0 (known st0)
  ∧ (NoDup (ids_of st0 (known st0)) →
       NoDup (ids_of st (known st))
       ∧ ids_of st (conformers st) ## ids_of st (store_confs st)
       ∧ ids_of st (prev_calculated st) ## ids_of st (store_confs st))
  ∧ (prev_calculated st0 = [] →
       prev_calculated st = []
       ∧ ids_of st (conformers st ++ store_confs st)
         ≡ₚ ids_of st0 (conformers st0 ++ store_confs st0))
  ∧ (∀ op, ∃ st', step format_20_8f st op st').
Proof.
  intros Hrun. pose proof (run_preserves _ _ _ _ Hrun) as Hpres.
  assert (Hids : ids_of st (known st) ≡ₚ ids_of st0 (known st0)).
  { rewrite (preserves_ids _ _ _ Hpres). destruct Hpres as (_ & Hk & _).
    unfold ids_of. by rewrite Hk. }
  split; [exact Hids|]. split; [|split].
  - intros Hnd. rewrite <- Hids in Hnd. split; [exact Hnd|].
    unfold known, ids_of in Hnd. rewrite !map_app in Hnd.
    apply NoDup_app in Hnd as (_ & Hdisj1 & Hnd).
    apply NoDup_app in Hnd as (_ & Hdisj2 & _).
    split.
    + intros i Hi Hs. apply (Hdisj1 i Hi). apply elem_of_app. by right.
    + intros i Hi Hs. by apply (Hdisj2 i Hi).
  - intros Hnil. destruct Hpres as (Hid & Hk & Hp).
    specialize (Hp Hnil). split; [exact Hp|].
    unfold known in Hids. by rewrite Hnil, Hp in Hids.
  - intros op. apply step_total.
Qed.
End crest_claims.

(** C1, as stated, fails when a previously calculated list is passed:
    after one [crest_routine] call on three submitted conformers with
    the ids 1, 2 and 3, the active and the stored list together hold the
    ids 1 and 2 only; the conformer 3 stays in the previously calculated
    list. *)
Lemma lists_partition_previous_list :
  let st := after_crest example_format (example_world (Some example_tags))
                        example_state in
  run example_format example_state
      [OpCrest (example_world (Some example_tags))] st
  ∧ ids_of example_state (known example_state) = [1; 2; 3]%nat
  ∧ ids_of st (conformers st ++ store_confs st) = [1; 2]%nat
  ∧ ids_of st (prev_calculated st) = [3]%nat.
Proof.
  cbv zeta. split; [|by split].
  eapply run_cons; [apply step_crest|apply run_nil].
Qed.

Lemma crest_routine_writes_twice_witness :
  length ((crest_routine example_format (example_world (Some example_tags))
             example_state).1.2) = 18%nat
  ∧ length (map (candidate_block example_format (example_world (Some example_tags)))
                (merged_candidates example_state)
            ++ map (candidate_block example_format (example_world (Some example_tags)))
                (merged_candidates example_state)) = 6%nat.
Proof.
  pose proof (crest_routine_writes_twice example_format
                (example_world (Some example_tags)) example_state
                (fun c _ => eq_refl)) as H.
  cbv zeta in H. destruct H as (Hxyz & Hlen & _).
  split; [by rewrite Hxyz|exact Hlen].
Defined.

Lemma crest_routine_missing_tags_witness :
  after_crest example_format (example_world None) example_state = example_state
  ∧ ∃ printed xyz,
      crest_routine example_format (example_world None) example_state
      = (printed, xyz, Ok example_state)
      ∧ msg_no_tags ∈ printed.
Proof.
  destruct (crest_routine_missing_tags example_format (example_world None)
              example_state eq_refl) as [Hsame Hret].
  split; [exact Hsame|]. exact (Hret (fun c _ => eq_refl) eq_refl).
Defined.

Lemma lists_partition_witness :
  ∃ st,
    run example_format example_state
      [OpCrest (example_world (Some example_tags));
       OpNewFolders (fun _ => true) "cwd" "part1" false] st
    ∧ ids_of st (known st) ≡ₚ [1; 2; 3]%nat
    ∧ ids_of st (conformers st) ## ids_of st (store_confs st).
Proof.
  assert (Hrun : ∃ st, run example_format example_state
                   [OpCrest (example_world (Some example_tags));
                    OpNewFolders (fun _ => true) "cwd" "part1" false] st).
  { eexists. eapply run_cons; [apply step_crest|].
    eapply run_cons; [|apply run_nil].
    eapply step_new_folders. reflexivity. }
  destruct Hrun as [st Hrun]. exists st.
  destruct (lists_partition _ _ _ _ Hrun) as (Hids & Hnd & _).
  destruct Hnd as (_ & Hdisj & _).
  { change (NoDup [1; 2; 3]%nat). by apply (bool_decide_unpack _). }
  by repeat split.
Defined.
End conformer_lists.

(** ** Ranks and the order of the values *)

Section rank_order.
Import RankCorrelation.

Lemma tie_positions_Qeq (v w : Q) (a : list Q) :
  (v == w)%Q → tie_positions v a = tie_positions w a.
Proof.
  intros Hvw. unfold tie_positions. f_equal.
  apply List.filter_ext. intros p.
  destruct (Qeq_bool _ v) eqn:E1, (Qeq_bool _ w) eqn:E2; try done.
  - apply Qeq_bool_iff in E1. rewrite Hvw in E1.
    apply Qeq_bool_iff in E1. congruence.
  - apply Qeq_bool_iff in E2. rewrite <- Hvw in E2.
    apply Qeq_bool_iff in E2. congruence.
Qed.

Lemma tie_positions_In (v : Q) (a : list Q) (p : nat) :
  In p (tie_positions v a)
  ↔ ∃ p', p = S p' ∧ (p' < length a)%nat
          ∧ (getitem (sorted_values a) p' == v)%Q.
Proof.
  unfold tie_positions. rewrite in_map_iff. split.
  - intros (p' & <- & [Hp Hv]%filter_In). exists p'.
    apply in_seq in Hp. apply Qeq_bool_iff in Hv. split; [done|]. split; [lia|done].
  - intros (p' & -> & Hp & Hv). exists p'. split; [done|].
    apply filter_In. split; [apply in_seq; lia|]. by apply Qeq_bool_iff.
Qed.

(** A value of the list has a place in the sorted list. *)
Lemma tie_positions_nonempty (a : list Q) (i : nat) :
  (i < length a)%nat → (0 < length (tie_positions (getitem a i) a))%nat.
Proof.
  intros Hi.
  assert (Hin : In (getitem a i) (sorted_values a)).
  { apply list_elem_of_In. rewrite sorted_values_Permutation.
    apply list_elem_of_In, nth_In. exact Hi. }
  destruct (In_nth _ _ 0%Q Hin) as (p & Hp & Hv).
  rewrite sorted_values_length in Hp.
  assert (Hpos : In (S p) (tie_positions (getitem a i) a)).
  { apply tie_positions_In. exists p. split; [done|]. split; [done|].
    unfold getitem at 1. by rewrite Hv. }
  destruct (tie_positions (getitem a i) a); [done|simpl; lia].
Qed.

(** The tie group of a smaller value lies before that of a larger one. *)
Lemma tie_positions_separated (v w : Q) (a : list Q) (p q : nat) :
  (v < w)%Q → In p (tie_positions v a) → In q (tie_positions w a) → (p < q)%nat.
Proof.
  intros Hvw (p' & -> & Hp & Hv)%tie_positions_In (q' & -> & Hq & Hw)%tie_positions_In.
  destruct (decide (q' ≤ p')%nat) as [Hle|]; [|lia].
  exfalso. pose proof (sorted_values_le a q' p' ltac:(lia)) as H.
  rewrite Hv, Hw in H. by apply (Qlt_not_le v w).
Qed.

Lemma sum_nat_above (p : nat) (l : list nat) :
  (∀ q, In q l → (p < q)%nat) → (p * length l + length l ≤ sum_nat l)%nat.
Proof.
  induction l as [|q l IH]; intros H; simpl; [lia|].
  pose proof (H q ltac:(by left)). specialize (IH ltac:(intros; apply H; by right)).
  fold (sum_nat l). lia.
Qed.

Lemma sum_nat_separated (l1 l2 : list nat) :
  (∀ p q, In p l1 → In q l2 → (p < q)%nat) →
  (sum_nat l1 * length l2 + length l1 * length l2 ≤ sum_nat l2 * length l1)%nat.
Proof.
  induction l1 as [|p l1 IH]; intros H; simpl; [lia|].
  fold (sum_nat l1).
  pose proof (sum_nat_above p l2 ltac:(intros; apply H; [by left|done])).
  specialize (IH ltac:(intros; apply H; [by right|done])). nia.
Qed.

Lemma Qdiv_nat_lt (x y u v : nat) :
  (0 < y)%nat → (0 < v)%nat → (x * v < u * y)%nat →
  (inject_Z (Z.of_nat x) / inject_Z (Z.of_nat y)
   < inject_Z (Z.of_nat u) / inject_Z (Z.of_nat v))%Q.
Proof.
  intros Hy Hv Hlt.
  assert (Hy' : (0 < inject_Z (Z.of_nat y))%Q).
  { rewrite <- (Zlt_Qlt 0). lia. }
  assert (Hv' : (0 < inject_Z (Z.of_nat v))%Q).
  { rewrite <- (Zlt_Qlt 0). lia. }
  apply Qlt_shift_div_l; [done|].
  unfold Qdiv. rewrite <- Qmult_assoc, (Qmult_comm (/ _)), Qmult_assoc.
  apply Qlt_shift_div_r; [done|].
  rewrite <- !inject_Z_mult, <- Zlt_Qlt. lia.
Qed.

Lemma rankdata_nth_eq (a : list Q) (i j : nat) :
  (i < length a)%nat → (j < length a)%nat →
  (getitem a i == getitem a j)%Q →
  (nth i (rankdata a) 0 == nth j (rankdata a) 0)%Q.
Proof.
  intros Hi Hj Heq. rewrite !rankdata_nth by done.
  unfold average_rank. by rewrite (tie_positions_Qeq _ _ _ Heq).
Qed.

Lemma rankdata_nth_lt (a : list Q) (i j : nat) :
  (i < length a)%nat → (j < length a)%nat →
  (getitem a i < getitem a j)%Q →
  (nth i (rankdata a) 0 < nth j (rankdata a) 0)%Q.
Proof.
  intros Hi Hj Hlt. rewrite !rankdata_nth by done. unfold average_rank.
  pose proof (tie_positions_nonempty a i Hi).
  pose proof (tie_positions_nonempty a j Hj).
  apply Qdiv_nat_lt; [done..|].
  pose proof (sum_nat_separated _ _
    (fun p q => tie_positions_separated _ _ a p q Hlt)) as Hsep.
  nia.
Qed.

(** X1: the ranks follow the order of the values: equal values get equal
    ranks, and a smaller value gets a strictly smaller rank. *)
Theorem rankdata_order (a : list Q) (i j : nat) :
  (i < length a)%nat → (j < length a)%nat →
  ((getitem a i == getitem a j)%Q →
     (nth i (rankdata a) 0 == nth j (rankdata a) 0)%Q)
  ∧ ((getitem a i < getitem a j)%Q →
     (nth i (rankdata a) 0 < nth j (rankdata a) 0)%Q).
Proof.
  intros Hi Hj. split; [by apply rankdata_nth_eq|by apply rankdata_nth_lt].
Qed.

Lemma rankdata_order_witness :
  (nth 2 (rankdata [3; 1; 2; 2]%Q) 0 == nth 3 (rankdata [3; 1; 2; 2]%Q) 0)%Q
  ∧ (nth 1 (rankdata [3; 1; 2; 2]%Q) 0 < nth 0 (rankdata [3; 1; 2; 2]%Q) 0)%Q.
Proof.
  split.
  - apply (rankdata_order [3; 1; 2; 2]%Q 2 3); [simpl; lia..|done].
  - apply (rankdata_order [3; 1; 2; 2]%Q 1 0); [simpl; lia..|done].
Defined.
End rank_order.

(** ** Ranks under order-preserving maps *)

Section rank_invariance.
Import RankCorrelation.

Lemma insert_stable_ext {A K K'} (ltb : K → K → bool) (ltb' : K' → K' → bool)
    (key : A → K) (key' : A → K') (x : A) (l : list A) :
  (∀ y, In y l → ltb (key y) (key x) = ltb' (key' y) (key' x)) →
  insert_stable ltb key x l = insert_stable ltb' key' x l.
Proof.
  induction l as [|y l IH]; intros H; simpl; [done|].
  rewrite <- (H y) by (by left).
  destruct (ltb (key y) (key x)); [|done].
  f_equal. apply IH. intros z Hz. apply H. by right.
Qed.

(** The stable sort only looks at the outcomes of the comparisons between
    the keys of the elements of the list. *)
Lemma stable_sort_ext {A K K'} (ltb : K → K → bool) (ltb' : K' → K' → bool)
    (key : A → K) (key' : A → K') (l : list A) :
  (∀ x y, In x l → In y l → ltb (key y) (key x) = ltb' (key' y) (key' x)) →
  stable_sort ltb key l = stable_sort ltb' key' l.
Proof.
  induction l as [|x l IH]; intros H; simpl; [done|].
  rewrite <- IH by (intros; apply H; by right).
  apply insert_stable_ext. intros y Hy. apply H; [by left|].
  right. apply list_elem_of_In.
  eapply elem_of_Permutation_proper;
    [symmetry; apply (stable_sort_Permutation ltb key)|].
  by apply list_elem_of_In.
Qed.

Lemma fold_left_ext_In {A B} (f g : A → B → A) (l : list B) (a : A) :
  (∀ a x, In x l → f a x = g a x) → fold_left f l a = fold_left g l a.
Proof.
  revert a. induction l as [|x l IH]; intros a H; simpl; [done|].
  rewrite (H a x) by (by left). apply IH. intros; apply H; by right.
Qed.

Section monotone.
Variable f : Q → Q.
Hypothesis f_lt : ∀ x y, (x < y)%Q ↔ (f x < f y)%Q.

Lemma Qltb_monotone (x y : Q) : Qltb (f x) (f y) = Qltb x y.
Proof.
  destruct (Qltb x y) eqn:E.
  - apply Qltb_lt in E. apply Qltb_lt. by apply (proj1 (f_lt x y)).
  - destruct (Qltb (f x) (f y)) eqn:E'; [|done].
    apply Qltb_lt in E'. apply (proj2 (f_lt x y)) in E'.
    apply Qltb_lt in E'. congruence.
Qed.

Lemma Qneb_monotone (x y : Q) : Qneb (f x) (f y) = Qneb x y.
Proof.
  assert (Heq : ∀ u v, (u == v)%Q ↔ ¬ (u < v)%Q ∧ ¬ (v < u)%Q).
  { intros u v. split.
    - intros ->. split; apply Qlt_irrefl.
    - intros [H1 H2]. apply Qle_antisym; by apply Qnot_lt_le. }
  destruct (Qneb x y) eqn:E.
  - apply Qneb_true. apply Qneb_true in E. intros H. apply E.
    apply Heq. apply Heq in H. destruct H as [H1 H2].
    split; intros Hlt; [apply H1|apply H2]; by apply (proj1 (f_lt _ _)).
  - apply Qneb_false. apply Qneb_false in E.
    apply Heq. apply Heq in E. destruct E as [H1 H2].
    split; intros Hlt; [apply H1|apply H2]; by apply (proj2 (f_lt _ _)).
Qed.

Lemma getitem_map (a : list Q) (i : nat) :
  (i < length a)%nat → getitem (map f a) i = f (getitem a i).
Proof.
  intros Hi. unfold getitem.
  rewrite (nth_indep _ 0%Q (f 0%Q)) by (by rewrite length_map).
  apply map_nth.
Qed.

Lemma rank_simple_map (a : list Q) : rank_simple (map f a) = rank_simple a.
Proof.
  unfold rank_simple, sorted. rewrite length_map.
  apply stable_sort_ext. intros i j [_ Hi]%in_seq [_ Hj]%in_seq.
  rewrite !getitem_map by lia. apply Qltb_monotone.
Qed.

Lemma svec_map (a : list Q) (p : nat) :
  (p < length a)%nat →
  getitem (map (getitem (map f a)) (rank_simple a)) p
  = f (getitem (map (getitem a) (rank_simple a)) p).
Proof.
  intros Hp.
  assert (Hnth : ∀ g : nat → Q,
    getitem (map g (rank_simple a)) p = g (nth p (rank_simple a) 0%nat)).
  { intros g. unfold getitem.
    rewrite (nth_indep _ 0%Q (g 0%nat))
      by (by rewrite length_map, rank_simple_length).
    apply map_nth. }
  rewrite !Hnth.
  by apply getitem_map, rank_simple_bound.
Qed.

Lemma rankdata_map (a : list Q) : rankdata (map f a) = rankdata a.
Proof.
  unfold rankdata. cbv zeta. rewrite rank_simple_map, length_map.
  f_equal. unfold rank_loop. apply fold_left_ext_In.
  intros st i [_ Hi]%in_seq. unfold rank_step.
  destruct (Nat.eqb_spec i (length a - 1)) as [->|Hne]; [done|].
  cbn [orb]. rewrite !svec_map by lia. by rewrite Qneb_monotone.
Qed.
End monotone.

(** X2: ranking only looks at the order of the values: a map that keeps
    the order ([x < y] exactly when [f x < f y]) leaves every rank as it
    is. *)
Theorem rankdata_monotone_invariant (f : Q → Q) (a : list Q) :
  (∀ x y, (x < y)%Q ↔ (f x < f y)%Q) →
  rankdata (map f a) = rankdata a.
Proof. intros Hf. by apply rankdata_map. Qed.

Lemma rankdata_monotone_invariant_witness :
  rankdata (map (fun x => 2 * x + 1)%Q [3; 1; 2; 2]%Q) = rankdata [3; 1; 2; 2]%Q.
Proof.
  apply (rankdata_monotone_invariant (fun x => 2 * x + 1)%Q).
  intros x y. split; intros H.
  - apply Qplus_lt_le_compat; [|apply Qle_refl].
    rewrite !(Qmult_comm 2). by apply Qmult_lt_compat_r.
  - apply Qplus_lt_l in H. rewrite !(Qmult_comm 2) in H.
    by apply Qmult_lt_r in H.
Defined.

Lemma sum_nat_bounds (lo hi : nat) (l : list nat) :
  (∀ p, In p l → (lo ≤ p ≤ hi)%nat) →
  (lo * length l ≤ sum_nat l ≤ hi * length l)%nat.
Proof.
  induction l as [|p l IH]; intros H; simpl; [lia|].
  pose proof (H p ltac:(by left)). fold (sum_nat l).
  specialize (IH ltac:(intros; apply H; by right)). lia.
Qed.

(** X3: every rank lies between 1 and the length of the list. *)
Theorem rankdata_bounds (a : list Q) (k : nat) :
  (k < length a)%nat →
  (1 <= nth k (rankdata a) 0)%Q
  ∧ (nth k (rankdata a) 0 <= inject_Z (Z.of_nat (length a)))%Q.
Proof.
  intros Hk. rewrite rankdata_nth by done. unfold average_rank.
  pose proof (tie_positions_nonempty a k Hk) as Hpos.
  pose proof (sum_nat_bounds 1 (length a) (tie_positions (getitem a k) a)) as Hb.
  destruct Hb as [Hlo Hhi].
  { intros p (p' & -> & Hp & _)%tie_positions_In. lia. }
  set (t := tie_positions (getitem a k) a) in *.
  assert (Hd : (0 < inject_Z (Z.of_nat (length t)))%Q).
  { rewrite <- (Zlt_Qlt 0). lia. }
  split.
  - apply Qle_shift_div_l; [done|].
    rewrite Qmult_1_l, <- Zle_Qle. lia.
  - apply Qle_shift_div_r; [done|].
    rewrite <- inject_Z_mult, <- Zle_Qle. lia.
Qed.

Lemma rankdata_bounds_witness :
  (1 <= nth 2 (rankdata [3; 1; 2; 2]%Q) 0)%Q
  ∧ (nth 2 (rankdata [3; 1; 2; 2]%Q) 0 <= 4)%Q.
Proof. apply (rankdata_bounds [3; 1; 2; 2]%Q 2). simpl. lia. Defined.
End rank_invariance.

(** ** When [pearson] returns *)

Section pearson_outcome.
Import Correlation.
Local Open Scope R_scope.

(** With fewer than two elements one of the divisions made before the
    [try] fails. *)
Lemma pearson_moments_short (A B : list R) :
  (length A < 2)%nat → pearson_moments A B = Raise ZeroDivisionError.
Proof.
  intros Hn. unfold pearson_moments.
  destruct A as [|a [|b A]]; simpl in Hn; [| |lia].
  - rewrite !(py_div_zero _ (INR (length (@nil R)))) by reflexivity.
    reflexivity.
  - rewrite !(py_div_ok _ (INR (length [a]))) by (simpl; lra).
    cbn [mbind result_bind].
    rewrite (py_div_zero 1 (INR (length [a]) - 1)) by (simpl; lra).
    reflexivity.
Qed.

(** With [B] at least as long as [A], the only exception of the
    [return] expression is the one that is caught. *)
Lemma pearson_returns (A B : list R) :
  (2 ≤ length A ≤ length B)%nat → ∃ r, (pearson A B).2 = Ok r.
Proof.
  intros [Hn Hlen]. unfold pearson. rewrite pearson_moments_ok by done.
  unfold pearson_quotient. rewrite products_ok by done.
  cbn [mbind result_bind]. unfold py_div.
  destruct (Req_dec_T _ 0); by eexists.
Qed.

Lemma pearson_index_error (A B : list R) :
  (2 ≤ length A)%nat → (length B < length A)%nat →
  (pearson A B).2 = Raise IndexError.
Proof.
  intros Hn Hlen. unfold pearson. rewrite pearson_moments_ok by done.
  unfold pearson_quotient. by rewrite products_short by done.
Qed.

(** X4: [pearson] returns a number exactly when [A] has at least two
    elements and [B] is at least as long as [A].  With a shorter [A] it
    raises [ZeroDivisionError]; otherwise, with a shorter [B], it raises
    [IndexError]. *)
Theorem pearson_returns_iff (A B : list R) :
  (is_ok (pearson A B).2 = true ↔ (2 ≤ length A ≤ length B)%nat)
  ∧ ((length A < 2)%nat → (pearson A B).2 = Raise ZeroDivisionError)
  ∧ ((2 ≤ length A)%nat → (length B < length A)%nat →
     (pearson A B).2 = Raise IndexError).
Proof.
  assert (Hshort : (length A < 2)%nat →
                   (pearson A B).2 = Raise ZeroDivisionError).
  { intros Hn. unfold pearson. by rewrite pearson_moments_short. }
  split; [|split; [exact Hshort|apply pearson_index_error]].
  split.
  - intros Hok.
    destruct (decide (length A < 2)%nat) as [Hn|Hn].
    { by rewrite Hshort in Hok. }
    destruct (decide (length B < length A)%nat) as [Hlen|Hlen]; [|lia].
    by rewrite pearson_index_error in Hok by lia.
  - intros H. by destruct (pearson_returns A B H) as [r ->].
Qed.

Lemma pearson_returns_iff_witness :
  is_ok (pearson [1; 2] [3; 1; 2]).2 = true
  ∧ (pearson [1] [3]).2 = Raise ZeroDivisionError
  ∧ (pearson [1; 2; 4] [3; 1]).2 = Raise IndexError.
Proof.
  destruct (pearson_returns_iff [1; 2] [3; 1; 2]) as ([_ H1] & _ & _).
  destruct (pearson_returns_iff [1] [3]) as (_ & H2 & _).
  destruct (pearson_returns_iff [1; 2; 4] [3; 1]) as (_ & _ & H3).
  split; [apply H1; simpl; lia|]. split; [apply H2|apply H3]; simpl; lia.
Defined.

(** X7: with fewer than two elements in [A], [pearson] raises
    [ZeroDivisionError]: the divisions by [n] and [n - 1] stand before
    the [try], so the warning is not printed and 0.0 is not returned. *)
Theorem pearson_too_short (A B : list R) :
  (length A < 2)%nat →
  (pearson A B).2 = Raise ZeroDivisionError
  ∧ msg_zero_division ∉ (pearson A B).1.
Proof.
  intros Hn. unfold pearson. rewrite pearson_moments_short by done.
  split; [done|]. cbn [fst].
  destruct (decide (length A = length B)); [set_solver|].
  intros [H|H%elem_of_nil]%elem_of_cons; [|done].
  by vm_compute in H.
Qed.

Lemma pearson_too_short_witness :
  (pearson [1] [1]).2 = Raise ZeroDivisionError
  ∧ msg_zero_division ∉ (pearson [1] [1]).1.
Proof. apply (pearson_too_short [1] [1]). simpl. lia. Defined.
End pearson_outcome.

(** ** Spearman correlation *)

Section spearman_rank.
Import RankCorrelation Correlation.

(** X9: [spearman] only looks at the order of the values within each
    list: order-preserving maps of the two lists change nothing. *)
Theorem spearman_monotone_invariant (f g : Q → Q) (A B : list Q) :
  (∀ x y, (x < y)%Q ↔ (f x < f y)%Q) →
  (∀ x y, (x < y)%Q ↔ (g x < g y)%Q) →
  spearman (map f A) (map g B) = spearman A B.
Proof.
  intros Hf Hg. unfold spearman.
  by rewrite (rankdata_map f Hf), (rankdata_map g Hg).
Qed.

Lemma spearman_monotone_invariant_witness :
  spearman (map (fun x => x + 1)%Q [3; 1; 2]%Q) (map (fun x => x + 2)%Q [1; 5; 2]%Q)
  = spearman [3; 1; 2]%Q [1; 5; 2]%Q.
Proof.
  apply (spearman_monotone_invariant (fun x => x + 1)%Q (fun x => x + 2)%Q);
    intros x y; split; intros H.
  - apply Qplus_lt_le_compat; [done|apply Qle_refl].
  - by apply Qplus_lt_l in H.
  - apply Qplus_lt_le_compat; [done|apply Qle_refl].
  - by apply Qplus_lt_l in H.
Defined.
End spearman_rank.

(** ** Standard deviations *)

Section statistics.
Import Correlation Statistics.
Local Open Scope R_scope.

Lemma Rsum_map_ext {A} (g h : A → R) (l : list A) :
  (∀ x, In x l → g x = h x) → Rsum (map g l) = Rsum (map h l).
Proof.
  induction l as [|x l IH]; intros H; simpl; [done|].
  rewrite (H x) by (by left). rewrite IH; [done|]. intros; apply H; by right.
Qed.

Lemma calc_std_dev_short (data : list R) :
  (length data < 2)%nat → calc_std_dev data = Raise ZeroDivisionError.
Proof.
  intros Hn. unfold calc_std_dev.
  destruct data as [|a [|b data]]; simpl in Hn; [| |lia].
  - rewrite (py_div_zero _ (INR (length (@nil R)))) by reflexivity. reflexivity.
  - rewrite (py_div_ok _ (INR (length [a]))) by (simpl; lra).
    cbn [mbind result_bind].
    rewrite (py_div_zero _ (INR (length [a]) - 1)) by (simpl; lra).
    reflexivity.
Qed.

(** X11: [calc_std_dev] raises [ZeroDivisionError] for fewer than two
    data points: for none at the mean, for one at the variance. *)
Theorem calc_std_dev_too_short (data : list R) :
  (length data < 2)%nat → calc_std_dev data = Raise ZeroDivisionError.
Proof. apply calc_std_dev_short. Qed.

Lemma calc_std_dev_too_short_witness :
  calc_std_dev [] = Raise ZeroDivisionError
  ∧ calc_std_dev [3] = Raise ZeroDivisionError.
Proof. split; apply calc_std_dev_too_short; simpl; lia. Defined.
End statistics.

(** ** The weighted standard deviation *)

Section weighted_statistics.
Import Correlation Statistics.
Local Open Scope R_scope.

Lemma weighted_squares_shift (d w mu : R) (data weights : list R) (idxs : list nat) :
  weighted_squares (d :: data) (w :: weights) mu (map S idxs)
  = weighted_squares data weights mu idxs.
Proof.
  induction idxs as [|i idxs IH]; [done|].
  cbn [map weighted_squares]. by rewrite IH.
Qed.

Lemma weighted_squares_ok (data weights : list R) (mu : R) :
  (length data ≤ length weights)%nat →
  weighted_squares data weights mu (seq 0 (length data))
  = Ok (zip_with (fun d w => w * (d - mu) ^ 2) data weights).
Proof.
  revert weights. induction data as [|d data IH]; intros [|w weights] Hlen;
    simpl in Hlen; try lia; [done..|].
  cbn [length seq]. rewrite <- seq_shift.
  cbn [weighted_squares]. rewrite weighted_squares_shift, IH by lia. done.
Qed.

Lemma count_nonzero_from (weights : list R) (m0 : nat) :
  fold_left (fun m i => if Req_dec_T i 0 then m else (m + 1)%nat) weights m0
  = (m0 + count_nonzero weights)%nat.
Proof.
  unfold count_nonzero. revert m0.
  induction weights as [|w weights IH]; intros m0; simpl; [lia|].
  destruct (Req_dec_T w 0); [apply IH|].
  rewrite IH, (IH 1%nat). lia.
Qed.

Lemma count_nonzero_cons (w : R) (weights : list R) :
  count_nonzero (w :: weights)
  = ((if Req_dec_T w 0 then 0 else 1) + count_nonzero weights)%nat.
Proof.
  unfold count_nonzero at 1. simpl.
  destruct (Req_dec_T w 0); [done|]. apply (count_nonzero_from _ 1).
Qed.

Lemma count_nonzero_ones (n : nat) : count_nonzero (replicate n 1) = n.
Proof.
  induction n as [|n IH]; [done|].
  cbn [replicate]. rewrite count_nonzero_cons, IH.
  destruct (Req_dec_T 1 0); [lra|done].
Qed.

Lemma Rsum_ones (n : nat) : Rsum (replicate n 1) = INR n.
Proof.
  induction n as [|n IH]; [done|].
  cbn [replicate Rsum fold_right]. fold (Rsum (replicate n 1)).
  rewrite IH, S_INR. lra.
Qed.

Lemma zip_with_ones {X} (g : R → R → X) (data : list R) (n : nat) :
  (length data ≤ n)%nat →
  zip_with g data (replicate n 1) = map (fun d => g d 1) data.
Proof.
  revert n. induction data as [|d data IH]; intros [|n] Hn;
    simpl in *; try lia; try done.
  by rewrite IH by lia.
Qed.

(** The weights the code works with. *)
Lemma calc_weighted_std_dev_unfold (data weights : list R) :
  data ≠ [] →
  let n := length data in
  let ws := if bool_decide (weights = []) || (length weights <? n)%nat
            then replicate n 1 else weights in
  let w_mean := Rsum (zip_with Rmult data ws) / Rsum ws in
  let m := count_nonzero ws in
  calc_weighted_std_dev data weights
  = (_ ← py_div (Rsum (zip_with Rmult data ws)) (Rsum ws);
     den ← py_div ((INR m - 1) * Rsum ws) (INR m);
     variance ← py_div
       (Rsum (zip_with (fun d w => w * (d - w_mean) ^ 2) data ws)) den;
     math_sqrt variance).
Proof.
  intros Hne n ws w_mean m. unfold calc_weighted_std_dev. fold n.
  destruct (Nat.eqb_spec n 0) as [H0|_].
  { destruct data; [done|discriminate]. }
  fold ws.
  assert (Hlen : (length data ≤ length ws)%nat).
  { unfold ws. destruct (bool_decide (weights = [])); cbn [orb].
    - by rewrite length_replicate.
    - destruct (Nat.ltb_spec (length weights) n); [by rewrite length_replicate|done]. }
  rewrite products_ok by done. cbn [mbind result_bind].
  destruct (Req_dec_T (Rsum ws) 0) as [H0|H0].
  { rewrite !(py_div_zero _ (Rsum ws)) by done. reflexivity. }
  rewrite !(py_div_ok _ (Rsum ws)) by done. cbn [mbind result_bind].
  fold w_mean. rewrite weighted_squares_ok by done. reflexivity.
Qed.

Lemma calc_weighted_std_dev_ones (data weights : list R) :
  data ≠ [] →
  weights = [] ∨ (length weights < length data)%nat →
  calc_weighted_std_dev data weights = calc_std_dev data.
Proof.
  intros Hne Hw. rewrite calc_weighted_std_dev_unfold by done. cbv zeta.
  set (n := length data).
  assert (Hws : (if bool_decide (weights = []) || (length weights <? n)%nat
                 then replicate n 1 else weights) = replicate n 1).
  { destruct Hw as [->|Hlt]; [done|].
    destruct (bool_decide (weights = [])); [done|]. cbn [orb].
    by destruct (Nat.ltb_spec (length weights) n); [|lia]. }
  rewrite Hws. clear Hws.
  rewrite count_nonzero_ones, Rsum_ones, !zip_with_ones by done.
  assert (Hn : (1 ≤ n)%nat).
  { unfold n. destruct data; [done|simpl; lia]. }
  assert (Hn1 : 1 <= INR n) by (apply (le_INR 1); lia).
  rewrite (Rsum_map_ext (fun d => d * 1) (fun d => d)) by (intros; ring).
  rewrite map_id.
  rewrite (py_div_ok _ (INR n)) by lra. cbn [mbind result_bind].
  rewrite (py_div_ok _ (INR n)) by lra. cbn [mbind result_bind].
  replace ((INR n - 1) * INR n / INR n) with (INR n - 1) by (field; lra).
  rewrite (Rsum_map_ext (fun d => 1 * (d - Rsum data / INR n) ^ 2)
                        (fun d => (d - Rsum data / INR n) ^ 2))
    by (intros; ring).
  unfold calc_std_dev. fold n.
  rewrite (py_div_ok _ (INR n)) by lra. done.
Qed.

(** X14: without weights, or with fewer weights than data points, every
    weight is 1.0 and [calc_weighted_std_dev] has the outcome of
    [calc_std_dev] on non-empty data, including the [ZeroDivisionError]
    for a single data point; on empty data it returns 0.0, where
    [calc_std_dev] raises. *)
Theorem calc_weighted_std_dev_default (data weights : list R) :
  weights = [] ∨ (length weights < length data)%nat →
  (data ≠ [] → calc_weighted_std_dev data weights = calc_std_dev data)
  ∧ (data = [] → calc_weighted_std_dev data weights = Ok 0
                 ∧ calc_std_dev data = Raise ZeroDivisionError).
Proof.
  intros Hw. split.
  - intros Hne. by apply calc_weighted_std_dev_ones.
  - intros ->. split; [done|]. by apply calc_std_dev_short; simpl; lia.
Qed.

Lemma calc_weighted_std_dev_default_witness :
  calc_weighted_std_dev [1; 2; 4] [1] = calc_std_dev [1; 2; 4].
Proof.
  apply (calc_weighted_std_dev_default [1; 2; 4] [1]); [right; simpl; lia|done].
Defined.
End weighted_statistics.

(** ** Closeness of two numbers *)

Section closeness.
Import Statistics.
Local Open Scope R_scope.

Lemma isclose_true (a b rel_tol abs_tol : R) :
  isclose a b rel_tol abs_tol = true
  ↔ Rabs (a - b) <= Rmax (rel_tol * Rmax (Rabs a) (Rabs b)) abs_tol.
Proof. unfold isclose. by destruct (Rle_dec _ _). Qed.

(** X17: [isclose] does not depend on the order of the two values, and
    with a non-negative relative tolerance every number is close to
    itself. *)
Theorem isclose_symmetric (a b rel_tol abs_tol : R) :
  isclose a b rel_tol abs_tol = isclose b a rel_tol abs_tol
  ∧ (0 <= rel_tol → isclose a a rel_tol abs_tol = true).
Proof.
  split.
  - unfold isclose. by rewrite (Rabs_minus_sym a b), (Rmax_comm (Rabs a)).
  - intros Hr. apply isclose_true.
    replace (a - a) with 0 by ring. rewrite Rabs_R0.
    eapply Rle_trans; [|apply Rmax_l].
    apply Rmult_le_pos; [done|].
    eapply Rle_trans; [apply Rabs_pos|apply Rmax_l].
Qed.

Lemma isclose_symmetric_witness :
  isclose 1 2 default_rel_tol default_abs_tol
  = isclose 2 1 default_rel_tol default_abs_tol
  ∧ isclose 1 1 default_rel_tol default_abs_tol = true.
Proof.
  destruct (isclose_symmetric 1 2 default_rel_tol default_abs_tol) as [H1 _].
  destruct (isclose_symmetric 1 1 default_rel_tol default_abs_tol) as [_ H2].
  split; [exact H1|]. apply H2. unfold default_rel_tol. lra.
Defined.

Lemma isclose_zero_rel (x rel_tol : R) :
  0 <= rel_tol < 1 →
  isclose x 0 rel_tol default_abs_tol = true ↔ x = 0.
Proof.
  intros [Hr0 Hr1]. rewrite isclose_true. unfold default_abs_tol.
  rewrite Rminus_0_r, Rabs_R0.
  pose proof (Rabs_pos x) as Hx.
  rewrite (Rmax_left (Rabs x) 0) by done.
  assert (Hrx : 0 <= rel_tol * Rabs x) by (by apply Rmult_le_pos).
  rewrite (Rmax_left _ 0) by done.
  split.
  - intros Hle.
    destruct (Req_dec_T x 0) as [|Hne]; [done|].
    apply Rabs_pos_lt in Hne.
    assert (rel_tol * Rabs x < 1 * Rabs x) by (by apply Rmult_lt_compat_r).
    lra.
  - intros ->. rewrite Rabs_R0. lra.
Qed.

(** X18: with the default tolerances ([rel_tol = 1e-9] and no absolute
    tolerance) the only finite number that is close to zero is zero
    itself. *)
Theorem isclose_zero (x : R) :
  isclose x 0 default_rel_tol default_abs_tol = true ↔ x = 0.
Proof. apply isclose_zero_rel. unfold default_rel_tol. lra. Qed.
End closeness.

(** ** Folders that cannot be created *)

Section folders_refused.
Import Conformers.

Lemma list_pair_ind {A} (P : list A → Prop) :
  P [] → (∀ x, P [x]) → (∀ x y l, P l → P (x :: y :: l)) → ∀ l, P l.
Proof.
  intros H0 H1 H2.
  assert (H : ∀ l, P l ∧ ∀ x, P (x :: l)).
  { induction l as [|y l [IH1 IH2]]; [by split|].
    split; [apply IH2|]. intros x. by apply H2. }
  intros l. apply H.
Qed.

Lemma py_index_middle {A} `{EqDecision A} (pre rest : list A) (x : A) :
  x ∉ pre → py_index (pre ++ x :: rest) x = Ok (length pre).
Proof.
  induction pre as [|y pre IH]; intros Hx; cbn [app py_index length].
  - by rewrite decide_True.
  - apply not_elem_of_cons in Hx as [Hne Hx].
    rewrite decide_False by done. by rewrite IH.
Qed.

Lemma delete_middle {A} (pre rest : list A) (x : A) :
  delete (length pre) (pre ++ x :: rest) = pre ++ rest.
Proof.
  induction pre as [|y pre IH]; [done|].
  cbn [length app]. change (delete (S ?n) (?a :: ?l)) with (a :: delete n l).
  by rewrite IH.
Qed.

Section loop.
Variables (refuses : string → bool) (h : loc → conformer)
          (cwd foldername : string).

Local Abbreviation path conf :=
  (Paths.os_path_join cwd [tag_of (h conf); foldername]).
Local Abbreviation error_of conf :=
  (tag_of (h conf) +:+ " was removed, because IO failed!").
Local Abbreviation lines_of conf :=
  ["OSError";
   "ERROR: Could not create folder for " +:+ tag_of (h conf) +:+ "!";
   tag_of (h conf) +:+ " is removed, because IO failed!"].

(** A conformer whose folder cannot be created is moved to the store. *)
Lemma new_folders_body_refused (pre rest : list loc) (conf : loc)
    (st : folders_state) :
  conflist st = pre ++ conf :: rest → conf ∉ pre →
  refuses (path conf) = true → path conf ∉ nf_dirs st →
  new_folders_body refuses h cwd foldername conf st
  = Ok {| conflist := pre ++ rest;
          nf_store_confs := nf_store_confs st ++ [conf];
          nf_save_errors := nf_save_errors st ++ [error_of conf];
          nf_dirs := nf_dirs st;
          nf_printed := nf_printed st ++ lines_of conf |}.
Proof.
  intros Hl Hpre Href Hdir. unfold new_folders_body, mkdir_p, makedirs.
  repeat (destruct (decide (path conf ∈ nf_dirs st)) as [|_]; [done|]).
  rewrite Href.
  repeat (destruct (decide (path conf ∈ nf_dirs st)) as [|_]; [done|]).
  rewrite Hl, py_index_middle by done. cbn [mbind result_bind].
  unfold py_getitem.
  rewrite lookup_app_r, Nat.sub_diag by done. cbn [lookup list_lookup].
  cbn [mbind result_bind]. by rewrite delete_middle.
Qed.

(** When no folder can be created, the iteration evicts the conformer it
    is at and then steps over the one that took its place. *)
Lemma new_folders_loop_refused (rest : list loc) :
  ∀ (fuel : nat) (pre : list loc) (st : folders_state),
    conflist st = pre ++ rest → NoDup (pre ++ rest) →
    (length rest ≤ fuel)%nat →
    (∀ conf, conf ∈ rest →
       refuses (path conf) = true ∧ path conf ∉ nf_dirs st) →
    new_folders_loop fuel refuses h cwd foldername (length pre) st
    = Some (Ok {| conflist := pre ++ odd_positions rest;
                  nf_store_confs := nf_store_confs st ++ even_positions rest;
                  nf_save_errors :=
                    nf_save_errors st
                    ++ map (fun conf => error_of conf) (even_positions rest);
                  nf_dirs := nf_dirs st;
                  nf_printed :=
                    nf_printed st
                    ++ concat (map (fun conf => lines_of conf)
                                   (even_positions rest)) |}).
Proof.
  induction rest as [|x|x y rest IH] using list_pair_ind;
    intros fuel pre st Hl Hnd Hfuel Hall.
  - destruct fuel; cbn [new_folders_loop];
      rewrite Hl, app_nil_r, (lookup_ge_None_2 pre) by done;
      destruct st; cbn in *; subst; by rewrite !app_nil_r.
  - destruct fuel as [|fuel]; [simpl in Hfuel; lia|].
    cbn [new_folders_loop].
    rewrite Hl, lookup_app_r, Nat.sub_diag by done. cbn [lookup list_lookup].
    apply NoDup_app in Hnd as (_ & Hdisj & _).
    destruct (Hall x ltac:(by left)) as [Href Hdir].
    rewrite (new_folders_body_refused pre [] x st); [|done| |done..].
    2:{ intros Hx. apply (Hdisj x Hx). by left. }
    destruct fuel; cbn [new_folders_loop conflist];
      rewrite app_nil_r, (lookup_ge_None_2 pre) by lia;
      cbn; by rewrite !app_nil_r.
  - destruct fuel as [|fuel]; [simpl in Hfuel; lia|].
    cbn [new_folders_loop].
    rewrite Hl, lookup_app_r, Nat.sub_diag by done. cbn [lookup list_lookup].
    pose proof Hnd as Hnd'.
    apply NoDup_app in Hnd' as (_ & Hdisj & _).
    destruct (Hall x ltac:(by left)) as [Href Hdir].
    rewrite (new_folders_body_refused pre (y :: rest) x st); [|done| |done..].
    2:{ intros Hx. apply (Hdisj x Hx). by left. }
    replace (S (length pre)) with (length (pre ++ [y]))
      by (rewrite length_app; simpl; lia).
    rewrite (IH fuel (pre ++ [y])); cbn [conflist nf_store_confs nf_save_errors
                                          nf_dirs nf_printed].
    + cbn [even_positions odd_positions map concat].
      do 2 f_equal. f_equal; rewrite <- ?app_assoc; done.
    + by rewrite <- app_assoc.
    + rewrite <- app_assoc. cbn [app].
      apply NoDup_app in Hnd as (Hpre & Hd & Hrest).
      apply NoDup_cons in Hrest as [_ Hrest].
      apply NoDup_app. split; [done|]. split; [|done].
      intros z Hz Hz'. apply (Hd z Hz). by right.
    + simpl in Hfuel. lia.
    + intros conf Hconf. apply Hall. by do 2 right.
Qed.
End loop.

(** X19: removing from the list that is being iterated makes the loop of
    [new_folders] step over the next conformer: when no folder can be
    created, only the conformers at the positions 0, 2, 4, ... are moved
    to the store (with their error lines); those at the positions 1, 3,
    5, ... stay in the active list, although they have no folder. *)
Theorem new_folders_skips refuses cwd foldername silent (st : state) :
  NoDup (conformers st) →
  (∀ conf, conf ∈ conformers st →
     refuses (Paths.os_path_join cwd [tag_of (heap st conf); foldername]) = true
     ∧ Paths.os_path_join cwd [tag_of (heap st conf); foldername] ∉ dirs st) →
  ∃ printed st',
    new_folders refuses cwd foldername silent st = Some (Ok (printed, st'))
    ∧ conformers st' = odd_positions (conformers st)
    ∧ store_confs st' = store_confs st ++ even_positions (conformers st)
    ∧ save_errors st'
      = save_errors st
        ++ map (fun conf => tag_of (heap st conf)
                            +:+ " was removed, because IO failed!")
               (even_positions (conformers st))
    ∧ dirs st' = dirs st.
Proof.
  intros Hnd Hall. unfold new_folders.
  rewrite (new_folders_loop_refused refuses (heap st) cwd foldername
             (conformers st) (length (conformers st)) []); [|done..].
  cbn [mbind option_bind result_bind]. do 2 eexists. split; [done|]. done.
Qed.

Lemma new_folders_skips_witness :
  ∃ printed st',
    new_folders (fun _ => true) "cwd" "part1" true example_state
    = Some (Ok (printed, st'))
    ∧ conformers st' = [1%nat]
    ∧ store_confs st' = [0%nat].
Proof.
  destruct (new_folders_skips (fun _ => true) "cwd" "part1" true example_state)
    as (printed & st' & Hrun & Hc & Hs & _).
  - by apply (bool_decide_unpack _).
  - intros conf _. split; [done|]. apply not_elem_of_empty.
  - exists printed, st'. by repeat split.
Defined.
End folders_refused.

(** ** What the duplicate check removes *)

Section crest_removal.
Import Conformers.

Lemma mark_removed_tag (conf : loc) (st : state) (l : loc) :
  tag_of (heap (mark_removed conf st) l) = tag_of (heap st l).
Proof. unfold tag_of. by rewrite mark_removed_id. Qed.

Lemma mark_removed_other (conf : loc) (st : state) (l : loc) :
  l ≠ conf → heap (mark_removed conf st) l = heap st l.
Proof. intros Hne. unfold mark_removed. cbn [heap]. by rewrite fn_lookup_insert_ne. Qed.

(** A removal loop over a list without repeated references keeps the
    conformers whose tag is in [keep], in their order, and moves the
    others to the store, marked as removed. *)
Lemma remove_loop_filter (src : source) (keep : list string) (snapshot : list loc) :
  ∀ (pre : list loc) (st : state) (printed : list string),
    source_list src st = pre ++ snapshot → NoDup (pre ++ snapshot) →
    ∃ st' printed',
      remove_loop src keep snapshot st printed = (st', printed', Ok tt)
      ∧ source_list src st'
        = pre ++ filter (fun l => tag_of (heap st l) ∈ keep) snapshot
      ∧ other_list src st' = other_list src st
      ∧ store_confs st'
        = store_confs st ++ filter (fun l => tag_of (heap st l) ∉ keep) snapshot
      ∧ (∀ l, heap st' l
              = if decide (l ∈ snapshot ∧ tag_of (heap st l) ∉ keep)
                then heap (mark_removed l st) l else heap st l).
Proof.
  induction snapshot as [|conf snapshot IH]; intros pre st printed Hl Hnd.
  - exists st, printed. cbn [remove_loop]. split; [done|].
    split; [by rewrite Hl|]. split; [done|]. split; [by rewrite app_nil_r|].
    intros l. rewrite decide_False; [done|]. by intros [?%elem_of_nil _].
  - cbn [remove_loop].
    assert (Hconf : (conf ∉ snapshot) ∧ (conf ∉ pre)).
    { apply NoDup_app in Hnd as (_ & Hd & Hs).
      apply NoDup_cons in Hs as [Hs _]. split; [done|].
      intros Hc. apply (Hd conf Hc). by left. }
    destruct Hconf as [Hcs Hcd].
    destruct (decide (tag_of (heap st conf) ∈ keep)) as [Hk|Hk].
    + destruct (IH (pre ++ [conf]) st printed) as (st' & printed' & -> & H1 & H2 & H3 & H4).
      { by rewrite <- app_assoc. } { by rewrite <- app_assoc. }
      exists st', printed'. split; [done|].
      rewrite filter_cons_True by done.
      rewrite (filter_cons_False (fun l => tag_of (heap st l) ∉ keep)) by tauto.
      split; [by rewrite H1, <- app_assoc|]. split; [done|]. split; [done|].
      intros l. rewrite H4.
      destruct (decide (l ∈ snapshot ∧ _)) as [[Ha Hb]|Hn].
      * rewrite decide_True; [done|]. split; [by right|done].
      * rewrite decide_False; [done|].
        intros [[->|Ha]%elem_of_cons Hb]; [done|]. by apply Hn.
    + set (st1 := mark_removed conf st).
      assert (Hsrc1 : source_list src st1 = pre ++ conf :: snapshot).
      { rewrite <- Hl. by destruct src. }
      rewrite Hsrc1, py_index_middle by done.
      unfold py_getitem.
      rewrite lookup_app_r, Nat.sub_diag by done. cbn [lookup list_lookup].
      rewrite delete_middle.
      set (st2 := append_store conf (set_source_list src (pre ++ snapshot) st1)).
      assert (Hheap2 : heap st2 = heap st1) by (by destruct src).
      assert (Htag : ∀ l, tag_of (heap st2 l) = tag_of (heap st l)).
      { intros l. rewrite Hheap2. apply mark_removed_tag. }
      destruct (IH pre st2 (printed ++ [msg_removing (heap st1 conf)]))
        as (st' & printed' & -> & H1 & H2 & H3 & H4).
      { by destruct src. }
      { apply NoDup_app in Hnd as (Hd & Hdisj & Hs).
        apply NoDup_cons in Hs as [_ Hs].
        apply NoDup_app. split; [done|]. split; [|done].
        intros z Hz Hz'. apply (Hdisj z Hz). by right. }
      exists st', printed'. split; [done|].
      rewrite filter_cons_False by done.
      rewrite (filter_cons_True (fun l => tag_of (heap st l) ∉ keep)) by done.
      split; [|split; [|split]].
      * rewrite H1. f_equal. apply list_filter_iff. intros l. by rewrite Htag.
      * rewrite H2. by destruct src.
      * rewrite H3.
        replace (store_confs st2) with (store_confs st ++ [conf])
          by (by destruct src).
        rewrite <- app_assoc. cbn [app]. do 2 f_equal.
        apply list_filter_iff. intros l. by rewrite Htag.
      * intros l. rewrite H4, Htag.
        destruct (decide (l = conf)) as [->|Hne].
        -- rewrite decide_False by (by intros [? _]).
           rewrite decide_True by (split; [by left|done]).
           by rewrite Hheap2.
        -- assert (Hsame : heap st2 l = heap st l).
           { rewrite Hheap2. unfold st1. by apply mark_removed_other. }
           destruct (decide (l ∈ snapshot ∧ _)) as [[Ha Hb]|Hn].
           ++ rewrite decide_True by (split; [by right|done]).
              unfold mark_removed. cbn [heap].
              by rewrite !fn_lookup_insert, Hsame.
           ++ rewrite decide_False; [done|].
              intros [[->|Ha]%elem_of_cons Hb]; [done|]. by apply Hn.
Qed.

(** A line of [enso.tags] with fewer than two words ends the reading
    with an [IndexError]. *)
Lemma read_keep_short (store : list string) (keep : list string) (line : string) :
  line ∈ store → (length (py_split line) < 2)%nat →
  ∃ keep' e, read_keep store keep = (keep', Raise e).
Proof.
  revert keep. induction store as [|l store IH]; intros keep Hin Hshort.
  - by apply elem_of_nil in Hin.
  - cbn [read_keep]. unfold py_getitem.
    destruct (py_split l !! 1%nat) as [token|] eqn:Htok.
    + apply elem_of_cons in Hin as [->|Hin].
      * apply lookup_lt_Some in Htok. lia.
      * by apply IH.
    + by do 2 eexists.
Qed.

Section routine.
Variable format_20_8f : Q → string.

(** X20: with [crestcheck] set and a readable [enso.tags], the active
    list and the previously calculated list each keep exactly the
    conformers whose tag the file names, in their order; the others are
    appended to the store, first those of the active list, and are the
    only conformers that change: they are marked as calculated and
    removed. *)
Theorem crest_routine_removes (w : world) (st : state)
    (store keep : list string) :
  w_tags w = Some store → read_keep store [] = (keep, Ok tt) →
  w_crestcheck w = true → w_launch_ok w = true →
  (∀ c, c ∈ merged_candidates st → is_ok (w_t2x w (id c)) = true) →
  NoDup (conformers st) → NoDup (prev_calculated st) →
  let kept l := tag_of (heap st l) ∈ keep in
  let removed l := tag_of (heap st l) ∉ keep in
  ∃ printed xyz st',
    crest_routine format_20_8f w st = (printed, xyz, Ok st')
    ∧ conformers st' = filter kept (conformers st)
    ∧ prev_calculated st' = filter kept (prev_calculated st)
    ∧ store_confs st'
      = store_confs st ++ filter removed (conformers st)
        ++ filter removed (prev_calculated st)
    ∧ ∀ l, heap st' l
           = if decide (l ∈ conformers st ++ prev_calculated st ∧ removed l)
             then heap (mark_removed l st) l else heap st l.
Proof.
  intros Htags Hkeep Hcheck Hlaunch Hok Hnd1 Hnd2 kept removed.
  unfold crest_routine, removal_step.
  rewrite !write_pass_ok by done. rewrite Htags, Hlaunch, Hcheck, Hkeep.
  cbn [negb].
  match goal with
  | |- context [remove_loop Active keep _ st ?p] => set (printed0 := p)
  end.
  destruct (remove_loop_filter Active keep (conformers st) [] st printed0)
    as (st1 & printed1 & -> & Ha1 & Ha2 & Ha3 & Ha4); [done..|].
  cbn [source_list other_list app] in *.
  assert (Htag1 : ∀ l, tag_of (heap st1 l) = tag_of (heap st l)).
  { intros l. rewrite Ha4. destruct (decide _); [|done].
    apply mark_removed_tag. }
  destruct (remove_loop_filter Previous keep (prev_calculated st1) [] st1 printed1)
    as (st2 & printed2 & -> & Hb1 & Hb2 & Hb3 & Hb4);
    [done|by rewrite Ha2|].
  cbn [source_list other_list app] in *.
  exists printed2, (concat (map (candidate_block format_20_8f w) (merged_candidates st))
                    ++ concat (map (candidate_block format_20_8f w) (merged_candidates st))),
         st2.
  split; [done|].
  split; [by rewrite Hb2, Ha1|].
  split.
  { rewrite Hb1, Ha2. apply list_filter_iff. intros l. unfold kept.
    by rewrite Htag1. }
  split.
  { rewrite Hb3, Ha3, Ha2, <- app_assoc. do 2 f_equal.
    apply list_filter_iff. intros l. unfold removed. by rewrite Htag1. }
  intros l. rewrite Hb4, Ha2, Htag1.
  destruct (decide (l ∈ prev_calculated st ∧ _)) as [[Hp Hr]|Hn].
  - rewrite decide_True by (split; [apply elem_of_app; by right|done]).
    unfold mark_removed. cbn [heap]. rewrite !fn_lookup_insert.
    rewrite Ha4. destruct (decide _); [|done].
    unfold mark_removed. cbn [heap]. by rewrite fn_lookup_insert.
  - rewrite Ha4.
    destruct (decide (l ∈ conformers st ∧ _)) as [[Hc Hr]|Hn'].
    + by rewrite decide_True by (split; [apply elem_of_app; by left|done]).
    + rewrite decide_False; [done|].
      intros [[Hc|Hp]%elem_of_app Hr]; [by apply Hn'|by apply Hn].
Qed.

(** X21: one line of [enso.tags] with fewer than two words is enough to
    switch the removal off: the [IndexError] is caught before the first
    conformer is looked at, and the call leaves every list and every
    conformer as it was. *)
Theorem crest_routine_malformed_tags (w : world) (st : state)
    (store : list string) (line : string) :
  w_tags w = Some store → line ∈ store → (length (py_split line) < 2)%nat →
  after_crest format_20_8f w st = st.
Proof.
  intros Htags Hin Hshort. unfold after_crest, crest_routine, removal_step.
  rewrite Htags.
  destruct (read_keep_short store [] line Hin Hshort) as (keep' & e & ->).
  destruct (write_pass _ w _ []) as [out1 [[]|e1]]; [|done].
  destruct (write_pass _ w _ out1) as [xyz [[]|e2]]; [|done].
  destruct (negb (w_launch_ok w)); [done|].
  by destruct (w_crestcheck w).
Qed.
End routine.

Lemma crest_routine_removes_witness :
  ∃ printed xyz st',
    crest_routine example_format (example_world (Some example_tags)) example_state
    = (printed, xyz, Ok st')
    ∧ conformers st' = [0%nat]
    ∧ prev_calculated st' = [2%nat]
    ∧ store_confs st' = [1%nat].
Proof.
  destruct (crest_routine_removes example_format
              (example_world (Some example_tags)) example_state
              example_tags ["CONF1"; "CONF3"])
    as (printed & xyz & st' & Hrun & Hc & Hp & Hs & _).
  - reflexivity.
  - reflexivity.
  - reflexivity.
  - reflexivity.
  - intros c _. reflexivity.
  - by apply (bool_decide_unpack _).
  - by apply (bool_decide_unpack _).
  - exists printed, xyz, st'. split; [exact Hrun|].
    split; [by rewrite Hc|]. split; [by rewrite Hp|]. by rewrite Hs.
Defined.

Lemma crest_routine_malformed_tags_witness :
  after_crest example_format (example_world (Some ["1 !CONF1 x"; ""]))
    example_state = example_state.
Proof.
  apply (crest_routine_malformed_tags example_format
           (example_world (Some ["1 !CONF1 x"; ""])) example_state
           ["1 !CONF1 x"; ""] "").
  - reflexivity.
  - set_solver.
  - simpl. lia.
Defined.
End crest_removal.

(** ** Paths *)

Section paths.
Import Conformers Paths.

Lemma append_cons (c : ascii) (s t : string) :
  String c s +:+ t = String c (s +:+ t).
Proof. done. Qed.

Lemma append_nil_l (t : string) : "" +:+ t = t.
Proof. done. Qed.

Lemma cut_last_sep_no_sep (b : string) :
  no_sep b = true → cut_last_sep b = ("", b).
Proof.
  induction b as [|c b IH]; [done|].
  cbn [no_sep cut_last_sep]. intros [Hc Hb]%andb_true_iff.
  rewrite (IH Hb). apply negb_true_iff in Hc. by rewrite Hc.
Qed.

Lemma cut_last_sep_join (s b : string) :
  no_sep b = true → cut_last_sep (join s b) = (s +:+ "/", b).
Proof.
  intros Hb. unfold join. induction s as [|c s IH].
  - rewrite append_nil_l. change ("/" +:+ b) with (String sep b).
    cbn [cut_last_sep]. by rewrite (cut_last_sep_no_sep b Hb).
  - rewrite (append_cons c s). cbn [cut_last_sep]. rewrite IH.
    by destruct s.
Qed.

Lemma rstrip_sep_slash (s : string) : rstrip_sep (s +:+ "/") = rstrip_sep s.
Proof.
  induction s as [|c s IH]; [done|].
  rewrite (append_cons c s). cbn [rstrip_sep]. by rewrite IH.
Qed.

Lemma rstrip_sep_no_sep (a : string) :
  no_sep a = true → a ≠ "" → rstrip_sep a = a.
Proof.
  induction a as [|c a IH]; [done|].
  cbn [no_sep rstrip_sep]. intros [Hc Ha]%andb_true_iff _.
  apply negb_true_iff in Hc.
  destruct a as [|c' a]; [cbn [rstrip_sep]; by rewrite Hc|].
  by rewrite (IH Ha).
Qed.

Lemma rstrip_sep_app (x a : string) :
  rstrip_sep a ≠ "" → rstrip_sep (x +:+ a) = x +:+ rstrip_sep a.
Proof.
  intros Ha. induction x as [|c x IH]; [done|].
  rewrite !(append_cons c x). cbn [rstrip_sep]. rewrite IH.
  destruct x as [|c' x]; [|done].
  rewrite append_nil_l. by destruct (rstrip_sep a).
Qed.

Lemma all_sep_app (x y : string) : all_sep (x +:+ y) = all_sep x && all_sep y.
Proof.
  induction x as [|c x IH]; [done|].
  rewrite (append_cons c x). cbn [all_sep]. by rewrite IH, andb_assoc.
Qed.

Lemma all_sep_no_sep (a : string) : no_sep a = true → a ≠ "" → all_sep a = false.
Proof.
  destruct a as [|c a]; [done|]. cbn [no_sep all_sep].
  intros [Hc _]%andb_true_iff _. apply negb_true_iff in Hc. by rewrite Hc.
Qed.

Lemma ends_with_sep_no_sep (a : string) : no_sep a = true → ends_with_sep a = false.
Proof.
  induction a as [|c a IH]; [done|].
  cbn [no_sep ends_with_sep]. intros [Hc Ha]%andb_true_iff.
  apply negb_true_iff in Hc. destruct a; [done|]. by apply IH.
Qed.

Lemma ends_with_sep_app (x a : string) :
  a ≠ "" → ends_with_sep (x +:+ a) = ends_with_sep a.
Proof.
  intros Ha. induction x as [|c x IH]; [done|].
  rewrite (append_cons c x). cbn [ends_with_sep]. rewrite IH.
  destruct x; [by destruct a|done].
Qed.

Lemma starts_with_sep_no_sep (b : string) : no_sep b = true → starts_with_sep b = false.
Proof.
  destruct b as [|c b]; [done|]. cbn [no_sep starts_with_sep].
  intros [Hc _]%andb_true_iff. by apply negb_true_iff in Hc.
Qed.

Lemma is_empty_app (x a : string) : a ≠ "" → is_empty (x +:+ a) = false.
Proof. intros Ha. destruct x; [by destruct a|done]. Qed.

(** Splitting a path of at least two components. *)
Lemma os_path_split_join (p a b : string) :
  no_sep a = true → a ≠ "" → no_sep b = true →
  os_path_split (join (join p a) b) = (join p a, b).
Proof.
  intros Ha Hne Hb. unfold os_path_split.
  rewrite cut_last_sep_join by done.
  assert (Hhead : is_empty (join p a +:+ "/") = false) by (by apply is_empty_app).
  assert (Hall : all_sep (join p a +:+ "/") = false).
  { unfold join. rewrite !all_sep_app, (all_sep_no_sep a) by done.
    by rewrite !andb_false_r. }
  rewrite Hhead, Hall. cbn [negb andb]. f_equal.
  rewrite rstrip_sep_slash. unfold join.
  rewrite <- append_assoc.
  rewrite rstrip_sep_app by (by rewrite rstrip_sep_no_sep).
  by rewrite rstrip_sep_no_sep.
Qed.

Lemma basename_join (p b : string) : no_sep b = true → basename (join p b) = b.
Proof.
  intros Hb. unfold basename, os_path_split.
  by rewrite cut_last_sep_join.
Qed.

(** [os.path.join] of two plain names puts one separator between them. *)
Lemma join_step_plain (x a b : string) :
  no_sep a = true → a ≠ "" → no_sep b = true →
  join_step (x +:+ a) b = join (x +:+ a) b.
Proof.
  intros Ha Hne Hb. unfold join_step.
  rewrite starts_with_sep_no_sep, is_empty_app, ends_with_sep_app by done.
  by rewrite ends_with_sep_no_sep.
Qed.

Lemma join_step_names (a b : string) :
  no_sep a = true → a ≠ "" → no_sep b = true → join_step a b = join a b.
Proof. apply (join_step_plain ""). Qed.

Lemma ends_with_sep_inv (p : string) :
  ends_with_sep p = true → ∃ y, p = y +:+ "/".
Proof.
  induction p as [|c p IH]; [done|]. cbn [ends_with_sep].
  destruct p as [|c' p].
  - intros Hc%Ascii.eqb_eq. subst c. by exists "".
  - intros H. destruct (IH H) as [y Hy]. exists (String c y).
    by rewrite (append_cons c y), <- Hy.
Qed.

(** The last two components of a path whose last two names are plain,
    whatever stands before them. *)
Lemma last_folders_two (x a b : string) :
  no_sep a = true → a ≠ "" → no_sep b = true →
  x = "" ∨ (∃ y, x = y +:+ "/") →
  last_folders (join (x +:+ a) b) 2 = join a b.
Proof.
  intros Ha Hne Hb Hx. unfold last_folders, dirname.
  rewrite bool_decide_true by (apply list_elem_of_In; simpl; auto). cbn [Z.eqb Pos.eqb].
  assert (Hsplit : os_path_split (join (x +:+ a) b) = (x +:+ a, b)).
  { unfold os_path_split. rewrite cut_last_sep_join by done.
    rewrite is_empty_app by done.
    rewrite !all_sep_app, (all_sep_no_sep a) by done.
    rewrite andb_false_r. cbn [negb andb]. f_equal.
    rewrite rstrip_sep_slash.
    rewrite rstrip_sep_app by (by rewrite rstrip_sep_no_sep).
    by rewrite rstrip_sep_no_sep. }
  rewrite Hsplit. cbn [fst].
  rewrite basename_join by done.
  assert (Hbase : basename (x +:+ a) = a).
  { destruct Hx as [->|[y ->]].
    - unfold basename, os_path_split. by rewrite append_nil_l, cut_last_sep_no_sep.
    - rewrite append_assoc. by apply (basename_join y a). }
  rewrite Hbase. cbn [os_path_join fold_left]. by apply join_step_names.
Qed.

Lemma last_folders_parts (p a b : string) :
  no_sep a = true → a ≠ "" → no_sep b = true →
  last_folders (join (join p a) b) 1 = b
  ∧ last_folders (join (join p a) b) 2 = join a b
  ∧ (∀ number : Z, number ∉ [1; 2; 3]%Z →
       last_folders (join (join p a) b) number = b)
  ∧ (∀ q r, p = join q r → no_sep r = true → r ≠ "" →
       last_folders (join (join p a) b) 3 = join (join r a) b).
Proof.
  intros Ha Hne Hb.
  assert (H1 : last_folders (join (join p a) b) 1 = b).
  { unfold last_folders. cbn [bool_decide]. by rewrite basename_join. }
  split; [exact H1|]. split; [|split].
  - unfold last_folders, dirname.
    rewrite bool_decide_true by set_solver. cbn [Z.eqb Pos.eqb].
    rewrite os_path_split_join by done. cbn [fst].
    rewrite !basename_join by done. cbn [os_path_join fold_left].
    by apply join_step_names.
  - intros number Hn. unfold last_folders.
    rewrite bool_decide_false by done. cbn [Z.eqb Pos.eqb].
    by rewrite basename_join.
  - intros q r -> Hr Hrne. unfold last_folders, dirname.
    rewrite bool_decide_true by set_solver. cbn [Z.eqb Pos.eqb].
    rewrite os_path_split_join by done. cbn [fst].
    rewrite os_path_split_join by done. cbn [fst].
    rewrite !basename_join by done. cbn [os_path_join fold_left].
    rewrite (join_step_names r a) by done.
    unfold join at 1. rewrite <- append_assoc.
    rewrite join_step_plain by done. by rewrite append_assoc.
Qed.

(** X22: [last_folders] returns the last components of a path built by
    [os.path.join] from plain names: the last one for [number = 1] and
    for every number other than 1, 2 and 3, the last two for
    [number = 2], the last three for [number = 3]. *)
Theorem last_folders_joined (p a b : string) :
  no_sep a = true → a ≠ "" → no_sep b = true →
  last_folders (join (join p a) b) 1 = b
  ∧ last_folders (join (join p a) b) 2 = join a b
  ∧ (∀ number : Z, number ∉ [1; 2; 3]%Z →
       last_folders (join (join p a) b) number = b)
  ∧ (∀ q r, p = join q r → no_sep r = true → r ≠ "" →
       last_folders (join (join p a) b) 3 = join (join r a) b).
Proof. apply last_folders_parts. Qed.

Lemma last_folders_joined_witness :
  last_folders (join (join "/home/run" "CONF7") "part1") 1 = "part1"
  ∧ last_folders (join (join "/home/run" "CONF7") "part1") 2 = join "CONF7" "part1".
Proof.
  destruct (last_folders_joined "/home/run" "CONF7" "part1") as (H1 & H2 & _);
    done.
Defined.
End paths.

(** ** Checking the folders of earlier runs *)

Section folder_check.
Import Conformers Paths.

Lemma no_sep_app (a b : string) : no_sep (a +:+ b) = no_sep a && no_sep b.
Proof.
  induction a as [|c a IH]; [done|].
  rewrite (append_cons c a). cbn [no_sep]. by rewrite IH, andb_assoc.
Qed.

Lemma no_sep_pretty_N_go (x : N) (s : string) :
  no_sep s = true → no_sep (pretty_N_go x s) = true.
Proof.
  revert s. induction (N.lt_wf_0 x) as [x _ IH]; intros s Hs.
  assert (x = 0 ∨ 0 < x)%N as [->|Hx] by lia.
  - by rewrite pretty_N_go_0.
  - rewrite pretty_N_go_step by done. apply IH.
    { by apply N.div_lt. }
    cbn [no_sep]. rewrite Hs, andb_true_r.
    unfold pretty_N_char. by repeat case_match.
Qed.

(** The decimal numeral of an id holds no separator. *)
Lemma no_sep_pretty (n : nat) : no_sep (pretty n) = true.
Proof.
  unfold pretty, pretty_nat, pretty, pretty_N.
  destruct (decide (N.of_nat n = 0%N)); [done|].
  by apply no_sep_pretty_N_go.
Qed.

Lemma no_sep_tag (n : nat) : no_sep ("CONF" +:+ pretty n) = true.
Proof. by rewrite no_sep_app, no_sep_pretty. Qed.

Lemma filter_none_elem {A} (P : A → Prop) `{∀ x, Decision (P x)} (l : list A) :
  (∀ x, x ∈ l → ¬ P x) → filter P l = [].
Proof.
  induction l as [|x l IH]; intros Hl; [done|].
  rewrite filter_cons_False by (apply Hl; by left).
  apply IH. intros y Hy. apply Hl. by right.
Qed.

Section check.
Variables (path foldername : string) (ds : gset string).

Local Abbreviation folder_of i :=
  (os_path_join path ["CONF" +:+ pretty i; foldername]).
Local Abbreviation check_step :=
  (fun (st : check_state) (i : nat) =>
     if decide (folder_of i ∈ ds) then st
     else {| cf_printed := cf_printed st ++ [msg_missing (folder_of i)];
             error_logical := true |}).

Lemma check_loop (conflist : list nat) (st : check_state) :
  fold_left check_step conflist st
  = {| cf_printed :=
         cf_printed st
         ++ map (fun i => msg_missing (folder_of i))
                (filter (fun i => folder_of i ∉ ds) conflist);
       error_logical :=
         error_logical st
         || bool_decide (filter (fun i => folder_of i ∉ ds) conflist ≠ []) |}.
Proof.
  revert st. induction conflist as [|i conflist IH]; intros st.
  - cbn. rewrite app_nil_r, orb_false_r. by destruct st.
  - cbn [fold_left]. rewrite IH. rewrite filter_cons.
    destruct (decide (folder_of i ∈ ds)) as [Hin|Hin].
    + by rewrite decide_False by tauto.
    + rewrite decide_True by done. cbn [cf_printed error_logical map].
      rewrite <- app_assoc. cbn [app]. f_equal.
      by rewrite orb_true_r.
Qed.

Lemma check_for_folder_filter (conflist : list nat) (debug : bool) :
  let missing := filter (fun i => folder_of i ∉ ds) conflist in
  check_for_folder path conflist foldername debug ds
  = (map (fun i => msg_missing (folder_of i)) missing
     ++ (if bool_decide (missing ≠ []) && negb debug
         then ["One or multiple directories are missing." +:+ newline]
         else []),
     bool_decide (missing ≠ [])).
Proof. intros missing. unfold check_for_folder. by rewrite check_loop. Qed.

(** The folder of a conformer ends in the tag and the folder name. *)
Lemma folder_of_form (i : nat) :
  no_sep foldername = true →
  ∃ x, folder_of i = join (x +:+ ("CONF" +:+ pretty i)) foldername
       ∧ (x = "" ∨ ∃ y, x = y +:+ "/").
Proof.
  intros Hf. cbn [os_path_join fold_left].
  assert (Htag : no_sep ("CONF" +:+ pretty i) = true) by apply no_sep_tag.
  assert (Hne : "CONF" +:+ pretty i ≠ "") by done.
  assert (Hstep : ∀ x, join_step (x +:+ ("CONF" +:+ pretty i)) foldername
                       = join (x +:+ ("CONF" +:+ pretty i)) foldername).
  { intros x. by apply join_step_plain. }
  unfold join_step at 2. cbn [starts_with_sep].
  change (Ascii.eqb "C" sep) with false. cbv iota.
  destruct (is_empty path) eqn:Hempty.
  - destruct path; [|done]. cbn [orb]. exists "". split; [apply (Hstep "")|by left].
  - cbn [orb]. destruct (ends_with_sep path) eqn:Hends.
    + destruct (ends_with_sep_inv path Hends) as [y ->].
      exists (y +:+ "/"). split; [apply Hstep|]. right. by exists y.
    + exists (path +:+ "/"). split.
      * rewrite <- (Hstep (path +:+ "/")). by rewrite append_assoc.
      * right. by exists path.
Qed.

Lemma msg_missing_folder (i : nat) :
  no_sep foldername = true →
  msg_missing (folder_of i)
  = "ERROR: directory of " +:+ join ("CONF" +:+ pretty i) foldername
    +:+ " does not exist, although it was calculated before!".
Proof.
  intros Hf. unfold msg_missing.
  destruct (folder_of_form i Hf) as (x & -> & Hx).
  rewrite last_folders_two; [done|apply no_sep_tag|done..].
Qed.
End check.

(** X23: for a folder name without a separator, [check_for_folder]
    returns [True] exactly when the folder of
    some conformer of the list is missing; it prints one line for every
    missing folder, in the order of the list, naming it by its last two
    components [CONF<id>/<foldername>], and then the summary line unless
    [debug] is set. *)
Theorem check_for_folder_reports (path foldername : string)
    (conflist : list nat) (debug : bool) (ds : gset string) :
  no_sep foldername = true →
  let missing :=
    filter (fun i => os_path_join path ["CONF" +:+ pretty i; foldername] ∉ ds)
           conflist in
  check_for_folder path conflist foldername debug ds
  = (map (fun i => "ERROR: directory of "
                   +:+ join ("CONF" +:+ pretty i) foldername
                   +:+ " does not exist, although it was calculated before!")
         missing
     ++ (if bool_decide (missing ≠ []) && negb debug
         then ["One or multiple directories are missing." +:+ newline]
         else []),
     bool_decide (missing ≠ [])).
Proof.
  intros Hf missing. rewrite check_for_folder_filter. fold missing.
  do 2 f_equal. apply map_ext. intros i. by apply msg_missing_folder.
Qed.

Lemma check_for_folder_reports_witness :
  check_for_folder "cwd" [1; 2]%nat "part1" false {["cwd/CONF1/part1"]}
  = (["ERROR: directory of CONF2/part1 does not exist, although it was calculated before!";
      "One or multiple directories are missing." +:+ newline], true).
Proof.
  rewrite (check_for_folder_reports "cwd" "part1" [1; 2]%nat false
             {["cwd/CONF1/part1"]} eq_refl).
  reflexivity.
Defined.

Section created.
Variables (refuses : string → bool) (h : loc → conformer)
          (cwd foldername : string).
Hypothesis never_refused : ∀ p, refuses p = false.

Local Abbreviation path conf := (os_path_join cwd [tag_of (h conf); foldername]).

Lemma mkdir_p_created (p : string) (ds : gset string) :
  ∃ ds', mkdir_p refuses p ds = Ok ds' ∧ ds ⊆ ds' ∧ p ∈ ds'.
Proof.
  unfold mkdir_p, makedirs. rewrite never_refused.
  destruct (decide (p ∈ ds)) as [Hin|Hin].
  - by exists ds.
  - exists ({[p]} ∪ ds). split; [done|]. set_solver.
Qed.

Lemma new_folders_loop_created (fuel i : nat) (st : folders_state) :
  (length (conflist st) ≤ i + fuel)%nat →
  ∃ ds',
    new_folders_loop fuel refuses h cwd foldername i st
    = Some (Ok {| conflist := conflist st;
                  nf_store_confs := nf_store_confs st;
                  nf_save_errors := nf_save_errors st;
                  nf_dirs := ds'; nf_printed := nf_printed st |})
    ∧ nf_dirs st ⊆ ds'
    ∧ ∀ k conf, (i ≤ k)%nat → conflist st !! k = Some conf → path conf ∈ ds'.
Proof.
  revert i st. induction fuel as [|fuel IH]; intros i st Hlen.
  - cbn [new_folders_loop].
    rewrite (lookup_ge_None_2 (conflist st) i) by lia.
    exists (nf_dirs st). split; [by destruct st|]. split; [done|].
    intros k conf Hk Hconf. apply lookup_lt_Some in Hconf. lia.
  - cbn [new_folders_loop].
    destruct (conflist st !! i) as [conf|] eqn:Hi.
    + unfold new_folders_body.
      destruct (mkdir_p_created (path conf) (nf_dirs st)) as (ds1 & -> & Hsub & Hin).
      destruct (IH (S i) {| conflist := conflist st;
                            nf_store_confs := nf_store_confs st;
                            nf_save_errors := nf_save_errors st;
                            nf_dirs := ds1; nf_printed := nf_printed st |})
        as (ds' & -> & Hsub' & Hall); [cbn; lia|].
      cbn [conflist nf_store_confs nf_save_errors nf_dirs nf_printed] in *.
      exists ds'. split; [done|]. split; [set_solver|].
      intros k conf' Hk Hconf'.
      destruct (decide (k = i)) as [->|Hne].
      * rewrite Hi in Hconf'. injection Hconf' as <-. set_solver.
      * apply (Hall k); [lia|done].
    + exists (nf_dirs st). split; [by destruct st|]. split; [done|].
      intros k conf Hk Hconf. apply lookup_lt_Some in Hconf.
      apply lookup_ge_None in Hi. lia.
Qed.
End created.

(** X24: when the file system refuses no folder, [new_folders] keeps
    every conformer in the active list, evicts none and records no
    error, no folder that existed is lost, and a following
    [check_for_folder] on the ids of the active list finds every folder:
    it prints nothing and returns [False]. *)
Theorem new_folders_then_check refuses cwd foldername silent debug (st : state) :
  (∀ p, refuses p = false) →
  ∃ printed st',
    new_folders refuses cwd foldername silent st = Some (Ok (printed, st'))
    ∧ conformers st' = conformers st
    ∧ store_confs st' = store_confs st
    ∧ save_errors st' = save_errors st
    ∧ dirs st ⊆ dirs st'
    ∧ check_for_folder cwd (ids_of st' (conformers st')) foldername debug
                       (dirs st') = ([], false).
Proof.
  intros Hnever. unfold new_folders.
  destruct (new_folders_loop_created refuses (heap st) cwd foldername Hnever
              (length (conformers st)) 0
              {| conflist := conformers st; nf_store_confs := store_confs st;
                 nf_save_errors := save_errors st; nf_dirs := dirs st;
                 nf_printed := [] |})
    as (ds' & -> & Hsub & Hall); [cbn; lia|].
  cbn [mbind option_bind result_bind conflist nf_store_confs nf_save_errors
       nf_dirs nf_printed] in *.
  do 2 eexists. split; [done|]. cbn [conformers store_confs save_errors dirs heap].
  do 4 (split; [done|]).
  rewrite check_for_folder_filter. cbv zeta.
  assert (Hnone : filter (fun i => os_path_join cwd ["CONF" +:+ pretty i; foldername] ∉ ds')
                    (ids_of {| heap := heap st; conformers := conformers st;
                               prev_calculated := prev_calculated st;
                               store_confs := store_confs st;
                               save_errors := save_errors st; dirs := ds' |}
                            (conformers st)) = []).
  { apply filter_none_elem. intros i Hi Hmiss. apply Hmiss.
    unfold ids_of in Hi. cbn [heap] in Hi.
    apply list_elem_of_In, in_map_iff in Hi as (conf & <- & Hconf).
    apply list_elem_of_In, list_elem_of_lookup in Hconf as [k Hk].
    apply (Hall k conf); [lia|done]. }
  by rewrite Hnone.
Qed.

Lemma new_folders_then_check_witness :
  ∃ printed st',
    new_folders (fun _ => false) "cwd" "part1" true example_state
    = Some (Ok (printed, st'))
    ∧ conformers st' = [0; 1]%nat
    ∧ check_for_folder "cwd" (ids_of st' (conformers st')) "part1" false
                       (dirs st') = ([], false).
Proof.
  destruct (new_folders_then_check (fun _ => false) "cwd" "part1" true false
              example_state (fun _ => eq_refl))
    as (printed & st' & Hrun & Hc & _ & _ & _ & Hcheck).
  exists printed, st'. by repeat split.
Defined.
End folder_check.

(** ** Energies read from the ensemble file *)

Section ensemble.
Import Ensemble.
Local Open Scope R_scope.

Lemma fold_left_Rmin_le (l : list R) (x : R) :
  fold_left Rmin l x <= x ∧ ∀ y, In y l → fold_left Rmin l x <= y.
Proof.
  revert x. induction l as [|z l IH]; intros x; cbn [fold_left].
  - split; [lra|]. by intros y [].
  - destruct (IH (Rmin x z)) as [H1 H2].
    pose proof (Rmin_l x z). pose proof (Rmin_r x z).
    split; [lra|]. intros y [<-|Hy]; [lra|]. by apply H2.
Qed.

Lemma fold_left_Rmin_In (l : list R) (x : R) :
  fold_left Rmin l x = x ∨ In (fold_left Rmin l x) l.
Proof.
  revert x. induction l as [|z l IH]; intros x; cbn [fold_left]; [by left|].
  destruct (IH (Rmin x z)) as [H|H]; [|right; by right].
  rewrite H. unfold Rmin. destruct (Rle_dec x z); [by left|right; by left].
Qed.

(** [min] of a non-empty list is one of its elements and a lower bound. *)
Lemma py_min_spec (l : list R) (m : R) :
  Boltzmann.py_min l = Some m → In m l ∧ ∀ y, In y l → m <= y.
Proof.
  destruct l as [|x l]; [done|]. intros [= <-].
  destruct (fold_left_Rmin_le l x) as [H1 H2].
  split.
  - destruct (fold_left_Rmin_In l x) as [->|H]; [by left|by right].
  - intros y [<-|Hy]; [done|by apply H2].
Qed.

Lemma py_min_nonempty (l : list R) : l ≠ [] → ∃ m, Boltzmann.py_min l = Some m.
Proof. destruct l; [done|]. by eexists. Qed.

(** *** The dict *)

Lemma dict_get_set (k : nat) (v : option R) (e : dict) :
  dict_get k (dict_set k v e) = Some v.
Proof.
  induction e as [|[k' v'] e IH]; cbn [dict_set dict_get].
  - by rewrite Nat.eqb_refl.
  - destruct (Nat.eqb_spec k k') as [->|Hne]; cbn [dict_get].
    + by rewrite Nat.eqb_refl.
    + by rewrite (proj2 (Nat.eqb_neq k k')).
Qed.

Lemma dict_get_set_ne (k k' : nat) (v : option R) (e : dict) :
  k' ≠ k → dict_get k' (dict_set k v e) = dict_get k' e.
Proof.
  intros Hne. induction e as [|[k1 v1] e IH]; cbn [dict_set dict_get].
  - by rewrite (proj2 (Nat.eqb_neq k' k)).
  - destruct (Nat.eqb_spec k k1) as [->|Hne1]; cbn [dict_get].
    + by rewrite (proj2 (Nat.eqb_neq k' k1)).
    + by rewrite IH.
Qed.

Lemma dict_set_In (k : nat) (v : option R) (e : dict) (kv : nat * option R) :
  In kv (dict_set k v e) → kv = (k, v) ∨ In kv e.
Proof.
  induction e as [|[k1 v1] e IH]; cbn [dict_set].
  - intros [<-|[]]. by left.
  - destruct (Nat.eqb_spec k k1) as [->|Hne].
    + intros [<-|H]; [by left|right; by right].
    + intros [<-|H]; [right; by left|].
      destruct (IH H) as [->|H']; [by left|right; by right].
Qed.

Lemma dict_get_In (k : nat) (v : option R) (e : dict) :
  dict_get k e = Some v → In (k, v) e.
Proof.
  induction e as [|[k1 v1] e IH]; cbn [dict_get]; [done|].
  destruct (Nat.eqb_spec k k1) as [->|Hne].
  - intros [= ->]. by left.
  - intros H. right. by apply IH.
Qed.

Section reading.
Variables (float_of : string → option R) (c : config) (data : list string).
(** The value that the line of a conformer gives. *)
Variable val : nat → option R.

Lemma read_energies_holds (confs : list conformer) :
  (∀ conf, In conf confs →
     energy_of_line float_of c data (id conf) = Ok (val (id conf))) →
  ∀ (ks : list nat) (e : dict), dict_holds val ks e →
    ∃ e', read_energies float_of c data confs e = Ok e'
          ∧ dict_holds val (ks ++ map id confs) e'.
Proof.
  induction confs as [|conf confs IH]; intros Hval ks e He.
  - exists e. split; [done|]. by rewrite app_nil_r.
  - cbn [read_energies]. rewrite Hval by (by left).
    cbn [mbind result_bind].
    destruct (IH (fun x Hx => Hval x (or_intror Hx)) (ks ++ [id conf])
                 (dict_set (id conf) (val (id conf)) e)) as (e' & -> & He').
    + destruct He as [H1 H2]. split.
      * intros k v [[= -> ->]|Hin]%dict_set_In.
        -- split; [done|]. apply in_or_app. right. by left.
        -- destruct (H1 k v Hin). split; [done|]. apply in_or_app. by left.
      * intros k [Hk|[<-|[]]]%in_app_or.
        -- destruct (decide (k = id conf)) as [->|Hne];
             [apply dict_get_set|].
           rewrite dict_get_set_ne by done. by apply H2.
        -- apply dict_get_set.
    + exists e'. split; [done|]. by rewrite <- app_assoc in He'.
Qed.
End reading.

Section assigning.
Variables (float_of : string → option R) (AU2KCAL : R) (c : config)
          (data : list string).

Local Abbreviation energy_line := (energy_of_line float_of c data).
Local Abbreviation assign := (assign_energies AU2KCAL).
Local Abbreviation get_energy := (get_energy_from_ensemble float_of AU2KCAL c data).
Local Abbreviation by_id := (sorted Nat.ltb id false).
Local Abbreviation printed0 :=
  (if (length data <? maxconf c * (cfg_nat c + 2))%nat
   then [msg_wrong_counts c] else []).

Lemma by_id_In (conformers : list conformer) (conf : conformer) :
  In conf (by_id conformers) ↔ In conf conformers.
Proof.
  rewrite <- !list_elem_of_In. unfold sorted.
  by rewrite (stable_sort_Permutation Nat.ltb id).
Qed.

(** The conformers whose line holds a number get both attributes. *)
Lemma assign_energies_read (valR : nat → R) (lowest : R) (d : dict)
    (pre confs seen : list conformer) (printed : list string) :
  (∀ conf, In conf pre → dict_get (id conf) d = Some (Some (valR (id conf)))) →
  assign lowest (pre ++ confs) (Some d) seen printed
  = assign lowest confs (Some d)
      (seen ++ map (fun conf =>
                      {| id := id conf; xtb_energy := Some (valR (id conf));
                         rel_xtb_energy :=
                           Some ((valR (id conf) - lowest) * AU2KCAL) |}) pre)
      printed.
Proof.
  revert seen. induction pre as [|conf pre IH]; intros seen Hd.
  - by rewrite app_nil_r.
  - cbn [app assign_energies map]. rewrite Hd by (by left).
    change (default None (Some ?v)) with v. cbv iota.
    rewrite IH by (intros; apply Hd; by right).
    by rewrite <- app_assoc.
Qed.

Lemma assign_energies_all (valR : nat → R) (lowest : R) (d : dict)
    (confs seen : list conformer) (printed : list string) :
  (∀ conf, In conf confs → dict_get (id conf) d = Some (Some (valR (id conf)))) →
  assign lowest confs (Some d) seen printed
  = (seen ++ map (fun conf =>
                    {| id := id conf; xtb_energy := Some (valR (id conf));
                       rel_xtb_energy :=
                         Some ((valR (id conf) - lowest) * AU2KCAL) |}) confs,
     printed, Ok tt).
Proof.
  intros Hd. rewrite <- (app_nil_r confs) at 1.
  by rewrite (assign_energies_read valR) by done.
Qed.

(** The only exception of the second loop is the unbound name. *)
Lemma assign_energies_outcome (lowest : R) (confs : list conformer)
    (e : option dict) (seen : list conformer) (printed : list string) :
  (assign lowest confs e seen printed).2 = Ok tt
  ∨ (assign lowest confs e seen printed).2 = Raise NameError.
Proof.
  revert e seen printed. induction confs as [|conf confs IH];
    intros e seen printed; cbn [assign_energies]; [by left|].
  destruct e as [d|]; [|by right].
  destruct (default None (dict_get (id conf) d)); apply IH.
Qed.

(** The values of the dict after the first loop. *)
Lemma lowest_of_holds (val : nat → option R) (ks : list nat) (e : dict) :
  dict_holds val ks e →
  (∀ x, In x (omap snd e) ↔ ∃ k, In k ks ∧ val k = Some x).
Proof.
  intros [H1 H2] x. rewrite <- list_elem_of_In, list_elem_of_omap. split.
  - intros ([k v] & Hin%list_elem_of_In & Hv). cbn in Hv. subst v.
    destruct (H1 k (Some x) Hin) as [Hval Hk]. by exists k.
  - intros (k & Hk & Hval). exists (k, Some x). split; [|done].
    apply list_elem_of_In, dict_get_In. rewrite H2 by done. by rewrite Hval.
Qed.

Lemma get_energy_unfold (val : nat → option R) (conformers : list conformer) :
  (∀ conf, In conf conformers → energy_line (id conf) = Ok (val (id conf))) →
  ∃ e, dict_holds val (map id (by_id conformers)) e
       ∧ get_energy conformers
         = match lowest_of e with
           | None => (by_id conformers, printed0 ++ [msg_no_rel], Ok None)
           | Some lowest =>
               let '(conformers', printed', r) :=
                 assign lowest (by_id conformers) (Some e) [] printed0 in
               (conformers', printed', _ ← r; Ok (Some conformers'))
           end.
Proof.
  intros Hval.
  destruct (read_energies_holds float_of c data val (by_id conformers)
              (fun x Hx => Hval x (proj1 (by_id_In _ _) Hx)) [] [])
    as (e & Hread & He); [by split|].
  exists e. split; [exact He|].
  unfold get_energy_from_ensemble. by rewrite Hread.
Qed.

(** X25: the handler [except ... as e] unbinds the dict.  For
    conformers with distinct ids: when the line of a conformer holds no
    number (and some line holds one), the conformer gets
    [xtb_energy = None], the [TypeError] is printed, and the conformer
    after it, in the order of the ids, ends the call with an uncaught
    [NameError]: it and all later conformers are not written to. *)
Theorem get_energy_unbound_dict (val : nat → option R)
    (conformers pre : list conformer) (conf next : conformer)
    (rest : list conformer) :
  NoDup (map id conformers) →
  (∀ x, In x conformers → energy_line (id x) = Ok (val (id x))) →
  (∃ x, In x conformers ∧ val (id x) ≠ None) →
  by_id conformers = pre ++ conf :: next :: rest →
  (∀ x, In x pre → val (id x) ≠ None) → val (id conf) = None →
  ∃ pre',
    map id pre' = map id pre
    ∧ get_energy conformers
      = (pre' ++ {| id := id conf; xtb_energy := None;
                    rel_xtb_energy := rel_xtb_energy conf |} :: next :: rest,
         printed0 ++ [msg_type_error], Raise NameError).
Proof.
  intros _ Hval (x0 & Hx0 & Hsome) Hsort Hpre Hconf.
  destruct (get_energy_unfold val conformers Hval) as (e & He & ->).
  pose proof (lowest_of_holds _ _ _ He) as Hvals.
  assert (Hex : ∃ m, lowest_of e = Some m).
  { apply py_min_nonempty. intros Hnil.
    destruct (val (id x0)) as [v|] eqn:Hv; [|done].
    assert (Hin : In v (omap snd e)).
    { apply Hvals. exists (id x0). split; [|done].
      by apply in_map, by_id_In. }
    by rewrite Hnil in Hin. }
  destruct Hex as [lowest ->].
  destruct He as [_ Hget].
  rewrite Hsort in *.
  rewrite (assign_energies_read (fun k => default 0%R (val k))).
  2:{ intros x Hx. rewrite Hget by (apply in_map, in_or_app; by left).
      specialize (Hpre x Hx). by destruct (val (id x)). }
  cbn [assign_energies app].
  rewrite Hget, Hconf by (apply in_map, in_or_app; right; by left).
  change (default None (Some ?v)) with v. cbv iota.
  cbn [assign_energies mbind result_bind].
  eexists. split; [|by rewrite <- app_assoc].
  rewrite map_map. by apply map_ext.
Qed.

(** X26: when no line of a conformer holds a number (also when there is
    no conformer), the call prints the warning and returns [None]; the
    list has been sorted by id, and no conformer has been written to. *)
Theorem get_energy_nothing_read (conformers : list conformer) :
  (∀ x, In x conformers → energy_line (id x) = Ok None) →
  get_energy conformers
  = (by_id conformers, printed0 ++ [msg_no_rel], Ok None).
Proof.
  intros Hval.
  destruct (get_energy_unfold (fun _ => None) conformers Hval) as (e & He & ->).
  pose proof (lowest_of_holds _ _ _ He) as Hvals.
  unfold lowest_of in *.
  destruct (omap snd e) as [|v l]; [done|]. exfalso.
  destruct (proj1 (Hvals v) ltac:(by left)) as (k & _ & Hk). done.
Qed.

(** The size check of the first statement covers every subscript. *)
Lemma energy_of_line_in_range (k : nat) :
  (maxconf c * (cfg_nat c + 2) ≤ length data)%nat →
  (1 ≤ k ≤ maxconf c)%nat →
  ∃ v, energy_line k = Ok v.
Proof.
  intros Hsize Hk. unfold energy_of_line, py_getitem_Z, line_index.
  set (i := ((Z.of_nat k - 1) * (Z.of_nat (cfg_nat c) + 2) + 1)%Z).
  assert (Hi : (1 ≤ i < Z.of_nat (length data))%Z) by (unfold i; nia).
  rewrite (proj2 (Z.ltb_ge i 0)) by lia.
  rewrite (proj2 (Z.ltb_ge i 0)) by lia.
  unfold py_getitem.
  destruct (lookup_lt_is_Some_2 data (Z.to_nat i) ltac:(lia)) as [line ->].
  by eexists.
Qed.

(** X27: when the size check passes, [maxconf * (nat + 2) <= len(data)],
    and every id lies between 1 and [maxconf], every line that is read
    exists: the call does not end with an [IndexError]. *)
Theorem get_energy_index_guard (conformers : list conformer) :
  (maxconf c * (cfg_nat c + 2) ≤ length data)%nat →
  (∀ x, In x conformers → (1 ≤ id x ≤ maxconf c)%nat) →
  (get_energy conformers).2 ≠ Raise IndexError.
Proof.
  intros Hsize Hids.
  set (val := fun k => match energy_line k with Ok v => v | Raise _ => None end).
  destruct (get_energy_unfold val conformers) as (e & He & ->).
  { intros x Hx. unfold val.
    by destruct (energy_of_line_in_range (id x) Hsize (Hids x Hx)) as [v ->]. }
  destruct (lowest_of e) as [lowest|]; [|done].
  pose proof (assign_energies_outcome lowest (by_id conformers) (Some e) [] printed0)
    as Hout.
  destruct (assign lowest (by_id conformers) (Some e) [] printed0)
    as [[confs' printed'] r].
  cbn [snd] in *. by destruct Hout as [-> | ->].
Qed.

(** X28: when the line of every conformer holds a number, the call
    returns the list, sorted by id, and nothing more is printed; every
    conformer has the number of its line as [xtb_energy] and a number
    as [rel_xtb_energy]. *)
Theorem get_energy_all_read (valR : nat → R) (conformers : list conformer) :
  conformers ≠ [] →
  (∀ x, In x conformers → energy_line (id x) = Ok (Some (valR (id x)))) →
  ∃ conformers',
    get_energy conformers = (conformers', printed0, Ok (Some conformers'))
    ∧ map id conformers' = map id (by_id conformers)
    ∧ Forall (fun x => xtb_energy x = Some (valR (id x))
                       ∧ is_Some (rel_xtb_energy x)) conformers'.
Proof.
  intros Hne Hval.
  destruct (get_energy_unfold (fun k => Some (valR k)) conformers Hval)
    as (e & He & ->).
  pose proof (lowest_of_holds _ _ _ He) as Hvals.
  assert (Hex : ∃ m, lowest_of e = Some m).
  { apply py_min_nonempty. destruct conformers as [|conf0 conformers]; [done|].
    intros Hnil.
    assert (Hin : In (valR (id conf0)) (omap snd e)).
    { apply Hvals. exists (id conf0). split; [|done].
      apply in_map, by_id_In. by left. }
    by rewrite Hnil in Hin. }
  destruct Hex as [lowest ->].
  rewrite (assign_energies_all valR).
  2:{ intros x Hx. destruct He as [_ H2]. by rewrite H2 by (by apply in_map). }
  cbn [app mbind result_bind].
  eexists. split; [done|]. split.
  - rewrite map_map. by apply map_ext.
  - apply Forall_forall. intros x Hx.
    apply list_elem_of_In, in_map_iff in Hx as (y & <- & _). by split.
Qed.
End assigning.

Lemma get_energy_unbound_dict_witness :
  ∃ pre',
    map id pre' = [1%nat]
    ∧ get_energy_from_ensemble example_float_of 627.5 example_config
        (example_data "   no energy")
        [example_conformer 3; example_conformer 1; example_conformer 2]
      = (pre' ++ [example_conformer 2; example_conformer 3],
         [msg_type_error], Raise NameError).
Proof.
  apply (get_energy_unbound_dict example_float_of 627.5 example_config
           (example_data "   no energy")
           (fun k => if (k =? 2)%nat then None else example_float_of
                       (if (k =? 1)%nat then "-1.5" else "-2.5"))
           [example_conformer 3; example_conformer 1; example_conformer 2]
           [example_conformer 1] (example_conformer 2) (example_conformer 3) []).
  - apply (bool_decide_unpack _). reflexivity.
  - intros x [<-|[<-|[<-|[]]]]; reflexivity.
  - exists (example_conformer 1). split; [right; by left|done].
  - reflexivity.
  - intros x [<-|[]]. done.
  - reflexivity.
Defined.

Lemma get_energy_nothing_read_witness :
  get_energy_from_ensemble example_float_of 627.5 example_config
    (example_data "   no energy") [example_conformer 2]
  = ([example_conformer 2], [msg_no_rel], Ok None).
Proof.
  apply (get_energy_nothing_read example_float_of 627.5 example_config
           (example_data "   no energy") [example_conformer 2]).
  intros x [<-|[]]. reflexivity.
Defined.

Lemma get_energy_index_guard_witness :
  (get_energy_from_ensemble example_float_of 627.5 example_config
     (example_data "   no energy")
     [example_conformer 3; example_conformer 1; example_conformer 2]).2
  ≠ Raise IndexError.
Proof.
  apply (get_energy_index_guard example_float_of 627.5 example_config
           (example_data "   no energy")).
  - simpl. lia.
  - intros x [<-|[<-|[<-|[]]]]; simpl; lia.
Defined.

Lemma get_energy_all_read_witness :
  ∃ conformers',
    get_energy_from_ensemble example_float_of 627.5 example_config
      (example_data "   no energy") [example_conformer 3; example_conformer 1]
    = (conformers', [], Ok (Some conformers'))
    ∧ map id conformers' = [1; 3]%nat.
Proof.
  destruct (get_energy_all_read example_float_of 627.5 example_config
              (example_data "   no energy")
              (fun k => if (k =? 1)%nat then -1.5 else -2.5)%R
              [example_conformer 3; example_conformer 1])
    as (confs' & Hrun & Hids & _).
  - done.
  - intros x [<-|[<-|[]]]; reflexivity.
  - exists confs'. split; [exact Hrun|exact Hids].
Defined.
End ensemble.
